(** * LinearAlgebra::TpetraWrappers::SparseMatrix

    A shallow embedding of
    [include/deal.II/lac/trilinos_tpetra_sparse_matrix.templates.h] and the
    properties of its fill-state machine ([compress], [resume_fill]), its
    constructors, the entry mutators ([set], [add]), [copy_from], [clear],
    the four matrix-vector products, [element] and the value copy of
    [reinit] from a [dealii::SparseMatrix].

    - Member functions are functions on the record [SparseMatrix] of the
      data members; a function that can fail returns a [Result], whose
      [Abort] carries the exception of the failed assertion or the exception
      thrown by Trilinos.
    - Objects whose address the code compares ([copy_from], the products)
      live in a store indexed by address.
    - [Number] is [double].
    - The wrapped class [Tpetra::CrsMatrix] belongs to Trilinos; module
      [Tpetra] is an executable reference model of the part of its interface
      that the wrapper calls, as seen by one process. *)

From Stdlib Require Import ZArith List Bool Lia SpecFloat.
Import ListNotations.
Local Open Scope Z_scope.

(** ** Scalars

    [Number] is IEEE 754 binary64 ([double]), in the Standard Library's
    executable specification of floating-point numbers. *)

Definition prec : Z := 53.
Definition emax : Z := 1024.

Definition Number : Type := spec_float.

Definition zero : Number := S754_zero false.
Definition one : Number := SFone prec emax.
Definition NaN : Number := S754_nan.
Definition Inf : Number := S754_infinity false.

(** [numbers::is_finite], i.e. [std::isfinite]. *)
Definition is_finite (x : Number) : bool :=
  match x with
  | S754_zero _ | S754_finite _ _ _ => true
  | S754_infinity _ | S754_nan => false
  end.

(** C++ [==] and [!=] on [double]: every comparison with NaN is unordered,
    so [NaN != 0] holds; both signed zeros are equal to [0]. *)
Definition Number_eqb (x y : Number) : bool := SFeqb x y.
Definition Number_neb (x y : Number) : bool := negb (SFeqb x y).

(** [std::fabs(x) > tol]. *)
Definition fabs_gt (x tol : Number) : bool := SFltb tol (SFabs x).

Definition Number_add (x y : Number) : Number := SFadd prec emax x y.
Definition Number_mul (x y : Number) : Number := SFmul prec emax x y.

(** ** Exceptions and the error monad *)

Inductive Exc : Type :=
| ExcIndexRange (index lower upper : Z)
| ExcDimensionMismatch (dim1 dim2 : Z)
| ExcNumberNotFinite (x : Number)
| ExcSourceEqualsDestination
| ExcMatrixNotCompressed
| ExcColMapMissmatch
| ExcDomainMapMissmatch
| ExcAccessToNonLocalElement (i j lo hi : Z)
| ExcInvalidIndex (i j : Z)
| ExcInvalidIterator
| std_runtime_error
| std_invalid_argument
(** not an exception of the program: the result of a loop model whose
    iteration bound was too small *)
| iteration_bound_exceeded
(** not an exception of the program either: a write past the end of a
    [std::vector], or the use of a library result that is documented as
    undefined; the program has no defined result there and the model gives
    none *)
| undefined_behaviour.

Inductive Result (A : Type) : Type :=
| Ok (a : A)
| Abort (e : Exc).
Arguments Ok {A} a.
Arguments Abort {A} e.

Definition bind {A B : Type} (r : Result A) (k : A -> Result B) : Result B :=
  match r with
  | Ok a => k a
  | Abort e => Abort e
  end.

Declare Scope result_scope.
Delimit Scope result_scope with result.
Notation "x <- c1 ;; c2" := (bind c1 (fun x => c2))
  (at level 61, c1 at next level, right associativity) : result_scope.
Notation "c1 ;; c2" := (bind c1 (fun _ => c2))
  (at level 61, right associativity) : result_scope.
Local Open Scope result_scope.

Definition is_Ok {A : Type} (r : Result A) : bool :=
  match r with Ok _ => true | Abort _ => false end.

Definition aborts {A : Type} (r : Result A) : Prop :=
  exists e, r = Abort e.

(** Modelled from the spec: the macros [Assert], [AssertIndexRange],
    [AssertDimension] and [AssertIsFinite] of [deal.II/base/exceptions.h]
    are not part of the embedded source.  Section 7 of the specification makes every one of
    them fatal ("checked eagerly", "terminate the operation immediately"),
    an index-range check is membership in [[0, range)] and the finite-value
    check rejects NaN and Inf. *)
Definition Assert (cond : bool) (exc : Exc) : Result unit :=
  if cond then Ok tt else Abort exc.

Definition AssertIndexRange (index range : Z) : Result unit :=
  Assert ((0 <=? index) && (index <? range)) (ExcIndexRange index 0 range).

Definition AssertDimension (dim1 dim2 : Z) : Result unit :=
  Assert (dim1 =? dim2) (ExcDimensionMismatch dim1 dim2).

Definition AssertIsFinite (x : Number) : Result unit :=
  Assert (is_finite x) (ExcNumberNotFinite x).

(** ** Reference model of the Tpetra interface *)

Module Tpetra.

Record Comm : Type := mkComm { comm_size : Z; comm_rank : Z }.

Definition Comm_eqb (a b : Comm) : bool :=
  (comm_size a =? comm_size b) && (comm_rank a =? comm_rank b).

(** [Teuchos::OrdinalTraits<int>::invalid()]. *)
Definition invalid : Z := -1.

Module Map.

(** The view one process has of a [Tpetra::Map]: the global number of
    indices, the global indices it owns, in local order, and the
    communicator. *)
Record t : Type := mk {
  getGlobalNumElements : Z;
  getMyGlobalIndices : list Z;
  getComm : Comm
}.

Fixpoint index_of (g : Z) (l : list Z) (k : Z) : Z :=
  match l with
  | [] => invalid
  | x :: l' => if x =? g then k else index_of g l' (k + 1)
  end.

Definition getLocalElement (m : t) (g : Z) : Z :=
  index_of g (getMyGlobalIndices m) 0.

Definition getLocalNumElements (m : t) : Z :=
  Z.of_nat (length (getMyGlobalIndices m)).

Definition isNodeGlobalElement (m : t) (g : Z) : bool :=
  negb (getLocalElement m g =? invalid).

Fixpoint list_Z_eqb (a b : list Z) : bool :=
  match a, b with
  | [], [] => true
  | x :: a', y :: b' => (x =? y) && list_Z_eqb a' b'
  | _, _ => false
  end.

Definition isSameAs (a b : t) : bool :=
  (getGlobalNumElements a =? getGlobalNumElements b)
  && list_Z_eqb (getMyGlobalIndices a) (getMyGlobalIndices b)
  && Comm_eqb (getComm a) (getComm b).

(** [Map(numGlobalElements, indexBase = 0, comm)]: the contiguous,
    uniformly distributed map; the first [n mod size] processes own one
    index more than the others. *)
Definition contiguous (n : Z) (c : Comm) : t :=
  let q := n / comm_size c in
  let r := n mod comm_size c in
  let count := q + (if comm_rank c <? r then 1 else 0) in
  let first := comm_rank c * q + Z.min (comm_rank c) r in
  mk n (map (fun k => first + Z.of_nat k) (seq 0 (Z.to_nat count))) c.

End Map.

(** Rows of a graph or a matrix are kept sorted by column, one entry per
    column, once the fill is complete. *)
Fixpoint insert_index (c : Z) (row : list Z) : list Z :=
  match row with
  | [] => [c]
  | c' :: row' =>
      if c <? c' then c :: row
      else if c =? c' then row
      else c' :: insert_index c row'
  end.

Definition sort_indices (row : list Z) : list Z :=
  fold_left (fun acc c => insert_index c acc) row [].

Fixpoint insert_entry (c : Z) (v : Number) (row : list (Z * Number))
  : list (Z * Number) :=
  match row with
  | [] => [(c, v)]
  | (c', v') :: row' =>
      if c <? c' then (c, v) :: row
      else if c =? c' then (c', Number_add v' v) :: row'
      else (c', v') :: insert_entry c v row'
  end.

Definition sort_and_merge (row : list (Z * Number)) : list (Z * Number) :=
  fold_left (fun acc cv => insert_entry (fst cv) (snd cv) acc) row [].

(** The rows [rs] with [f] applied to the row of local index [l]. *)
Definition update_row {T : Type} (l : Z) (f : list T -> list T)
  (rs : list (list T)) : list (list T) :=
  firstn (Z.to_nat l) rs
  ++ match skipn (Z.to_nat l) rs with
     | [] => []
     | r :: rs' => f r :: rs'
     end.

Module CrsGraph.

Record t : Type := mk {
  getRowMap : Map.t;
  getColMap : Map.t;
  getDomainMap : Map.t;
  getRangeMap : Map.t;
  (** global column indices of each locally owned row *)
  indices : list (list Z);
  (** indices inserted into rows owned by another process, kept until the
      next [fillComplete] ships them to their owner *)
  nonlocals : list (Z * list Z);
  isFillComplete : bool
}.

(** [CrsGraph(rowMap, colMap, maxNumEntriesPerRow)]: no entries yet;
    the domain and range maps are only meaningful after
    [fillComplete]. *)
Definition make (rowMap colMap : Map.t) (maxNumEntriesPerRow : Z) : t :=
  mk rowMap colMap rowMap rowMap
     (repeat [] (length (Map.getMyGlobalIndices rowMap))) [] false.

(** [insertGlobalIndices(globalRow, indices)]; it throws unless the fill is
    active, and for an owned row when an index is not in the column map. *)
Definition insertGlobalIndices (globalRow : Z) (inds : list Z) (g : t) : Result t :=
  if isFillComplete g then Abort std_runtime_error
  else
    let l := Map.getLocalElement (getRowMap g) globalRow in
    if l =? invalid then
      Ok (mk (getRowMap g) (getColMap g) (getDomainMap g) (getRangeMap g)
             (indices g) (nonlocals g ++ [(globalRow, inds)]) false)
    else if forallb (Map.isNodeGlobalElement (getColMap g)) inds then
      Ok (mk (getRowMap g) (getColMap g) (getDomainMap g) (getRangeMap g)
             (update_row l (fun r => r ++ inds) (indices g)) (nonlocals g) false)
    else Abort std_invalid_argument.

(** [fillComplete(domainMap, rangeMap)]; it throws unless the fill is
    active. *)
Definition fillComplete (domainMap rangeMap : Map.t) (g : t) : Result t :=
  if isFillComplete g then Abort std_runtime_error
  else Ok (mk (getRowMap g) (getColMap g) domainMap rangeMap
              (map sort_indices (indices g)) [] true).

(** [fillComplete()]: the row map is both the domain and the range map. *)
Definition fillComplete0 (g : t) : Result t :=
  fillComplete (getRowMap g) (getRowMap g) g.

End CrsGraph.

Inductive ETransp : Type := NO_TRANS | TRANS.

Module Vector.
Record t : Type := mk {
  getMap : Map.t;
  (** one value per locally owned index, in local order *)
  values : list Number
}.
End Vector.

Module CrsMatrix.

Record t : Type := mk {
  getRowMap : Map.t;
  getColMap : Map.t;
  getDomainMap : Map.t;
  getRangeMap : Map.t;
  isStaticGraph : bool;
  isFillComplete : bool;
  (** the stored entries of each locally owned row, as pairs of a
      global column index and a value *)
  rows : list (list (Z * Number));
  (** entries written to rows owned by another process, kept until the
      next [fillComplete] ships them to their owner *)
  nonlocals : list (Z * list (Z * Number))
}.

(** [CrsMatrix(graph)]: the matrix shares the structure of a
    fill-complete graph (a static graph), every value is zero, and the
    fill of the matrix itself is active. *)
Definition from_graph (g : CrsGraph.t) : Result t :=
  if CrsGraph.isFillComplete g then
    Ok (mk (CrsGraph.getRowMap g) (CrsGraph.getColMap g)
           (CrsGraph.getDomainMap g) (CrsGraph.getRangeMap g)
           true false
           (map (map (fun c => (c, zero))) (CrsGraph.indices g))
           [])
  else Abort std_runtime_error.

(** [CrsMatrix(rowMap, colMap, maxNumEntriesPerRow)]: a matrix that
    owns its graph, without entries.  (A matrix constructed without a
    column map receives one at its first [fillComplete]; those constructors
    are not modelled.)  [maxNumEntriesPerRow] is the number of entries for
    which a row is given room.  The state kept here has no capacity: what is
    proved of a matrix built by this constructor is stated for rows filled
    within [maxNumEntriesPerRow]. *)
Definition make (rowMap colMap : Map.t) (maxNumEntriesPerRow : Z) : t :=
  mk rowMap colMap colMap rowMap false false
     (repeat [] (length (Map.getMyGlobalIndices rowMap))) [].

Definition with_fill (b : bool) (M : t) : t :=
  mk (getRowMap M) (getColMap M) (getDomainMap M) (getRangeMap M)
     (isStaticGraph M) b (rows M) (nonlocals M).

Definition with_rows (rs : list (list (Z * Number))) (M : t) : t :=
  mk (getRowMap M) (getColMap M) (getDomainMap M) (getRangeMap M)
     (isStaticGraph M) (isFillComplete M) rs (nonlocals M).

Definition with_nonlocals (nl : list (Z * list (Z * Number))) (M : t) : t :=
  mk (getRowMap M) (getColMap M) (getDomainMap M) (getRangeMap M)
     (isStaticGraph M) (isFillComplete M) (rows M) nl.

(** [resumeFill()]: values and structure stay, the fill is active. *)
Definition resumeFill (M : t) : t := with_fill false M.

(** [fillComplete(domainMap, rangeMap)]: throws unless the fill is
    active; otherwise the rows are sorted, entries of one column are
    summed, and the stashed non-local entries leave the process. *)
Definition fillComplete (domainMap rangeMap : Map.t) (M : t) : Result t :=
  if isFillComplete M then Abort std_runtime_error
  else Ok (mk (getRowMap M) (getColMap M) domainMap rangeMap
              (isStaticGraph M) true
              (map sort_and_merge (rows M)) []).

Definition getGlobalNumRows (M : t) : Z :=
  Map.getGlobalNumElements (getRowMap M).

(** The row of [rows] with local index [l]. *)
Definition local_row (M : t) (l : Z) : list (Z * Number) :=
  nth (Z.to_nat l) (rows M) [].

(** [insertGlobalValues(globalRow, numEnt, vals, inds)]: needs a graph
    owned by the matrix and an active fill, and throws otherwise.  In an
    owned row the entries are appended to the row, provided every column
    index is in the column map (it throws when one is not); for a row of
    another process they are stashed. *)
Definition insertGlobalValues (globalRow : Z) (inds : list Z)
  (vals : list Number) (M : t) : Result t :=
  if isStaticGraph M || isFillComplete M then Abort std_runtime_error
  else
    let l := Map.getLocalElement (getRowMap M) globalRow in
    if l =? invalid then
      Ok (with_nonlocals (nonlocals M ++ [(globalRow, combine inds vals)]) M)
    else if forallb (Map.isNodeGlobalElement (getColMap M)) inds then
      Ok (with_rows (update_row l (fun r => r ++ combine inds vals) (rows M)) M)
    else Abort std_invalid_argument.

(** Replace (resp. add to) the value stored at column [c], when the row
    has an entry in that column. *)
Fixpoint replace_at (c : Z) (v : Number) (row : list (Z * Number))
  : list (Z * Number) :=
  match row with
  | [] => []
  | (c', v') :: row' =>
      if c' =? c then (c', v) :: row' else (c', v') :: replace_at c v row'
  end.

Fixpoint sum_at (c : Z) (v : Number) (row : list (Z * Number))
  : list (Z * Number) :=
  match row with
  | [] => []
  | (c', v') :: row' =>
      if c' =? c then (c', Number_add v' v) :: row'
      else (c', v') :: sum_at c v row'
  end.

(** [replaceGlobalValues(globalRow, numEnt, vals, inds)]: changes the
    values of entries that exist in an owned row; columns that are not
    in the row are skipped, and nothing happens unless the fill is
    active. *)
Definition replaceGlobalValues (globalRow : Z) (inds : list Z)
  (vals : list Number) (M : t) : t :=
  let l := Map.getLocalElement (getRowMap M) globalRow in
  if isFillComplete M || (l =? invalid) then M
  else
    with_rows
      (update_row l
         (fun r => fold_left (fun acc cv => replace_at (fst cv) (snd cv) acc)
                             (combine inds vals) r)
         (rows M)) M.

(** [sumIntoGlobalValues(globalRow, inds, vals)]: adds to the values of
    entries that exist in an owned row; contributions to a row of
    another process are stashed. *)
Definition sumIntoGlobalValues (globalRow : Z) (inds : list Z)
  (vals : list Number) (M : t) : t :=
  let l := Map.getLocalElement (getRowMap M) globalRow in
  if isFillComplete M then M
  else if l =? invalid then
    with_nonlocals (nonlocals M ++ [(globalRow, combine inds vals)]) M
  else
    with_rows
      (update_row l
         (fun r => fold_left (fun acc cv => sum_at (fst cv) (snd cv) acc)
                             (combine inds vals) r)
         (rows M)) M.

Definition getNumEntriesInLocalRow (M : t) (localRow : Z) : Z :=
  Z.of_nat (length (local_row M localRow)).

(** [getLocalMaxNumRowEntries()]: the number of entries of the longest
    local row.  Tpetra documents the result as undefined while the fill is
    active. *)
Definition getLocalMaxNumRowEntries (M : t) : Result Z :=
  if isFillComplete M then Ok (Z.of_nat (list_max (map (@length _) (rows M))))
  else Abort undefined_behaviour.

(** [getLocalRowCopy(localRow, colInds, vals, numEnt)]: the local column
    indices and the values of a row. *)
Definition getLocalRowCopy (M : t) (localRow : Z) : list Z * list Number :=
  (map (fun cv => Map.getLocalElement (getColMap M) (fst cv)) (local_row M localRow),
   map snd (local_row M localRow)).

(** The value of a vector at a global index this process owns; the entries
    of other processes are not visible in the single-process model. *)
Definition value_at (X : Vector.t) (g : Z) : Number :=
  let l := Map.getLocalElement (Vector.getMap X) g in
  if l =? invalid then zero else nth (Z.to_nat l) (Vector.values X) zero.

Definition row_times (row : list (Z * Number)) (X : Vector.t) : Number :=
  fold_left (fun acc cv => Number_add acc (Number_mul (snd cv) (value_at X (fst cv))))
            row zero.

Fixpoint entry_of (c : Z) (row : list (Z * Number)) : option Number :=
  match row with
  | [] => None
  | (c', v) :: row' => if c' =? c then Some v else entry_of c row'
  end.

Definition column_times (M : t) (c : Z) (X : Vector.t) : Number :=
  fold_left
    (fun acc gr =>
       match entry_of c (snd gr) with
       | Some v => Number_add acc (Number_mul v (value_at X (fst gr)))
       | None => acc
       end)
    (combine (Map.getMyGlobalIndices (getRowMap M)) (rows M))
    zero.

(** [op(A) X]: one value per locally owned row (resp. column). *)
Definition times (mode : ETransp) (M : t) (X : Vector.t) : list Number :=
  match mode with
  | NO_TRANS => map (fun row => row_times row X) (rows M)
  | TRANS => map (fun c => column_times M c X)
                 (Map.getMyGlobalIndices (getDomainMap M))
  end.

Definition scaled (s v : Number) : Number :=
  if Number_eqb s one then v else Number_mul s v.

(** [apply(X, Y, mode, alpha, beta)] computes
    [Y := beta * Y + alpha * op(A) * X]; with [beta = 0] the former content
    of [Y] is not read. *)
Definition apply (M : t) (X Y : Vector.t) (mode : ETransp)
  (alpha beta : Number) : Vector.t :=
  let AX := times mode M X in
  Vector.mk (Vector.getMap Y)
    (if Number_eqb beta zero then map (scaled alpha) AX
     else map (fun yax => Number_add (scaled beta (fst yax)) (scaled alpha (snd yax)))
              (combine (Vector.values Y) AX)).

(** [fillComplete()]: a matrix on a static graph keeps the domain and the
    range map of its graph; otherwise the row map serves as both. *)
Definition fillComplete0 (M : t) : Result t :=
  if isStaticGraph M then fillComplete (getDomainMap M) (getRangeMap M) M
  else fillComplete (getRowMap M) (getRowMap M) M.

(** [setAllToScalar(alpha)] and [scale(alpha)]: every stored value becomes
    [alpha], resp. is multiplied by [alpha]; both throw unless the fill is
    active. *)
Definition setAllToScalar (alpha : Number) (M : t) : Result t :=
  if isFillComplete M then Abort std_runtime_error
  else Ok (with_rows (map (map (fun cv => (fst cv, alpha))) (rows M)) M).

Definition scale (alpha : Number) (M : t) : Result t :=
  if isFillComplete M then Abort std_runtime_error
  else Ok (with_rows
             (map (map (fun cv => (fst cv, Number_mul alpha (snd cv)))) (rows M)) M).

(** [getFrobeniusNorm()]: the square root of the sum of the squares of the
    stored values. *)
Definition getFrobeniusNorm (M : t) : Number :=
  SFsqrt prec emax
    (fold_left (fun acc v => Number_add acc (Number_mul v v))
               (map snd (concat (rows M))) zero).

End CrsMatrix.

End Tpetra.

(** ** The wrapper class *)

Import Tpetra.

(** [Utilities::Trilinos::tpetra_comm_self()]: the communicator of one
    process alone. *)
Definition tpetra_comm_self : Comm := mkComm 1 0.

Module VectorOperation.
Inductive values : Type := unknown | insert | add | min | max.
End VectorOperation.

(** Modelled from the spec: [TpetraWrappers::SparsityPattern] is declared in
    [trilinos_tpetra_sparsity_pattern.h], which is not part of the embedded source.  It is
    the "graph-bearing sparsity object" of section 4.2: it holds a
    [Tpetra::CrsGraph], and its column partitioning is the domain map of that
    graph. *)
Record SparsityPattern : Type := mkSparsityPattern {
  trilinos_sparsity_pattern : CrsGraph.t
}.

Definition domain_partitioner (sp : SparsityPattern) : Map.t :=
  CrsGraph.getDomainMap (trilinos_sparsity_pattern sp).

(** The data members of [SparseMatrix<Number, MemorySpace>]. *)
Record SparseMatrix : Type := mkSparseMatrix {
  column_space_map : Map.t;
  matrix : CrsMatrix.t;
  compressed : bool
}.

(** Modelled from the spec: [m()] and [n()] are defined in
    [trilinos_tpetra_sparse_matrix.h], which is not part of the embedded source; they are
    the "shape queries" of the matrix, the global number of rows of the row
    partitioning and the global size of the column partitioning. *)
Definition m (A : SparseMatrix) : Z :=
  Map.getGlobalNumElements (CrsMatrix.getRowMap (matrix A)).

Definition n (A : SparseMatrix) : Z :=
  Map.getGlobalNumElements (column_space_map A).

(** [local_range()]: the first local row index and one past the last. *)
Definition local_range (A : SparseMatrix) : Z * Z :=
  (0, (Map.getLocalNumElements (CrsMatrix.getRowMap (matrix A)) - 1) + 1).

(** [compress(operation)]; the operation is not used. *)
Definition compress (operation : VectorOperation.values) (A : SparseMatrix)
  : Result SparseMatrix :=
  if negb (compressed A) then
    M <- CrsMatrix.fillComplete (column_space_map A)
           (CrsMatrix.getRowMap (matrix A)) (matrix A) ;;
    Ok (mkSparseMatrix (column_space_map A) M true)
  else Ok A.

(** [resume_fill()]. *)
Definition resume_fill (A : SparseMatrix) : SparseMatrix :=
  if compressed A then
    mkSparseMatrix (column_space_map A) (CrsMatrix.resumeFill (matrix A)) false
  else A.

(** [SparseMatrix()]. *)
Definition SparseMatrix_default : Result SparseMatrix :=
  let column_space_map := Map.contiguous 0 tpetra_comm_self in
  graph <- CrsGraph.fillComplete0
             (CrsGraph.make column_space_map column_space_map 0) ;;
  matrix <- CrsMatrix.from_graph graph ;;
  Ok (mkSparseMatrix column_space_map matrix false).

(** [SparseMatrix(const SparsityPattern &)]. *)
Definition SparseMatrix_from_sparsity_pattern (sparsity_pattern : SparsityPattern)
  : Result SparseMatrix :=
  matrix <- CrsMatrix.from_graph (trilinos_sparsity_pattern sparsity_pattern) ;;
  compress VectorOperation.add
    (mkSparseMatrix (domain_partitioner sparsity_pattern) matrix false).

(** [SparseMatrix(m, n, n_max_entries_per_row)]. *)
Definition SparseMatrix_m_n (m n : Z) (n_max_entries_per_row : Z) : SparseMatrix :=
  let column_space_map := Map.contiguous n tpetra_comm_self in
  mkSparseMatrix column_space_map
    (CrsMatrix.make (Map.contiguous m tpetra_comm_self) column_space_map
       n_max_entries_per_row)
    false.

(** [clear()]. *)
Definition clear (A : SparseMatrix) : Result SparseMatrix :=
  let column_space_map := Map.contiguous 0 tpetra_comm_self in
  graph <- CrsGraph.fillComplete0
             (CrsGraph.make column_space_map column_space_map 0) ;;
  matrix <- CrsMatrix.from_graph graph ;;
  Ok (mkSparseMatrix column_space_map matrix true).

(** The first part of [set] and [add]: "If the matrix is marked as
    compressed, we need to call resumeFill() first." *)
Definition resume_if_filled (A : SparseMatrix) : SparseMatrix :=
  if compressed A || CrsMatrix.isFillComplete (matrix A) then
    mkSparseMatrix (column_space_map A) (CrsMatrix.resumeFill (matrix A)) false
  else A.

(** A C array passed as a pointer [p] with a length [n]: the elements
    [p[0]], ..., [p[n - 1]]. *)
Definition read_array {T : Type} (default : T) (p : list T) (n : nat) : list T :=
  map (fun k => nth k p default) (seq 0 n).

(** The loop of [set] that extracts the nonzero values and their column
    indices, from position [j] on; the two arrays hold the [n_columns]
    entries found so far. *)
Fixpoint set_extract (remaining : nat) (j : nat) (col_indices : list Z)
  (values : list Number) (local_index_array : list Z)
  (local_value_array : list Number) : Result (list Z * list Number) :=
  match remaining with
  | O => Ok (local_index_array, local_value_array)
  | S remaining' =>
      let value := nth j values zero in
      AssertIsFinite value ;;
      if Number_neb value zero then
        set_extract remaining' (S j) col_indices values
          (local_index_array ++ [nth j col_indices 0])
          (local_value_array ++ [value])
      else
        set_extract remaining' (S j) col_indices values
          local_index_array local_value_array
  end.

(** [set(row, n_cols, col_indices, values, elide_zero_values)]. *)
Definition set (A : SparseMatrix) (row n_cols : Z) (col_indices : list Z)
  (values : list Number) (elide_zero_values : bool) : Result SparseMatrix :=
  AssertIndexRange row (m A) ;;
  cv <- (if negb elide_zero_values then
           Ok (read_array 0 col_indices (Z.to_nat n_cols),
               read_array zero values (Z.to_nat n_cols))
         else
           cv <- set_extract (Z.to_nat n_cols) 0 col_indices values [] [] ;;
           AssertIndexRange (Z.of_nat (length (fst cv))) (n_cols + 1) ;;
           Ok cv) ;;
  let A1 := resume_if_filled A in
  if negb (CrsMatrix.isStaticGraph (matrix A1)) then
    M <- CrsMatrix.insertGlobalValues row (fst cv) (snd cv) (matrix A1) ;;
    Ok (mkSparseMatrix (column_space_map A1) M (compressed A1))
  else
    Ok (mkSparseMatrix (column_space_map A1)
          (CrsMatrix.replaceGlobalValues row (fst cv) (snd cv) (matrix A1))
          (compressed A1)).

(** [std::count(values, values + n_cols, Number(0))]. *)
Definition count_zeros (n_cols : Z) (values : list Number) : Z :=
  Z.of_nat (length (filter (fun v => Number_eqb v zero)
                           (read_array zero values (Z.to_nat n_cols)))).

(** The two copy loops of [add], from position [i] on.  The arrays are
    allocated with [n_cols - n_zero_entries] slots and written from slot 0
    upwards; the lists hold the slots written so far. *)
Fixpoint add_copy_nonzero (remaining : nat) (i : nat) (n n_zero_entries : Z)
  (col_indices : list Z) (values : list Number)
  (col_indices_array : list Z) (values_array : list Number)
  : Result (list Z * list Number) :=
  match remaining with
  | O => Ok (col_indices_array, values_array)
  | S remaining' =>
      if Number_neb (nth i values zero) zero then
        AssertIsFinite (nth i values zero) ;;
        AssertIndexRange (nth i col_indices 0) n ;;
        AssertIndexRange (Z.of_nat (length col_indices_array)) n_zero_entries ;;
        add_copy_nonzero remaining' (S i) n n_zero_entries col_indices values
          (col_indices_array ++ [nth i col_indices 0])
          (values_array ++ [nth i values zero])
      else
        add_copy_nonzero remaining' (S i) n n_zero_entries col_indices values
          col_indices_array values_array
  end.

Fixpoint add_copy_all (remaining : nat) (i : nat) (n : Z)
  (col_indices : list Z) (values : list Number)
  (col_indices_array : list Z) (values_array : list Number)
  : Result (list Z * list Number) :=
  match remaining with
  | O => Ok (col_indices_array, values_array)
  | S remaining' =>
      AssertIsFinite (nth i values zero) ;;
      AssertIndexRange (nth i col_indices 0) n ;;
      add_copy_all remaining' (S i) n col_indices values
        (col_indices_array ++ [nth i col_indices 0])
        (values_array ++ [nth i values zero])
  end.

(** [add(row, n_cols, col_indices, values, elide_zero_values,
    col_indices_are_sorted)]. *)
Definition add (A : SparseMatrix) (row n_cols : Z) (col_indices : list Z)
  (values : list Number) (elide_zero_values : bool)
  (col_indices_are_sorted : bool) : Result SparseMatrix :=
  AssertIndexRange row (m A) ;;
  let A1 := resume_if_filled A in
  let n_zero_entries :=
    if elide_zero_values then count_zeros n_cols values else 0 in
  if n_zero_entries =? n_cols then Ok A1
  else
    cv <- (if elide_zero_values then
             add_copy_nonzero (Z.to_nat n_cols) 0 (n A1) n_zero_entries
               col_indices values [] []
           else
             add_copy_all (Z.to_nat n_cols) 0 (n A1) col_indices values [] []) ;;
    Ok (mkSparseMatrix (column_space_map A1)
          (CrsMatrix.sumIntoGlobalValues row (fst cv) (snd cv) (matrix A1))
          (compressed A1)).

(** *** Objects passed by reference

    [copy_from] compares the addresses of two matrices and the products
    compare the addresses of two vectors, so these operations act on a store
    of objects. *)

Definition address : Type := nat.

Definition Store (T : Type) : Type := address -> T.

Definition store_set {T : Type} (s : Store T) (a : address) (v : T) : Store T :=
  fun b => if Nat.eqb b a then v else s b.

(** [copy_from(source)], called on the object at address [this]. *)
Definition copy_from (objects : Store SparseMatrix) (this source : address)
  : Store SparseMatrix :=
  if Nat.eqb this source then objects
  else
    let matrix := matrix (objects source) in
    store_set objects this
      (mkSparseMatrix (CrsMatrix.getColMap matrix) matrix
         (compressed (objects source))).

(** Modelled from the spec: [TpetraWrappers::Vector] is declared in
    [trilinos_tpetra_vector.h], which is not part of the embedded source.  Section 6 asks of
    the vector operand that it "expose its own distribution-map equivalent";
    it holds a [Tpetra::Vector]. *)
Record Vector : Type := mkVector {
  trilinos_vector : Tpetra.Vector.t
}.

Definition vector_map (v : Vector) : Map.t :=
  Tpetra.Vector.getMap (trilinos_vector v).

(** [vmult(dst, src)]. *)
Definition vmult (A : SparseMatrix) (vectors : Store Vector) (dst src : address)
  : Result (Store Vector) :=
  Assert (negb (Nat.eqb src dst)) ExcSourceEqualsDestination ;;
  Assert (CrsMatrix.isFillComplete (matrix A)) ExcMatrixNotCompressed ;;
  Assert (Map.isSameAs (vector_map (vectors src)) (CrsMatrix.getDomainMap (matrix A)))
         ExcColMapMissmatch ;;
  Assert (Map.isSameAs (vector_map (vectors dst)) (CrsMatrix.getRangeMap (matrix A)))
         ExcDomainMapMissmatch ;;
  Ok (store_set vectors dst
        (mkVector (CrsMatrix.apply (matrix A)
                     (trilinos_vector (vectors src)) (trilinos_vector (vectors dst))
                     NO_TRANS one zero))).

(** [Tvmult(dst, src)]. *)
Definition Tvmult (A : SparseMatrix) (vectors : Store Vector) (dst src : address)
  : Result (Store Vector) :=
  Assert (negb (Nat.eqb src dst)) ExcSourceEqualsDestination ;;
  Assert (CrsMatrix.isFillComplete (matrix A)) ExcMatrixNotCompressed ;;
  Assert (Map.isSameAs (vector_map (vectors dst)) (CrsMatrix.getDomainMap (matrix A)))
         ExcColMapMissmatch ;;
  Assert (Map.isSameAs (vector_map (vectors src)) (CrsMatrix.getRangeMap (matrix A)))
         ExcDomainMapMissmatch ;;
  Ok (store_set vectors dst
        (mkVector (CrsMatrix.apply (matrix A)
                     (trilinos_vector (vectors src)) (trilinos_vector (vectors dst))
                     TRANS one zero))).

(** [vmult_add(dst, src)]. *)
Definition vmult_add (A : SparseMatrix) (vectors : Store Vector) (dst src : address)
  : Result (Store Vector) :=
  Assert (negb (Nat.eqb src dst)) ExcSourceEqualsDestination ;;
  Assert (CrsMatrix.isFillComplete (matrix A)) ExcMatrixNotCompressed ;;
  Assert (Map.isSameAs (vector_map (vectors src)) (CrsMatrix.getDomainMap (matrix A)))
         ExcColMapMissmatch ;;
  Assert (Map.isSameAs (vector_map (vectors dst)) (CrsMatrix.getRangeMap (matrix A)))
         ExcDomainMapMissmatch ;;
  Ok (store_set vectors dst
        (mkVector (CrsMatrix.apply (matrix A)
                     (trilinos_vector (vectors src)) (trilinos_vector (vectors dst))
                     NO_TRANS one one))).

(** [Tvmult_add(dst, src)]. *)
Definition Tvmult_add (A : SparseMatrix) (vectors : Store Vector) (dst src : address)
  : Result (Store Vector) :=
  Assert (negb (Nat.eqb src dst)) ExcSourceEqualsDestination ;;
  Assert (CrsMatrix.isFillComplete (matrix A)) ExcMatrixNotCompressed ;;
  Assert (Map.isSameAs (vector_map (vectors dst)) (CrsMatrix.getDomainMap (matrix A)))
         ExcColMapMissmatch ;;
  Assert (Map.isSameAs (vector_map (vectors src)) (CrsMatrix.getRangeMap (matrix A)))
         ExcDomainMapMissmatch ;;
  Ok (store_set vectors dst
        (mkVector (CrsMatrix.apply (matrix A)
                     (trilinos_vector (vectors src)) (trilinos_vector (vectors dst))
                     TRANS one one))).

(** The search loop of [element]: the first position from
    [local_col_index] on at which [col_indices] holds [trilinos_j], or the
    number of entries when there is none. *)
Fixpoint search_column (col_indices : list Z) (trilinos_j : Z)
  (local_col_index : Z) : Z :=
  match col_indices with
  | [] => local_col_index
  | c :: col_indices' =>
      if c =? trilinos_j then local_col_index
      else search_column col_indices' trilinos_j (local_col_index + 1)
  end.

(** Modelled from the spec: [size_type] is declared in
    [trilinos_tpetra_sparse_matrix.h], which is not part of the embedded
    source; the indices of the specification are "non-negative integers"
    (section 3).  It is an unsigned integer type, of 32 bits unless deal.II is
    configured for 64-bit indices, and its subtraction wraps around. *)
Definition size_type_minus (a b : Z) : Z := (a - b) mod 2 ^ 32.

(** [element(i, j, no_error)]. *)
Definition element (A : SparseMatrix) (i j : Z) (no_error : bool) : Result Number :=
  let trilinos_i := Map.getLocalElement (CrsMatrix.getRowMap (matrix A)) i in
  let trilinos_j := Map.getLocalElement (CrsMatrix.getColMap (matrix A)) j in
  let value := zero in
  if (trilinos_i =? invalid) || (trilinos_j =? invalid) then
    if no_error then Ok zero
    else
      Assert false
        (ExcAccessToNonLocalElement i j (fst (local_range A))
           (size_type_minus (snd (local_range A)) 1)) ;;
      Ok value
  else
    Assert (CrsMatrix.isFillComplete (matrix A)) ExcMatrixNotCompressed ;;
    let nnz_present := CrsMatrix.getNumEntriesInLocalRow (matrix A) trilinos_i in
    let '(col_indices, values) := CrsMatrix.getLocalRowCopy (matrix A) trilinos_i in
    let local_col_index := search_column col_indices trilinos_j 0 in
    if local_col_index =? nnz_present then
      if no_error then Ok zero
      else Assert false (ExcInvalidIndex i j) ;; Ok value
    else Ok (nth (Z.to_nat local_col_index) values zero).

(** [operator()(i, j)] and [el(i, j)]. *)
Definition call_operator (A : SparseMatrix) (i j : Z) : Result Number :=
  element A i j false.

Definition el (A : SparseMatrix) (i j : Z) : Result Number :=
  element A i j true.

(** ** Value copy of [reinit] from a [dealii::SparseMatrix] *)

Module dealii.

(** Modelled from the spec: [dealii::SparsityPattern], [dealii::SparseMatrix]
    and their iterators are declared in [sparsity_pattern.h] and
    [sparse_matrix.h], which are not part of the embedded source.  Section 6 asks for
    "per-row sorted column-value iteration and shape queries".  A pattern
    keeps the column indices of all rows in one array [colnums], row [r]
    occupying the positions from [rowstart[r]] to [rowstart[r + 1]]; an
    iterator is a position in that array, and reading the column or the value
    at a position past the last entry is an invalid-iterator error. *)
Record SparsityPattern : Type := mkSparsityPattern {
  n_rows : Z;
  n_cols : Z;
  rowstart : list Z;
  colnums : list Z
}.

Record SparseMatrix : Type := mkSparseMatrix {
  get_sparsity_pattern : SparsityPattern;
  val : list Number
}.

(** An iterator: its position and the entries from that position on. *)
Record iterator (T : Type) : Type := mkIterator {
  linear_index : Z;
  ahead : list T
}.
Arguments mkIterator {T} linear_index ahead.
Arguments linear_index {T} i.
Arguments ahead {T} i.

Definition iterator_at {T : Type} (entries : list T) (k : Z) : iterator T :=
  mkIterator k (skipn (Z.to_nat k) entries).

Definition incr {T : Type} (it : iterator T) : iterator T :=
  mkIterator (linear_index it + 1) (tl (ahead it)).

Definition iterator_eqb {T : Type} (a b : iterator T) : bool :=
  linear_index a =? linear_index b.

Definition deref {T : Type} (it : iterator T) : Result T :=
  match ahead it with
  | [] => Abort ExcInvalidIterator
  | x :: _ => Ok x
  end.

Definition pattern_begin (sp : SparsityPattern) (r : Z) : iterator Z :=
  iterator_at (colnums sp) (nth (Z.to_nat r) (rowstart sp) 0).

Definition pattern_end (sp : SparsityPattern) (r : Z) : iterator Z :=
  iterator_at (colnums sp) (nth (Z.to_nat (r + 1)) (rowstart sp) 0).

Definition matrix_entries (M : SparseMatrix) : list (Z * Number) :=
  combine (colnums (get_sparsity_pattern M)) (val M).

Definition matrix_begin (M : SparseMatrix) (r : Z) : iterator (Z * Number) :=
  iterator_at (matrix_entries M)
    (nth (Z.to_nat r) (rowstart (get_sparsity_pattern M)) 0).

Definition matrix_end (M : SparseMatrix) (r : Z) : iterator (Z * Number) :=
  iterator_at (matrix_entries M)
    (nth (Z.to_nat (r + 1)) (rowstart (get_sparsity_pattern M)) 0).

(** [it->column()] and [it->value()] of a matrix iterator. *)
Definition column (it : iterator (Z * Number)) : Result Z :=
  cv <- deref it ;; Ok (fst cv).

Definition value (it : iterator (Z * Number)) : Result Number :=
  cv <- deref it ;; Ok (snd cv).

(** [m()] of the reference matrix. *)
Definition m (M : SparseMatrix) : Z := n_rows (get_sparsity_pattern M).

End dealii.

(** Modelled from the spec: [IndexSet] is declared in
    [deal.II/base/index_set.h], which is not part of the embedded source; section 3 describes
    it as an "ordered set of globally unique non-negative integers owned by a
    process", with its total size and a membership test (section 6). *)
Record IndexSet : Type := mkIndexSet {
  size : Z;
  elements : list Z
}.

Definition is_element (s : IndexSet) (i : Z) : bool :=
  existsb (fun x => x =? i) (elements s).

(** [while (select_index->column() < it->column() &&
            select_index != sparsity_pattern.end(row)) ++select_index;]
    with [select_index] at position [select_index] and the entries
    [select_ahead] before it. *)
Fixpoint advance_select (select_ahead : list Z) (select_index : Z)
  (it : dealii.iterator (Z * Number)) (select_end : dealii.iterator Z)
  : Result (dealii.iterator Z) :=
  match select_ahead with
  | [] => Abort ExcInvalidIterator
  | select_column :: select_ahead' =>
      it_column <- dealii.column it ;;
      if (select_column <? it_column)
         && negb (select_index =? dealii.linear_index select_end)
      then advance_select select_ahead' (select_index + 1) it select_end
      else Ok (dealii.mkIterator select_index select_ahead)
  end.

(** [while (it->column() < select_index->column() &&
            it != dealii_sparse_matrix.end(row)) ++it;] *)
Fixpoint advance_it (it_ahead : list (Z * Number)) (it_index : Z)
  (select_index : dealii.iterator Z) (it_end : dealii.iterator (Z * Number))
  : Result (dealii.iterator (Z * Number)) :=
  match it_ahead with
  | [] => Abort ExcInvalidIterator
  | (it_column, _) :: it_ahead' =>
      select_column <- dealii.deref select_index ;;
      if (it_column <? select_column)
         && negb (it_index =? dealii.linear_index it_end)
      then advance_it it_ahead' (it_index + 1) select_index it_end
      else Ok (dealii.mkIterator it_index it_ahead)
  end.

(** [values[col] = ...; row_indices[col++] = ...;] on the two vectors of
    [maximum_row_length] elements: [std::vector::operator[]] checks nothing,
    and a write at a position that is not below the size is undefined. *)
Definition write_at (maximum_row_length : Z) (col : nat) : Result unit :=
  if Z.of_nat col <? maximum_row_length then Ok tt else Abort undefined_behaviour.

(** The merge loop of one row; [row_indices] and [values] hold the [col]
    entries stored so far in the vectors of [maximum_row_length] elements.
    Every iteration moves [it] forward, so [bound] iterations suffice when
    [bound] exceeds the number of entries ahead of [it]. *)
Fixpoint copy_loop (bound : nat) (drop_tolerance : Number)
  (maximum_row_length : Z)
  (select_end : dealii.iterator Z) (it_end : dealii.iterator (Z * Number))
  (select_index : dealii.iterator Z) (it : dealii.iterator (Z * Number))
  (row_indices : list Z) (values : list Number)
  : Result (list Z * list Number) :=
  match bound with
  | O => Abort iteration_bound_exceeded
  | S bound' =>
      if negb (dealii.iterator_eqb it it_end)
         && negb (dealii.iterator_eqb select_index select_end)
      then
        select_index <- advance_select (dealii.ahead select_index)
                          (dealii.linear_index select_index) it select_end ;;
        it <- advance_it (dealii.ahead it) (dealii.linear_index it)
                select_index it_end ;;
        if dealii.iterator_eqb it it_end then Ok (row_indices, values)
        else
          v <- dealii.value it ;;
          if fabs_gt v drop_tolerance then
            write_at maximum_row_length (length row_indices) ;;
            c <- dealii.column it ;;
            copy_loop bound' drop_tolerance maximum_row_length select_end it_end
              (dealii.incr select_index) (dealii.incr it)
              (row_indices ++ [c]) (values ++ [v])
          else
            copy_loop bound' drop_tolerance maximum_row_length select_end it_end
              (dealii.incr select_index) (dealii.incr it)
              row_indices values
      else Ok (row_indices, values)
  end.

(** The body of the loop over the rows, up to the call of [set]: the column
    indices and values collected for [row]. *)
Definition copy_row (sparsity_pattern : dealii.SparsityPattern)
  (dealii_sparse_matrix : dealii.SparseMatrix) (drop_tolerance : Number)
  (maximum_row_length : Z) (row : Z) : Result (list Z * list Number) :=
  let select_index := dealii.pattern_begin sparsity_pattern row in
  let it := dealii.matrix_begin dealii_sparse_matrix row in
  let bound := S (length (dealii.ahead it)) in
  if dealii.n_rows sparsity_pattern =? dealii.n_cols sparsity_pattern then
    c <- dealii.column it ;;
    AssertDimension c row ;;
    v <- dealii.value it ;;
    if fabs_gt v drop_tolerance then
      write_at maximum_row_length 0 ;;
      copy_loop bound drop_tolerance maximum_row_length
        (dealii.pattern_end sparsity_pattern row)
        (dealii.matrix_end dealii_sparse_matrix row)
        (dealii.incr select_index) (dealii.incr it) [c] [v]
    else
      copy_loop bound drop_tolerance maximum_row_length
        (dealii.pattern_end sparsity_pattern row)
        (dealii.matrix_end dealii_sparse_matrix row)
        (dealii.incr select_index) (dealii.incr it) [] []
  else
    copy_loop bound drop_tolerance maximum_row_length
      (dealii.pattern_end sparsity_pattern row)
      (dealii.matrix_end dealii_sparse_matrix row)
      select_index it [] [].

(** The loop over the rows [row, row + 1, ...], [remaining] of them; the
    two vectors are allocated once, before the loop, and used for every
    row. *)
Fixpoint copy_rows (remaining : nat) (row : Z) (A : SparseMatrix)
  (row_parallel_partitioning : IndexSet)
  (sparsity_pattern : dealii.SparsityPattern)
  (dealii_sparse_matrix : dealii.SparseMatrix) (drop_tolerance : Number)
  (maximum_row_length : Z)
  : Result SparseMatrix :=
  match remaining with
  | O => Ok A
  | S remaining' =>
      A <- (if is_element row_parallel_partitioning row then
              cv <- copy_row sparsity_pattern dealii_sparse_matrix
                      drop_tolerance maximum_row_length row ;;
              set A row (Z.of_nat (length (fst cv))) (fst cv) (snd cv) false
            else Ok A) ;;
      copy_rows remaining' (row + 1) A row_parallel_partitioning
        sparsity_pattern dealii_sparse_matrix drop_tolerance maximum_row_length
  end.

(** The second half of [reinit(row_parallel_partitioning,
    col_parallel_partitioning, dealii_sparse_matrix, communicator,
    drop_tolerance, copy_values, use_this_sparsity)], from "fill the values"
    on: [A] is the matrix after the structure has been set up and
    [sparsity_pattern] is the pattern the function selected. *)
Definition reinit_fill_values (A : SparseMatrix)
  (row_parallel_partitioning : IndexSet)
  (sparsity_pattern : dealii.SparsityPattern)
  (dealii_sparse_matrix : dealii.SparseMatrix) (drop_tolerance : Number)
  : Result SparseMatrix :=
  let n_rows := dealii.m dealii_sparse_matrix in
  maximum_row_length <- CrsMatrix.getLocalMaxNumRowEntries (matrix A) ;;
  A <- copy_rows (Z.to_nat n_rows) 0 A row_parallel_partitioning
         sparsity_pattern dealii_sparse_matrix drop_tolerance
         maximum_row_length ;;
  compress VectorOperation.insert A.

(** ** Further member functions *)

(** The exceptions of the assertions below that [Exc] does not list; a
    [Failure] is one of them or an exception of [Exc]. *)
Inductive Failure : Type :=
| Raised (e : Exc)
| ExcScalarAssignmentOnlyForZeroValue
| ExcDivideByZero
| ExcNotQuadratic.

Inductive Outcome (A : Type) : Type :=
| Done (a : A)
| Failed (f : Failure).
Arguments Done {A} a.
Arguments Failed {A} f.

Definition outcome {A : Type} (r : Result A) : Outcome A :=
  match r with
  | Ok a => Done a
  | Abort e => Failed (Raised e)
  end.

(** [reinit(const SparsityPattern<MemorySpace> &)]. *)
Definition reinit (A : SparseMatrix) (sparsity_pattern : SparsityPattern)
  : Result SparseMatrix :=
  let column_space_map := domain_partitioner sparsity_pattern in
  matrix <- CrsMatrix.from_graph (trilinos_sparsity_pattern sparsity_pattern) ;;
  compress VectorOperation.add (mkSparseMatrix column_space_map matrix false).

(** [operator=(const double d)]. *)
Definition operator_assign (A : SparseMatrix) (d : Number) : Outcome SparseMatrix :=
  if Number_eqb d zero then
    let A1 :=
      if compressed A then
        mkSparseMatrix (column_space_map A) (CrsMatrix.resumeFill (matrix A)) false
      else A in
    outcome
      (M <- CrsMatrix.setAllToScalar zero (matrix A1) ;;
       Ok (mkSparseMatrix (column_space_map A1) M (compressed A1)))
  else Failed ExcScalarAssignmentOnlyForZeroValue.

(** [operator*=(const Number a)]. *)
Definition operator_times_assign (A : SparseMatrix) (a : Number)
  : Result SparseMatrix :=
  let A1 :=
    if compressed A then
      mkSparseMatrix (column_space_map A) (CrsMatrix.resumeFill (matrix A)) false
    else A in
  M <- CrsMatrix.scale a (matrix A1) ;;
  M <- CrsMatrix.fillComplete0 M ;;
  Ok (mkSparseMatrix (column_space_map A1) M true).

(** [operator/=(const Number a)]. *)
Definition operator_divide_assign (A : SparseMatrix) (a : Number)
  : Outcome SparseMatrix :=
  if Number_neb a zero then
    let A1 :=
      if compressed A then
        mkSparseMatrix (column_space_map A) (CrsMatrix.resumeFill (matrix A)) false
      else A in
    let factor := SFdiv prec emax one a in
    outcome
      (M <- CrsMatrix.scale factor (matrix A1) ;;
       M <- CrsMatrix.fillComplete0 M ;;
       Ok (mkSparseMatrix (column_space_map A1) M true))
  else Failed ExcDivideByZero.

(** [frobenius_norm()]. *)
Definition frobenius_norm (A : SparseMatrix) : Result Number :=
  Assert (CrsMatrix.isFillComplete (matrix A)) ExcMatrixNotCompressed ;;
  Ok (CrsMatrix.getFrobeniusNorm (matrix A)).

(** Modelled from the spec: [FullMatrix] is declared in
    [deal.II/lac/full_matrix.h], which is not part of the embedded source; it
    is the "dense/local small-matrix helper used for block inserts" of
    section 1, a table of [m()] rows and [n()] columns whose values are stored
    row after row, so that [&values(i, 0)] points to the values of row [i]. *)
Record FullMatrix : Type := mkFullMatrix {
  FullMatrix_m : Z;
  FullMatrix_n : Z;
  FullMatrix_values : list Number
}.

Definition row_pointer (values : FullMatrix) (i : nat) : list Number :=
  skipn (i * Z.to_nat (FullMatrix_n values)) (FullMatrix_values values).

(** The loop of [set(indices, values, elide_zero_values)] over the rows
    [i], [i + 1], ..., [remaining] of them. *)
Fixpoint set_rows (remaining : nat) (i : nat) (A : SparseMatrix)
  (indices : list Z) (values : FullMatrix) (elide_zero_values : bool)
  : Result SparseMatrix :=
  match remaining with
  | O => Ok A
  | S remaining' =>
      A <- set A (nth i indices 0) (Z.of_nat (length indices)) indices
             (row_pointer values i) elide_zero_values ;;
      set_rows remaining' (S i) A indices values elide_zero_values
  end.

(** [set(const std::vector<size_type> &indices, const FullMatrix<Number>
    &values, const bool elide_zero_values)]. *)
Definition set_full_matrix (A : SparseMatrix) (indices : list Z)
  (values : FullMatrix) (elide_zero_values : bool) : Outcome SparseMatrix :=
  if negb (Z.of_nat (length indices) =? FullMatrix_m values) then
    Failed (Raised (ExcDimensionMismatch (Z.of_nat (length indices))
                      (FullMatrix_m values)))
  else if negb (FullMatrix_m values =? FullMatrix_n values) then
    Failed ExcNotQuadratic
  else outcome (set_rows (length indices) 0 A indices values elide_zero_values).

(** [diag_element(i)], in the build in which assertions are active: "use
    operator() in debug mode because it checks if this is a valid element". *)
Definition diag_element (A : SparseMatrix) (i : Z) : Outcome Number :=
  if m A =? n A then outcome (call_operator A i i) else Failed ExcNotQuadratic.

(** * Vocabulary of the properties and example objects *)

(** The empty map on one process and the matrix that both the default
    constructor and [clear] build on it. *)
Definition empty_map : Map.t := Map.mk 0 [] tpetra_comm_self.

Definition empty_matrix : CrsMatrix.t :=
  CrsMatrix.mk empty_map empty_map empty_map empty_map true false [] [].

(** A fill-complete 2 x 2 graph with the entries (0,0), (0,1) and (1,1). *)
Definition map2 : Map.t := Map.contiguous 2 tpetra_comm_self.

Definition example_graph : CrsGraph.t :=
  CrsGraph.mk map2 map2 map2 map2 [[0; 1]; [1]] [] true.

(** The columns stored in the local row [l] of a matrix. *)
Definition columns_of_row (M : CrsMatrix.t) (l : nat) : list Z :=
  map fst (nth l (CrsMatrix.rows M) []).

(** The entries a call supplies, and the ones that survive the elision of
    zeros. *)
Definition supplied_entries (n_cols : Z) (col_indices : list Z)
  (values : list Number) : list (Z * Number) :=
  combine (read_array 0 col_indices (Z.to_nat n_cols))
          (read_array zero values (Z.to_nat n_cols)).

Definition surviving_entries (elide_zero_values : bool) (n_cols : Z)
  (col_indices : list Z) (values : list Number) : list (Z * Number) :=
  if elide_zero_values then
    filter (fun cv => Number_neb (snd cv) zero)
           (supplied_entries n_cols col_indices values)
  else supplied_entries n_cols col_indices values.

(** The value that a sequence of replacements leaves in column [c]: the
    value of the last entry for that column, or the former value [v0]. *)
Definition last_value (c : Z) (entries : list (Z * Number)) (v0 : Number) : Number :=
  fold_left (fun acc cv => if fst cv =? c then snd cv else acc) entries v0.

Definition entries_from (j remaining : nat) (col_indices : list Z)
  (values : list Number) : list (Z * Number) :=
  map (fun k => (nth k col_indices 0, nth k values zero)) (seq j remaining).

(** A compressed 1 x 1 matrix with one stored entry: the matrix
    [SparseMatrix(1, 1, 1)] after [set(0, 1, {0}, {1.0}, false)] and
    [compress]. *)
Definition map1 : Map.t := Map.contiguous 1 tpetra_comm_self.

Definition finalized_1x1 : SparseMatrix :=
  mkSparseMatrix map1
    (CrsMatrix.mk map1 map1 map1 map1 false true [[(0, one)]] []) true.

Definition non_finite_at (values : list Number) (k : nat) : Prop :=
  is_finite (nth k values zero) = false.

(** The flag [compressed] and the fill state of the wrapped matrix: the
    wrapped matrix is fill-complete only if the flag is set.  Every
    constructor establishes this and every operation keeps it. *)
Definition fill_flag_sound (A : SparseMatrix) : Prop :=
  CrsMatrix.isFillComplete (matrix A) = true -> compressed A = true.

(** The three preconditions shared by the four products; [transpose] swaps
    the roles of the domain and the range map. *)
Definition not_aliased (dst src : address) : bool := negb (Nat.eqb src dst).

Definition maps_match (transpose : bool) (A : SparseMatrix)
  (vectors : Store Vector) (dst src : address) : bool :=
  if transpose then
    Map.isSameAs (vector_map (vectors dst)) (CrsMatrix.getDomainMap (matrix A))
    && Map.isSameAs (vector_map (vectors src)) (CrsMatrix.getRangeMap (matrix A))
  else
    Map.isSameAs (vector_map (vectors src)) (CrsMatrix.getDomainMap (matrix A))
    && Map.isSameAs (vector_map (vectors dst)) (CrsMatrix.getRangeMap (matrix A)).

Definition product_allowed (transpose : bool) (A : SparseMatrix)
  (vectors : Store Vector) (dst src : address) : bool :=
  not_aliased dst src
  && CrsMatrix.isFillComplete (matrix A)
  && maps_match transpose A vectors dst src.

(** [A src] resp. [A^T src], one value per locally owned row resp. column. *)
Definition product (mode : ETransp) (A : SparseMatrix) (x : Vector) : list Number :=
  CrsMatrix.times mode (matrix A) (trilinos_vector x).

(** The store after a product: only [dst] has changed, it keeps its map and
    holds [new_values]. *)
Definition store_with_values (vectors : Store Vector) (dst : address)
  (new_values : list Number) : Store Vector :=
  store_set vectors dst
    (mkVector (Tpetra.Vector.mk (vector_map (vectors dst)) new_values)).

Definition accumulate (y ax : list Number) : list Number :=
  map (fun yax => Number_add (fst yax) (snd yax)) (combine y ax).

Definition two : Number := Number_add one one.

(** A compressed 2 x 2 matrix with the rows [(1 1)] and [(0 1)] on the
    structure of [example_graph], and a store that holds the vector [(2 2)]
    at address 0 and the vector [(1 2)] at every other address. *)
Definition example_matrix : SparseMatrix :=
  mkSparseMatrix map2
    (CrsMatrix.mk map2 map2 map2 map2 true true
       [[(0, one); (1, one)]; [(1, one)]] []) true.

Definition example_vectors : Store Vector :=
  fun a => mkVector (Tpetra.Vector.mk map2 (if Nat.eqb a 0 then [two; two] else [one; two])).

(** An Editable 1 x 1 matrix that stores the entry (0,0): the matrix
    [SparseMatrix(1, 1, 1)] after [set(0, 1, {0}, {1.0}, false)]. *)
Definition editable_1x1 : SparseMatrix :=
  mkSparseMatrix map1
    (CrsMatrix.mk map1 map1 map1 map1 false false [[(0, one)]] []) false.

Inductive subsequence {T : Type} : list T -> list T -> Prop :=
| subsequence_nil (l : list T) : subsequence [] l
| subsequence_keep (x : T) (s l : list T) :
    subsequence s l -> subsequence (x :: s) (x :: l)
| subsequence_skip (x : T) (s l : list T) :
    subsequence s l -> subsequence s (x :: l).

(** What the merge loop adds to the arrays: as many column indices as
    values, only values above the tolerance, and only entries of the
    reference matrix, in the order in which [it] meets them. *)
Definition copied (drop_tolerance : Number) (ahead : list (Z * Number))
  (cols : list Z) (vals : list Number) : Prop :=
  length cols = length vals
  /\ Forall (fun v => fabs_gt v drop_tolerance = true) vals
  /\ subsequence (combine cols vals) ahead.

(** The entries of row [r] of the reference matrix. *)
Definition row_begin (M : dealii.SparseMatrix) (r : Z) : Z :=
  nth (Z.to_nat r) (dealii.rowstart (dealii.get_sparsity_pattern M)) 0.

Definition row_end (M : dealii.SparseMatrix) (r : Z) : Z :=
  nth (Z.to_nat (r + 1)) (dealii.rowstart (dealii.get_sparsity_pattern M)) 0.

Definition row_entries (M : dealii.SparseMatrix) (r : Z) : list (Z * Number) :=
  firstn (Z.to_nat (row_end M r - row_begin M r))
         (skipn (Z.to_nat (row_begin M r)) (dealii.matrix_entries M)).

Definition above (drop_tolerance : Number) (cv : Z * Number) : bool :=
  fabs_gt (snd cv) drop_tolerance.

(** A square 2 x 2 reference matrix with the rows [(2 1)] and [(0 2)], and a
    2 x 3 reference matrix with the rows [(2 2 2)] and [(0 2 0)] that is
    copied into the pattern with the entries (0,0), (0,2) and (1,1). *)
Definition square_pattern : dealii.SparsityPattern :=
  dealii.mkSparsityPattern 2 2 [0; 2; 3] [0; 1; 1].

Definition square_matrix : dealii.SparseMatrix :=
  dealii.mkSparseMatrix square_pattern [two; one; two].

Definition wide_matrix : dealii.SparseMatrix :=
  dealii.mkSparseMatrix (dealii.mkSparsityPattern 2 3 [0; 3; 4] [0; 1; 2; 1])
    [two; two; two; two].

Definition target_pattern : dealii.SparsityPattern :=
  dealii.mkSparsityPattern 2 3 [0; 2; 3] [0; 2; 1].

(** A 1 x 3 reference matrix with the row [(2 0 2)], stored at the columns 0
    and 2, and a 1 x 3 target pattern with the single entry (0,1): the two
    rows have no column in common.  [two_columns] is the fill-complete 1 x 3
    graph with the entries (0,1) and (0,2). *)
Definition gap_matrix : dealii.SparseMatrix :=
  dealii.mkSparseMatrix (dealii.mkSparsityPattern 1 3 [0; 2] [0; 2]) [two; two].

Definition lone_pattern : dealii.SparsityPattern :=
  dealii.mkSparsityPattern 1 3 [0; 1] [1].

Definition map3 : Map.t := Map.contiguous 3 tpetra_comm_self.

Definition two_columns : CrsGraph.t :=
  CrsGraph.mk map1 map3 map3 map1 [[1; 2]] [] true.

(** A 1 x 6 reference matrix stored at the columns 0, 2 and 5 and a 1 x 6
    target pattern with the columns 0, 1 and 5: the rows share the columns 0
    and 5, and each has one column between them that the other lacks. *)
Definition zigzag_matrix : dealii.SparseMatrix :=
  dealii.mkSparseMatrix (dealii.mkSparsityPattern 1 6 [0; 3] [0; 2; 5])
    [two; one; two].

Definition zigzag_pattern : dealii.SparsityPattern :=
  dealii.mkSparsityPattern 1 6 [0; 3] [0; 1; 5].

(** ** Vocabulary of the further properties *)

(** The sum, in the order of the list, of the values that a list of entries
    holds for column [c]; [None] when it holds none. *)
Definition total (c : Z) (entries : list (Z * Number)) : option Number :=
  fold_left
    (fun acc cv =>
       if fst cv =? c then
         Some (match acc with
               | Some a => Number_add a (snd cv)
               | None => snd cv
               end)
       else acc)
    entries None.

(** A row whose columns increase strictly. *)
Fixpoint ascending (row : list (Z * Number)) : Prop :=
  match row with
  | [] => True
  | cv :: row' => Forall (fun cv' => fst cv < fst cv') row' /\ ascending row'
  end.

(** What a lookup in a row returns for the entry it found, or did not
    find. *)
Definition lookup_result (i j : Z) (tolerant : bool) (entry : option Number)
  : Result Number :=
  match entry with
  | Some v => Ok v
  | None => if tolerant then Ok zero else Abort (ExcInvalidIndex i j)
  end.

(** The value that a sequence of additions leaves in column [c]: the former
    value [v0] with the values supplied for that column added one after the
    other. *)
Definition summed_value (c : Z) (entries : list (Z * Number)) (v0 : Number) : Number :=
  fold_left (fun acc cv => if fst cv =? c then Number_add acc (snd cv) else acc)
            entries v0.

(** The values of a row multiplied by [a]. *)
Definition scaled_row (a : Number) (row : list (Z * Number)) : list (Z * Number) :=
  map (fun cv => (fst cv, Number_mul a (snd cv))) row.

(** All values stored in a matrix are zero. *)
Definition all_zero (M : CrsMatrix.t) : Prop :=
  Forall (Forall (fun cv => snd cv = zero)) (CrsMatrix.rows M).

(** The matrix can be read: the flag is set and the fill is complete. *)
Definition finalized (A : SparseMatrix) : Prop :=
  compressed A = true /\ CrsMatrix.isFillComplete (matrix A) = true.

(** The matrix cannot be read: the flag is not set and the fill is active. *)
Definition editable (A : SparseMatrix) : Prop :=
  compressed A = false /\ CrsMatrix.isFillComplete (matrix A) = false.

(** The columns of row [r] of a target pattern, and a list of columns in
    strictly ascending order. *)
Definition target_begin (sp : dealii.SparsityPattern) (r : Z) : Z :=
  nth (Z.to_nat r) (dealii.rowstart sp) 0.

Definition target_end (sp : dealii.SparsityPattern) (r : Z) : Z :=
  nth (Z.to_nat (r + 1)) (dealii.rowstart sp) 0.

Definition target_row (sp : dealii.SparsityPattern) (r : Z) : list Z :=
  firstn (Z.to_nat (target_end sp r - target_begin sp r))
         (skipn (Z.to_nat (target_begin sp r)) (dealii.colnums sp)).

Fixpoint increasing (l : list Z) : Prop :=
  match l with
  | [] => True
  | c :: l' => Forall (fun c' => c < c') l' /\ increasing l'
  end.

(** The order in which deal.II keeps the entries of a row: by ascending
    column, and in a square pattern the diagonal entry first and the others
    by ascending column after it. *)
Definition rows_sorted (sp : dealii.SparsityPattern) (M : dealii.SparseMatrix)
  (row : Z) : Prop :=
  if dealii.n_rows sp =? dealii.n_cols sp then
    exists v srest irest,
      row_entries M row = (row, v) :: irest
      /\ target_row sp row = row :: srest
      /\ increasing srest
      /\ increasing (map fst irest)
      /\ ~ In row (map fst irest)
  else
    increasing (target_row sp row) /\ increasing (map fst (row_entries M row)).

(** The square reference matrix with a NaN at the position (0,1). *)
Definition nan_matrix : dealii.SparseMatrix :=
  dealii.mkSparseMatrix square_pattern [two; NaN; two].

(** What [set(indices, values, false)] hands to [set] for row [i] of the
    block, and what the calls for the rows [first], ..., [first + count - 1]
    of the block append to the matrix row of local index [l]. *)
Definition block_row (indices : list Z) (values : FullMatrix) (i : nat)
  : list (Z * Number) :=
  supplied_entries (Z.of_nat (length indices)) indices (row_pointer values i).

Definition block_entries_of_row (indices : list Z) (values : FullMatrix)
  (l : nat) (first count : nat) : list (Z * Number) :=
  concat (map (fun k => if nth k indices 0 =? Z.of_nat l
                        then block_row indices values k else [])
              (seq first count)).

(** * Properties *)

(** ** The fill-state machine *)

Lemma compress_compressed (op : VectorOperation.values) (A : SparseMatrix) :
  compressed A = true -> compress op A = Ok A.
Proof. intros H. unfold compress. rewrite H. reflexivity. Qed.

Lemma compress_Ok_compressed (op : VectorOperation.values) (A A' : SparseMatrix) :
  compress op A = Ok A' -> compressed A' = true.
Proof.
  unfold compress. destruct (compressed A) eqn:Hc; simpl.
  - intros H. inversion H. subst. exact Hc.
  - destruct (CrsMatrix.fillComplete _ _ _); simpl; intros H; inversion H.
    reflexivity.
Qed.

Lemma resume_fill_compressed (A : SparseMatrix) :
  compressed (resume_fill A) = false.
Proof. unfold resume_fill. destruct (compressed A) eqn:Hc; [reflexivity | exact Hc]. Qed.

(** C6.  Fill-state idempotence: for every matrix state and whatever the
    operation arguments, a second [compress] right after a first one changes
    nothing (the pair of calls has the outcome of the first call alone, also
    when that one throws), and a second [resume_fill] right after a first one
    changes nothing. *)
Theorem compress_resume_fill_idempotent :
  forall (A : SparseMatrix) (op1 op2 : VectorOperation.values),
    (A1 <- compress op1 A ;; compress op2 A1) = compress op1 A
    /\ resume_fill (resume_fill A) = resume_fill A.
Proof.
  intros A op1 op2. split.
  - destruct (compress op1 A) as [A1 | e] eqn:H1; simpl; [ | reflexivity].
    apply compress_compressed. eapply compress_Ok_compressed. exact H1.
  - unfold resume_fill at 1. rewrite resume_fill_compressed. reflexivity.
Qed.

Lemma fill_flag_sound_constructors :
  (forall A, SparseMatrix_default = Ok A -> fill_flag_sound A)
  /\ (forall sp A, SparseMatrix_from_sparsity_pattern sp = Ok A -> fill_flag_sound A)
  /\ (forall m n k, fill_flag_sound (SparseMatrix_m_n m n k))
  /\ (forall A A', clear A = Ok A' -> fill_flag_sound A').
Proof.
  unfold fill_flag_sound. repeat split.
  - intros A H. vm_compute in H. injection H as <-. discriminate.
  - intros sp A H. unfold SparseMatrix_from_sparsity_pattern in H.
    destruct (CrsMatrix.from_graph (trilinos_sparsity_pattern sp)); simpl in H;
      [ | discriminate].
    intros _. eapply compress_Ok_compressed. exact H.
  - intros m n k. simpl. discriminate.
  - intros A A' H. vm_compute in H. injection H as <-. reflexivity.
Qed.

Lemma fill_flag_sound_compress (op : VectorOperation.values) (A A' : SparseMatrix) :
  compress op A = Ok A' -> fill_flag_sound A'.
Proof. intros H _. eapply compress_Ok_compressed. exact H. Qed.

Lemma fill_flag_sound_resume_fill (A : SparseMatrix) :
  fill_flag_sound A -> fill_flag_sound (resume_fill A).
Proof.
  unfold fill_flag_sound, resume_fill. intros H.
  destruct (compressed A) eqn:Hc; simpl; [discriminate | ].
  rewrite Hc. exact H.
Qed.

(** ** Construction and [clear] *)

(** C7.  The default constructor and [clear] build the same empty 0 x 0
    matrix on the communicator of a single process, a matrix whose own fill
    has not been completed; the constructor leaves the flag [compressed]
    unset (the Editable state) whereas [clear] sets it (the Finalized
    state). *)
Theorem default_constructor_and_clear_disagree :
  SparseMatrix_default = Ok (mkSparseMatrix empty_map empty_matrix false)
  /\ (forall A, clear A = Ok (mkSparseMatrix empty_map empty_matrix true))
  /\ m (mkSparseMatrix empty_map empty_matrix false) = 0
  /\ n (mkSparseMatrix empty_map empty_matrix false) = 0
  /\ comm_size (Map.getComm (CrsMatrix.getRowMap empty_matrix)) = 1
  /\ CrsMatrix.isFillComplete empty_matrix = false.
Proof. repeat split. Qed.

(** C5, as stated, fails: the matrix constructed from the example pattern is
    compressed, and the wrapped matrix is fill-complete, when the constructor
    returns; the caller has not called [compress]. *)
Lemma constructor_from_sparsity_pattern_compresses_example :
  exists A,
    (g <- CrsGraph.insertGlobalIndices 0 [0; 1] (CrsGraph.make map2 map2 2) ;;
     g <- CrsGraph.insertGlobalIndices 1 [1] g ;;
     CrsGraph.fillComplete0 g) = Ok example_graph
    /\ SparseMatrix_from_sparsity_pattern (mkSparsityPattern example_graph) = Ok A
    /\ compressed A = true
    /\ CrsMatrix.isFillComplete (matrix A) = true.
Proof. eexists. repeat split. Qed.

Lemma insert_entry_columns (c : Z) (v : Number) (row : list (Z * Number)) (c' : Z) :
  In c' (map fst (insert_entry c v row)) <-> c' = c \/ In c' (map fst row).
Proof.
  induction row as [ | [c0 v0] row IH]; simpl.
  - intuition.
  - destruct (c <? c0) eqn:Hlt; simpl; [intuition | ].
    destruct (c =? c0) eqn:Heq; simpl.
    + apply Z.eqb_eq in Heq. subst. intuition.
    + rewrite IH. intuition.
Qed.

Lemma sort_and_merge_columns_acc (row acc : list (Z * Number)) (c : Z) :
  In c (map fst (fold_left (fun acc cv => insert_entry (fst cv) (snd cv) acc) row acc))
  <-> In c (map fst row) \/ In c (map fst acc).
Proof.
  revert acc. induction row as [ | [c0 v0] row IH]; intros acc; simpl.
  - intuition.
  - rewrite IH, insert_entry_columns. intuition.
Qed.

Lemma sort_and_merge_columns (row : list (Z * Number)) (c : Z) :
  In c (map fst (sort_and_merge row)) <-> In c (map fst row).
Proof.
  unfold sort_and_merge. rewrite sort_and_merge_columns_acc. simpl. intuition.
Qed.

(** C5, amended.  The constructor from a sparsity pattern with a
    fill-complete graph adopts the graph (row and column map, the columns of
    every row, as a static graph) and the domain map of the graph as column
    partitioning, and it compresses the matrix itself: the matrix it returns
    is Finalized, and a later [compress] of the caller does nothing. *)
Theorem constructor_from_sparsity_pattern_compresses :
  forall (sp : SparsityPattern) (op : VectorOperation.values),
    CrsGraph.isFillComplete (trilinos_sparsity_pattern sp) = true ->
    exists A,
      SparseMatrix_from_sparsity_pattern sp = Ok A
      /\ compressed A = true
      /\ CrsMatrix.isFillComplete (matrix A) = true
      /\ column_space_map A = domain_partitioner sp
      /\ CrsMatrix.isStaticGraph (matrix A) = true
      /\ CrsMatrix.getRowMap (matrix A) = CrsGraph.getRowMap (trilinos_sparsity_pattern sp)
      /\ CrsMatrix.getColMap (matrix A) = CrsGraph.getColMap (trilinos_sparsity_pattern sp)
      /\ (forall l c, In c (columns_of_row (matrix A) l)
                      <-> In c (nth l (CrsGraph.indices (trilinos_sparsity_pattern sp)) []))
      /\ compress op A = Ok A.
Proof.
  intros [g] op Hg. simpl in Hg.
  unfold SparseMatrix_from_sparsity_pattern, CrsMatrix.from_graph. simpl.
  rewrite Hg. simpl. eexists. split; [reflexivity | ].
  repeat split; simpl.
  - unfold columns_of_row. simpl.
    intros H.
    destruct (Nat.lt_ge_cases l (length (CrsGraph.indices g))) as [Hl | Hl].
    + rewrite (nth_indep _ [] (sort_and_merge (map (fun c => (c, zero)) []))) in H
        by (rewrite !length_map; exact Hl).
      rewrite (map_nth sort_and_merge), sort_and_merge_columns in H.
      rewrite (map_nth (map (fun c => (c, zero)))) in H.
      rewrite map_map in H. simpl in H. rewrite map_id in H. exact H.
    + rewrite nth_overflow in H by (rewrite !length_map; exact Hl). destruct H.
  - unfold columns_of_row. simpl.
    intros H.
    destruct (Nat.lt_ge_cases l (length (CrsGraph.indices g))) as [Hl | Hl].
    + rewrite (nth_indep _ [] (sort_and_merge (map (fun c => (c, zero)) [])))
        by (rewrite !length_map; exact Hl).
      rewrite (map_nth sort_and_merge), sort_and_merge_columns.
      rewrite (map_nth (map (fun c => (c, zero)))).
      rewrite map_map. simpl. rewrite map_id. exact H.
    + rewrite nth_overflow in H by exact Hl. destruct H.
Qed.

Lemma constructor_from_sparsity_pattern_compresses_witness :
  exists A,
    SparseMatrix_from_sparsity_pattern (mkSparsityPattern example_graph) = Ok A
    /\ compressed A = true.
Proof.
  destruct (constructor_from_sparsity_pattern_compresses
              (mkSparsityPattern example_graph) VectorOperation.add eq_refl)
    as [A [H1 [H2 _]]].
  exists A. split; assumption.
Defined.

(** ** [copy_from] *)

(** C10.  [copy_from] with the matrix itself as source leaves the store of
    matrices as it is; in particular the wrapped matrix (structure and
    values), the column partitioning and the fill-state flag of the object
    are the ones it had before the call. *)
Theorem copy_from_self_unchanged :
  forall (objects : Store SparseMatrix) (this : address),
    copy_from objects this this = objects
    /\ matrix (copy_from objects this this this) = matrix (objects this)
    /\ column_space_map (copy_from objects this this this) = column_space_map (objects this)
    /\ compressed (copy_from objects this this this) = compressed (objects this).
Proof.
  intros objects this. unfold copy_from. rewrite Nat.eqb_refl. repeat split.
Qed.

(** For contrast: with another matrix as source, the object is replaced by
    a copy of the source whose column partitioning is the column map of the
    copied matrix; no other object changes. *)
Lemma copy_from_other (objects : Store SparseMatrix) (this source : address) :
  this <> source ->
  copy_from objects this source this
  = mkSparseMatrix (CrsMatrix.getColMap (matrix (objects source)))
      (matrix (objects source)) (compressed (objects source))
  /\ forall other, other <> this ->
       copy_from objects this source other = objects other.
Proof.
  intros Hne. unfold copy_from, store_set.
  apply Nat.eqb_neq in Hne. rewrite Hne, Nat.eqb_refl. split; [reflexivity | ].
  intros other Ho. apply Nat.eqb_neq in Ho. rewrite Ho. reflexivity.
Qed.

(** ** [set] *)

Lemma combine_map_same {T U V : Type} (f : T -> U) (g : T -> V) (l : list T) :
  combine (map f l) (map g l) = map (fun k => (f k, g k)) l.
Proof. induction l as [ | x l IH]; simpl; [ | rewrite IH]; reflexivity. Qed.

Lemma combine_fst_snd {U V : Type} (l : list (U * V)) :
  combine (map fst l) (map snd l) = l.
Proof. induction l as [ | [u v] l IH]; simpl; [ | rewrite IH]; reflexivity. Qed.

Lemma supplied_entries_from (n_cols : Z) (col_indices : list Z) (values : list Number) :
  supplied_entries n_cols col_indices values
  = entries_from 0 (Z.to_nat n_cols) col_indices values.
Proof. unfold supplied_entries, read_array, entries_from. apply combine_map_same. Qed.

Lemma set_extract_Ok (remaining : nat) :
  forall (j : nat) (col_indices : list Z) (values : list Number)
         (ia : list Z) (va : list Number),
    Forall (fun cv => is_finite (snd cv) = true)
           (entries_from j remaining col_indices values) ->
    set_extract remaining j col_indices values ia va
    = Ok (ia ++ map fst (filter (fun cv => Number_neb (snd cv) zero)
                                (entries_from j remaining col_indices values)),
          va ++ map snd (filter (fun cv => Number_neb (snd cv) zero)
                                (entries_from j remaining col_indices values))).
Proof.
  induction remaining as [ | remaining IH]; intros j col_indices values ia va Hfin.
  - simpl. rewrite !app_nil_r. reflexivity.
  - unfold entries_from in *. simpl in *. inversion Hfin as [ | x l Hx Hl]; subst.
    simpl in Hx. unfold AssertIsFinite, Assert. rewrite Hx. simpl.
    destruct (Number_neb (nth j values zero) zero); simpl.
    + rewrite IH by exact Hl. rewrite <- !app_assoc. reflexivity.
    + apply IH. exact Hl.
Qed.

Lemma filter_length_le {T : Type} (f : T -> bool) (l : list T) :
  (length (filter f l) <= length l)%nat.
Proof.
  induction l as [ | x l IH]; simpl; [lia | ]. destruct (f x); simpl; lia.
Qed.

Lemma resume_if_filled_editable (A : SparseMatrix) :
  compressed (resume_if_filled A) = false
  /\ CrsMatrix.isFillComplete (matrix (resume_if_filled A)) = false.
Proof.
  unfold resume_if_filled.
  destruct (compressed A) eqn:Hc; simpl; [split; reflexivity | ].
  destruct (CrsMatrix.isFillComplete (matrix A)) eqn:Hf; simpl; split;
    reflexivity || assumption.
Qed.

Lemma resume_if_filled_frame (A : SparseMatrix) :
  column_space_map (resume_if_filled A) = column_space_map A
  /\ CrsMatrix.rows (matrix (resume_if_filled A)) = CrsMatrix.rows (matrix A)
  /\ CrsMatrix.nonlocals (matrix (resume_if_filled A)) = CrsMatrix.nonlocals (matrix A)
  /\ CrsMatrix.isStaticGraph (matrix (resume_if_filled A)) = CrsMatrix.isStaticGraph (matrix A)
  /\ CrsMatrix.getRowMap (matrix (resume_if_filled A)) = CrsMatrix.getRowMap (matrix A)
  /\ CrsMatrix.getColMap (matrix (resume_if_filled A)) = CrsMatrix.getColMap (matrix A).
Proof.
  unfold resume_if_filled.
  destruct (compressed A || CrsMatrix.isFillComplete (matrix A)); repeat split.
Qed.

Lemma nth_update_row (l : Z) (f : list (Z * Number) -> list (Z * Number))
  (rs : list (list (Z * Number))) (k : nat) :
  (k < length rs)%nat ->
  nth k (update_row l f rs) []
  = if Nat.eqb k (Z.to_nat l) then f (nth k rs []) else nth k rs [].
Proof.
  intros Hk. unfold update_row.
  pose proof (firstn_skipn (Z.to_nat l) rs) as Hsplit.
  pose proof (length_firstn (Z.to_nat l) rs) as Hlen.
  remember (firstn (Z.to_nat l) rs) as a eqn:Ha.
  remember (skipn (Z.to_nat l) rs) as b eqn:Hb.
  clear Ha Hb. subst rs. rewrite length_app in Hk, Hlen.
  destruct (Nat.eqb k (Z.to_nat l)) eqn:E.
  - apply Nat.eqb_eq in E. subst k.
    destruct b as [ | r b]; simpl in *; [lia | ].
    assert (Hl : length a = Z.to_nat l) by lia.
    rewrite !app_nth2 by lia. rewrite Hl, Nat.sub_diag. reflexivity.
  - apply Nat.eqb_neq in E.
    destruct (Nat.lt_ge_cases k (length a)) as [Hlt | Hge].
    + rewrite !app_nth1 by lia. reflexivity.
    + rewrite !app_nth2 by lia.
      destruct b as [ | r b]; [reflexivity | ].
      simpl in Hlen.
      destruct (k - length a)%nat eqn:Hd; [lia | reflexivity].
Qed.

Lemma update_row_columns (l : Z) (f : list (Z * Number) -> list (Z * Number))
  (rs : list (list (Z * Number))) :
  (forall r, map fst (f r) = map fst r) ->
  map (map fst) (update_row l f rs) = map (map fst) rs.
Proof.
  intros Hf. unfold update_row.
  rewrite <- (firstn_skipn (Z.to_nat l) rs) at 3.
  rewrite !map_app. f_equal.
  destruct (skipn (Z.to_nat l) rs); simpl; [reflexivity | ].
  rewrite Hf. reflexivity.
Qed.

Lemma replace_at_columns (c : Z) (v : Number) (row : list (Z * Number)) :
  map fst (CrsMatrix.replace_at c v row) = map fst row.
Proof.
  induction row as [ | [c' v'] row IH]; simpl; [reflexivity | ].
  destruct (c' =? c); simpl; [ | rewrite IH]; reflexivity.
Qed.

Lemma fold_replace_at_columns (cvs row : list (Z * Number)) :
  map fst (fold_left (fun acc cv => CrsMatrix.replace_at (fst cv) (snd cv) acc) cvs row)
  = map fst row.
Proof.
  revert row. induction cvs as [ | cv cvs IH]; intros row; simpl; [reflexivity | ].
  rewrite IH. apply replace_at_columns.
Qed.

Lemma replace_at_entry_of (c : Z) (v : Number) (row : list (Z * Number)) (c' : Z) :
  CrsMatrix.entry_of c' (CrsMatrix.replace_at c v row)
  = if c =? c' then option_map (fun _ => v) (CrsMatrix.entry_of c row)
    else CrsMatrix.entry_of c' row.
Proof.
  induction row as [ | [c0 v0] row IH]; simpl.
  - destruct (c =? c'); reflexivity.
  - destruct (c0 =? c) eqn:E0; simpl.
    + apply Z.eqb_eq in E0. subst c0. destruct (c =? c'); reflexivity.
    + rewrite IH. destruct (c0 =? c') eqn:E1; [ | reflexivity].
      apply Z.eqb_eq in E1. subst c0. rewrite Z.eqb_sym, E0. reflexivity.
Qed.

Lemma fold_replace_at_entry_of (entries : list (Z * Number)) :
  forall (row : list (Z * Number)) (c : Z),
    CrsMatrix.entry_of c
      (fold_left (fun acc cv => CrsMatrix.replace_at (fst cv) (snd cv) acc) entries row)
    = option_map (last_value c entries) (CrsMatrix.entry_of c row).
Proof.
  induction entries as [ | [cc vv] entries IH]; intros row c; simpl.
  - destruct (CrsMatrix.entry_of c row); reflexivity.
  - rewrite IH, replace_at_entry_of. unfold last_value. simpl.
    destruct (cc =? c) eqn:E.
    + apply Z.eqb_eq in E. subst cc.
      destruct (CrsMatrix.entry_of c row); reflexivity.
    + reflexivity.
Qed.

(** [replaceGlobalValues] never changes the structure of a matrix. *)
Lemma replaceGlobalValues_structure (globalRow : Z) (inds : list Z)
  (vals : list Number) (M : CrsMatrix.t) :
  map (map fst) (CrsMatrix.rows (CrsMatrix.replaceGlobalValues globalRow inds vals M))
  = map (map fst) (CrsMatrix.rows M)
  /\ CrsMatrix.nonlocals (CrsMatrix.replaceGlobalValues globalRow inds vals M)
     = CrsMatrix.nonlocals M.
Proof.
  unfold CrsMatrix.replaceGlobalValues.
  destruct (CrsMatrix.isFillComplete M
            || (Map.getLocalElement (CrsMatrix.getRowMap M) globalRow =? invalid));
    simpl; split; try reflexivity.
  apply update_row_columns. intros r. apply fold_replace_at_columns.
Qed.

Lemma AssertIndexRange_Ok (index range : Z) :
  0 <= index < range -> AssertIndexRange index range = Ok tt.
Proof.
  intros H. unfold AssertIndexRange, Assert.
  replace (0 <=? index) with true by (symmetry; apply Z.leb_le; lia).
  replace (index <? range) with true by (symmetry; apply Z.ltb_lt; lia).
  reflexivity.
Qed.

(** What [set] hands to the wrapped matrix: the surviving entries. *)
Lemma set_arguments (elide_zero_values : bool) (n_cols : Z)
  (col_indices : list Z) (values : list Number) :
  0 <= n_cols ->
  (elide_zero_values = true ->
   Forall (fun cv => is_finite (snd cv) = true)
          (supplied_entries n_cols col_indices values)) ->
  (if negb elide_zero_values then
     Ok (read_array 0 col_indices (Z.to_nat n_cols),
         read_array zero values (Z.to_nat n_cols))
   else
     cv <- set_extract (Z.to_nat n_cols) 0 col_indices values [] [] ;;
     AssertIndexRange (Z.of_nat (length (fst cv))) (n_cols + 1) ;;
     Ok cv)
  = Ok (map fst (surviving_entries elide_zero_values n_cols col_indices values),
        map snd (surviving_entries elide_zero_values n_cols col_indices values)).
Proof.
  intros Hn Hfin. unfold surviving_entries. destruct elide_zero_values; simpl.
  - specialize (Hfin eq_refl). rewrite supplied_entries_from in *.
    rewrite set_extract_Ok by exact Hfin. simpl.
    rewrite AssertIndexRange_Ok; [reflexivity | ].
    rewrite length_map.
    pose proof (filter_length_le (fun cv => Number_neb (snd cv) zero)
                  (entries_from 0 (Z.to_nat n_cols) col_indices values)) as Hle.
    unfold entries_from in Hle at 2. rewrite length_map, length_seq in Hle. lia.
  - unfold supplied_entries.
    set (cs := read_array 0 col_indices (Z.to_nat n_cols)).
    set (vs := read_array zero values (Z.to_nat n_cols)).
    assert (Hlen : length cs = length vs)
      by (unfold cs, vs, read_array; rewrite !length_map; reflexivity).
    clearbody cs vs. clear - Hlen. f_equal. f_equal.
    + revert vs Hlen. induction cs as [ | c cs IH]; intros [ | v vs] Hlen;
        simpl in *; try discriminate; try reflexivity.
      rewrite <- IH by lia. reflexivity.
    + revert vs Hlen. induction cs as [ | c cs IH]; intros [ | v vs] Hlen;
        simpl in *; try discriminate; try reflexivity.
      rewrite <- IH by lia. reflexivity.
Qed.

Lemma forallb_columns (p : Z -> bool) (entries : list (Z * Number)) :
  Forall (fun cv => p (fst cv) = true) entries ->
  forallb p (map fst entries) = true.
Proof.
  induction 1 as [ | cv entries Hcv _ IH]; simpl; [reflexivity | ].
  rewrite Hcv, IH. reflexivity.
Qed.

(** C1.  A call of [set] with a row in range (and, when zeros are elided,
    finite values) first puts the matrix into the Editable state: the flag
    [compressed] is unset and the fill of the wrapped matrix is active before
    the write, also when the matrix was Finalized.  Then, when the graph is
    not static, the surviving entries are inserted ([insertGlobalValues]
    succeeds, their columns being columns of the matrix, and appends them to
    the row); when the graph is static, they are replaced
    ([replaceGlobalValues]) and the structure of the matrix, the columns
    stored in each row, is the one before the call, while the value stored
    in a column of the row is the last one supplied for it. *)
Theorem set_inserts_or_replaces :
  forall (A : SparseMatrix) (row n_cols : Z) (col_indices : list Z)
         (values : list Number) (elide_zero_values : bool),
    let kept := surviving_entries elide_zero_values n_cols col_indices values in
    let A1 := resume_if_filled A in
    0 <= row < m A ->
    0 <= n_cols ->
    (elide_zero_values = true ->
     Forall (fun cv => is_finite (snd cv) = true)
            (supplied_entries n_cols col_indices values)) ->
    (CrsMatrix.isStaticGraph (matrix A) = false ->
     Forall (fun cv => Map.isNodeGlobalElement (CrsMatrix.getColMap (matrix A))
                         (fst cv) = true) kept) ->
    exists A',
      set A row n_cols col_indices values elide_zero_values = Ok A'
      /\ compressed A1 = false
      /\ CrsMatrix.isFillComplete (matrix A1) = false
      /\ compressed A' = false
      /\ column_space_map A' = column_space_map A
      /\ (CrsMatrix.isStaticGraph (matrix A) = false ->
          CrsMatrix.insertGlobalValues row (map fst kept) (map snd kept) (matrix A1)
          = Ok (matrix A')
          /\ forall l : nat,
               Map.getLocalElement (CrsMatrix.getRowMap (matrix A)) row = Z.of_nat l ->
               (l < length (CrsMatrix.rows (matrix A)))%nat ->
               nth l (CrsMatrix.rows (matrix A')) []
               = nth l (CrsMatrix.rows (matrix A)) [] ++ kept)
      /\ (CrsMatrix.isStaticGraph (matrix A) = true ->
          matrix A'
          = CrsMatrix.replaceGlobalValues row (map fst kept) (map snd kept) (matrix A1)
          /\ map (map fst) (CrsMatrix.rows (matrix A'))
             = map (map fst) (CrsMatrix.rows (matrix A))
          /\ CrsMatrix.nonlocals (matrix A') = CrsMatrix.nonlocals (matrix A)
          /\ forall (l : nat) (c : Z),
               Map.getLocalElement (CrsMatrix.getRowMap (matrix A)) row = Z.of_nat l ->
               (l < length (CrsMatrix.rows (matrix A)))%nat ->
               CrsMatrix.entry_of c (nth l (CrsMatrix.rows (matrix A')) [])
               = option_map (last_value c kept)
                   (CrsMatrix.entry_of c (nth l (CrsMatrix.rows (matrix A)) []))).
Proof.
  intros A row n_cols col_indices values elide kept A1 Hrow Hn Hfin Hcols.
  destruct (resume_if_filled_editable A) as [Hc1 Hf1].
  destruct (resume_if_filled_frame A) as [Hcol [Hrows [Hnl [Hst [Hrm Hcm]]]]].
  fold A1 in Hc1, Hf1, Hcol, Hrows, Hnl, Hst, Hrm, Hcm.
  unfold set. rewrite (AssertIndexRange_Ok _ _ Hrow). cbn [bind].
  rewrite (set_arguments elide n_cols col_indices values Hn Hfin).
  fold kept. cbn [bind fst snd]. fold A1. rewrite Hst.
  destruct (CrsMatrix.isStaticGraph (matrix A)) eqn:Hstatic; cbn [negb].
  - eexists. split; [reflexivity | ]. cbn [compressed column_space_map matrix].
    repeat split; try assumption; try discriminate.
    + destruct (replaceGlobalValues_structure row (map fst kept) (map snd kept)
                  (matrix A1)) as [Hstr _].
      rewrite Hstr, Hrows. reflexivity.
    + destruct (replaceGlobalValues_structure row (map fst kept) (map snd kept)
                  (matrix A1)) as [_ Hstr].
      rewrite Hstr. exact Hnl.
    + intros l c Hl Hlt. unfold CrsMatrix.replaceGlobalValues.
      rewrite Hf1, Hrm, Hl. cbn [orb].
      replace (Z.of_nat l =? invalid) with false
        by (symmetry; apply Z.eqb_neq; unfold invalid; lia).
      cbn [CrsMatrix.with_rows CrsMatrix.rows].
      rewrite Hrows, nth_update_row by exact Hlt.
      rewrite Nat2Z.id, Nat.eqb_refl, combine_fst_snd.
      apply fold_replace_at_entry_of.
  - unfold CrsMatrix.insertGlobalValues. rewrite Hst, Hf1. cbn [orb].
    rewrite combine_fst_snd, Hrm, Hcm.
    rewrite (forallb_columns _ kept (Hcols eq_refl)).
    destruct (Map.getLocalElement (CrsMatrix.getRowMap (matrix A)) row =? invalid)
      eqn:Hloc; cbn [bind].
    + eexists. split; [reflexivity | ]. cbn [compressed column_space_map matrix].
      repeat split; try assumption; try discriminate.
      intros l Hl. apply Z.eqb_eq in Hloc. unfold invalid in Hloc. lia.
    + eexists. split; [reflexivity | ]. cbn [compressed column_space_map matrix].
      repeat split; try assumption; try discriminate.
      intros l Hl Hlt. cbn [CrsMatrix.with_rows CrsMatrix.rows].
      rewrite Hrows, nth_update_row by exact Hlt.
      rewrite Hl, Nat2Z.id, Nat.eqb_refl. reflexivity.
Qed.

(** After [set] and after [add] the matrix is Editable, by the flag and by
    the fill state of the wrapped matrix. *)
Lemma bind_Ok {T U : Type} (r : Result T) (k : T -> Result U) (u : U) :
  bind r k = Ok u -> exists a, r = Ok a /\ k a = Ok u.
Proof.
  destruct r as [a | e]; simpl; intros H; [ | discriminate].
  exists a. split; [reflexivity | exact H].
Qed.

Lemma set_leaves_editable (A : SparseMatrix) (row n_cols : Z)
  (col_indices : list Z) (values : list Number) (elide_zero_values : bool)
  (A' : SparseMatrix) :
  set A row n_cols col_indices values elide_zero_values = Ok A' ->
  compressed A' = false /\ CrsMatrix.isFillComplete (matrix A') = false.
Proof.
  unfold set. intros H.
  apply bind_Ok in H. destruct H as [_ [_ H]].
  apply bind_Ok in H. destruct H as [cv [_ H]].
  destruct (resume_if_filled_editable A) as [Hc Hf].
  destruct (negb (CrsMatrix.isStaticGraph (matrix (resume_if_filled A)))).
  - apply bind_Ok in H. destruct H as [M [HM H]]. injection H as <-. simpl.
    split; [exact Hc | ].
    unfold CrsMatrix.insertGlobalValues in HM.
    destruct (CrsMatrix.isStaticGraph (matrix (resume_if_filled A))
              || CrsMatrix.isFillComplete (matrix (resume_if_filled A)));
      [discriminate | ].
    destruct (Map.getLocalElement _ row =? invalid);
      [ | destruct (forallb _ _); [ | discriminate]];
      injection HM as <-; simpl; exact Hf.
  - injection H as <-. simpl. split; [exact Hc | ].
    unfold CrsMatrix.replaceGlobalValues.
    destruct (CrsMatrix.isFillComplete (matrix (resume_if_filled A))
              || (Map.getLocalElement _ row =? invalid)); simpl; exact Hf.
Qed.

Lemma add_leaves_editable (A : SparseMatrix) (row n_cols : Z)
  (col_indices : list Z) (values : list Number)
  (elide_zero_values col_indices_are_sorted : bool) (A' : SparseMatrix) :
  add A row n_cols col_indices values elide_zero_values col_indices_are_sorted
  = Ok A' ->
  compressed A' = false /\ CrsMatrix.isFillComplete (matrix A') = false.
Proof.
  unfold add. intros H.
  apply bind_Ok in H. destruct H as [_ [_ H]].
  destruct (resume_if_filled_editable A) as [Hc Hf].
  destruct ((if elide_zero_values then count_zeros n_cols values else 0) =? n_cols).
  - injection H as <-. split; assumption.
  - apply bind_Ok in H. destruct H as [cv [_ H]]. injection H as <-. simpl.
    split; [exact Hc | ].
    unfold CrsMatrix.sumIntoGlobalValues. rewrite Hf.
    destruct (Map.getLocalElement _ row =? invalid); simpl; exact Hf.
Qed.

Lemma set_inserts_or_replaces_witness :
  exists A',
    set (SparseMatrix_m_n 2 2 2) 0 2 [0; 1] [one; zero] true = Ok A'
    /\ compressed A' = false
    /\ CrsMatrix.rows (matrix A') = [[(0, one)]; []].
Proof.
  destruct (set_inserts_or_replaces (SparseMatrix_m_n 2 2 2) 0 2 [0; 1]
              [one; zero] true)
    as [A' [Hset [_ [_ [Hc [_ [Hins _]]]]]]].
  - change (m (SparseMatrix_m_n 2 2 2)) with 2. lia.
  - lia.
  - intros _. repeat constructor.
  - intros _. repeat constructor.
  - exists A'. split; [exact Hset | ]. split; [exact Hc | ].
    destruct (Hins eq_refl) as [_ Hrow].
    specialize (Hrow 0%nat eq_refl (Nat.lt_0_succ 1)).
    vm_compute in Hset. injection Hset as <-. reflexivity.
Defined.

(** ** [add] *)

Lemma filter_all {T : Type} (f : T -> bool) (l : list T) :
  Forall (fun x => f x = true) l -> filter f l = l.
Proof.
  induction 1 as [ | x l Hx Hl IH]; simpl; [reflexivity | ].
  rewrite Hx, IH. reflexivity.
Qed.

Lemma read_array_length {T : Type} (d : T) (p : list T) (k : nat) :
  length (read_array d p k) = k.
Proof. unfold read_array. rewrite length_map, length_seq. reflexivity. Qed.

(** C8, as stated, fails: on a Finalized matrix a call of [add] whose only
    value is zero, with zeros elided, returns a matrix in the Editable
    state. *)
Lemma add_all_zero_changes_fill_state :
  exists A',
    (A <- set (SparseMatrix_m_n 1 1 1) 0 1 [0] [one] false ;;
     compress VectorOperation.insert A) = Ok finalized_1x1
    /\ add finalized_1x1 0 1 [0] [zero] true false = Ok A'
    /\ compressed finalized_1x1 = true
    /\ compressed A' = false
    /\ CrsMatrix.isFillComplete (matrix finalized_1x1) = true
    /\ CrsMatrix.isFillComplete (matrix A') = false.
Proof. eexists. repeat split. Qed.

(** C8, amended.  A call of [add] with a row in range, elision of zeros and
    only zero values returns right after the step that every call of [add]
    starts with, the one that puts a Finalized matrix into the Editable
    state: nothing is handed to the wrapped matrix, so the stored values,
    the structure and the partitionings are those before the call, and a
    matrix that was Editable is returned as it was. *)
Theorem add_all_zero_only_resumes_fill :
  forall (A : SparseMatrix) (row n_cols : Z) (col_indices : list Z)
         (values : list Number) (col_indices_are_sorted : bool),
    0 <= row < m A ->
    0 <= n_cols ->
    Forall (fun v => Number_eqb v zero = true)
           (read_array zero values (Z.to_nat n_cols)) ->
    exists A',
      add A row n_cols col_indices values true col_indices_are_sorted = Ok A'
      /\ A' = resume_if_filled A
      /\ CrsMatrix.rows (matrix A') = CrsMatrix.rows (matrix A)
      /\ CrsMatrix.nonlocals (matrix A') = CrsMatrix.nonlocals (matrix A)
      /\ CrsMatrix.getRowMap (matrix A') = CrsMatrix.getRowMap (matrix A)
      /\ CrsMatrix.getColMap (matrix A') = CrsMatrix.getColMap (matrix A)
      /\ column_space_map A' = column_space_map A
      /\ compressed A' = false
      /\ CrsMatrix.isFillComplete (matrix A') = false
      /\ (compressed A = false ->
          CrsMatrix.isFillComplete (matrix A) = false -> A' = A).
Proof.
  intros A row n_cols col_indices values sorted Hrow Hn Hzero.
  exists (resume_if_filled A).
  destruct (resume_if_filled_editable A) as [Hc1 Hf1].
  destruct (resume_if_filled_frame A) as [Hcol [Hrows [Hnl [_ [Hrm Hcm]]]]].
  repeat split; try assumption.
  - unfold add. rewrite (AssertIndexRange_Ok _ _ Hrow). cbn [bind].
    unfold count_zeros. rewrite (filter_all _ _ Hzero), read_array_length.
    rewrite Z2Nat.id by exact Hn. rewrite Z.eqb_refl. reflexivity.
  - intros Hc Hf. unfold resume_if_filled. rewrite Hc, Hf. reflexivity.
Qed.

Lemma add_all_zero_only_resumes_fill_witness :
  exists A',
    add finalized_1x1 0 2 [0; 0] [zero; S754_zero true] true false = Ok A'
    /\ CrsMatrix.rows (matrix A') = [[(0, one)]]
    /\ compressed A' = false.
Proof.
  destruct (add_all_zero_only_resumes_fill finalized_1x1 0 2 [0; 0]
              [zero; S754_zero true] false)
    as [A' [Hadd [_ [Hrows [_ [_ [_ [_ [Hc _]]]]]]]]].
  - change (m finalized_1x1) with 1. lia.
  - lia.
  - repeat constructor.
  - exists A'. repeat split; assumption.
Defined.

(** ** Non-finite values *)

Lemma aborts_bind {T U : Type} (r : Result T) (k : T -> Result U) :
  aborts r -> aborts (bind r k).
Proof. intros [e He]. subst r. exists e. reflexivity. Qed.

Lemma bind_aborts_each {T U : Type} (r : Result T) (k : T -> Result U) :
  (forall a, r = Ok a -> aborts (k a)) -> aborts (bind r k).
Proof.
  intros H. destruct r as [a | e]; simpl; [apply H; reflexivity | ].
  exists e. reflexivity.
Qed.

Lemma non_finite_is_not_zero (v : Number) :
  is_finite v = false -> Number_neb v zero = true.
Proof. destruct v as [s | [ | ] | | s mx e]; try discriminate; reflexivity. Qed.

Lemma AssertIsFinite_aborts (v : Number) :
  is_finite v = false -> AssertIsFinite v = Abort (ExcNumberNotFinite v).
Proof. intros H. unfold AssertIsFinite, Assert. rewrite H. reflexivity. Qed.

Lemma set_extract_aborts (remaining : nat) :
  forall (j : nat) (col_indices : list Z) (values : list Number)
         (ia : list Z) (va : list Number),
    Exists (non_finite_at values) (seq j remaining) ->
    aborts (set_extract remaining j col_indices values ia va).
Proof.
  induction remaining as [ | remaining IH]; intros j col_indices values ia va Hex;
    simpl in Hex.
  - inversion Hex.
  - simpl. destruct (is_finite (nth j values zero)) eqn:Hj.
    + apply Exists_cons in Hex. destruct Hex as [Hex | Hex];
        [unfold non_finite_at in Hex; congruence | ].
      unfold AssertIsFinite, Assert. rewrite Hj. simpl.
      destruct (Number_neb (nth j values zero) zero); apply IH; exact Hex.
    + rewrite (AssertIsFinite_aborts _ Hj). eexists. reflexivity.
Qed.

Lemma add_copy_nonzero_aborts (remaining : nat) :
  forall (i : nat) (n n_zero_entries : Z) (col_indices : list Z)
         (values : list Number) (ia : list Z) (va : list Number),
    Exists (non_finite_at values) (seq i remaining) ->
    aborts (add_copy_nonzero remaining i n n_zero_entries col_indices values ia va).
Proof.
  induction remaining as [ | remaining IH];
    intros i n n_zero_entries col_indices values ia va Hex; simpl in Hex.
  - inversion Hex.
  - simpl. destruct (is_finite (nth i values zero)) eqn:Hi.
    + apply Exists_cons in Hex. destruct Hex as [Hex | Hex];
        [unfold non_finite_at in Hex; congruence | ].
      destruct (Number_neb (nth i values zero) zero); [ | apply IH; exact Hex].
      repeat (apply bind_aborts_each; intros ? _). apply IH. exact Hex.
    + rewrite (non_finite_is_not_zero _ Hi), (AssertIsFinite_aborts _ Hi).
      eexists. reflexivity.
Qed.

Lemma add_copy_all_aborts (remaining : nat) :
  forall (i : nat) (n : Z) (col_indices : list Z) (values : list Number)
         (ia : list Z) (va : list Number),
    Exists (non_finite_at values) (seq i remaining) ->
    aborts (add_copy_all remaining i n col_indices values ia va).
Proof.
  induction remaining as [ | remaining IH];
    intros i n col_indices values ia va Hex; simpl in Hex.
  - inversion Hex.
  - simpl. destruct (is_finite (nth i values zero)) eqn:Hi.
    + apply Exists_cons in Hex. destruct Hex as [Hex | Hex];
        [unfold non_finite_at in Hex; congruence | ].
      repeat (apply bind_aborts_each; intros ? _). apply IH. exact Hex.
    + rewrite (AssertIsFinite_aborts _ Hi). eexists. reflexivity.
Qed.

Lemma filter_length_lt {T : Type} (f : T -> bool) (l : list T) :
  Exists (fun x => f x = false) l -> (length (filter f l) < length l)%nat.
Proof.
  induction 1 as [x l Hx | x l Hl IH]; simpl.
  - rewrite Hx. pose proof (filter_length_le f l). lia.
  - destruct (f x); simpl; lia.
Qed.

Lemma non_finite_supplied (n_cols : Z) (values : list Number) :
  Exists (fun v => is_finite v = false) (read_array zero values (Z.to_nat n_cols)) ->
  Exists (non_finite_at values) (seq 0 (Z.to_nat n_cols)) /\ 0 < n_cols.
Proof.
  unfold read_array. rewrite Exists_map. intros H. split; [exact H | ].
  destruct (Z.to_nat n_cols) eqn:E; [inversion H | lia].
Qed.

(** The part of C2 that holds: every call of [add], and every call of [set]
    that elides zeros, is fatal when one of the supplied values is NaN or
    Inf. *)
Lemma add_rejects_non_finite :
  forall (A : SparseMatrix) (row n_cols : Z) (col_indices : list Z)
         (values : list Number) (elide_zero_values col_indices_are_sorted : bool),
    Exists (fun v => is_finite v = false) (read_array zero values (Z.to_nat n_cols)) ->
    aborts (add A row n_cols col_indices values elide_zero_values
              col_indices_are_sorted).
Proof.
  intros A row n_cols col_indices values elide sorted Hex.
  pose proof (non_finite_supplied _ _ Hex) as [Hseq Hn].
  unfold add. apply bind_aborts_each. intros _ _.
  assert (Hcount : ((if elide then count_zeros n_cols values else 0) =? n_cols) = false).
  { apply Z.eqb_neq. destruct elide; [ | lia].
    unfold count_zeros.
    assert (Hlt : (length (filter (fun v => Number_eqb v zero)
                             (read_array zero values (Z.to_nat n_cols)))
                   < Z.to_nat n_cols)%nat).
    { rewrite <- (read_array_length zero values (Z.to_nat n_cols)) at 2.
      apply filter_length_lt. eapply Exists_impl; [ | exact Hex].
      intros v Hv. simpl in Hv. apply non_finite_is_not_zero in Hv.
      unfold Number_neb in Hv. apply negb_true_iff in Hv. exact Hv. }
    lia. }
  rewrite Hcount. apply aborts_bind.
  destruct elide; [apply add_copy_nonzero_aborts | apply add_copy_all_aborts];
    exact Hseq.
Qed.

Lemma set_with_elision_rejects_non_finite :
  forall (A : SparseMatrix) (row n_cols : Z) (col_indices : list Z)
         (values : list Number),
    Exists (fun v => is_finite v = false) (read_array zero values (Z.to_nat n_cols)) ->
    aborts (set A row n_cols col_indices values true).
Proof.
  intros A row n_cols col_indices values Hex.
  pose proof (non_finite_supplied _ _ Hex) as [Hseq _].
  unfold set. apply bind_aborts_each. intros _ _. cbn [negb].
  apply aborts_bind. apply aborts_bind. apply set_extract_aborts. exact Hseq.
Qed.

(** C2.  [set] without elision of zeros hands NaN and Inf to the wrapped
    matrix unchecked: the call below succeeds and both values are stored. *)
Theorem set_accepts_non_finite_without_elision :
  exists A',
    set (SparseMatrix_m_n 1 2 2) 0 2 [0; 1] [NaN; Inf] false = Ok A'
    /\ CrsMatrix.rows (matrix A') = [[(0, NaN); (1, Inf)]]
    /\ aborts (set (SparseMatrix_m_n 1 2 2) 0 2 [0; 1] [NaN; Inf] true)
    /\ aborts (add (SparseMatrix_m_n 1 2 2) 0 2 [0; 1] [NaN; Inf] false false).
Proof.
  eexists. split; [reflexivity | ]. split; [reflexivity | ].
  split; eexists; reflexivity.
Qed.

(** ** Matrix-vector products *)

Lemma apply_overwrites (M : CrsMatrix.t) (X Y : Tpetra.Vector.t) (mode : ETransp) :
  CrsMatrix.apply M X Y mode one zero
  = Tpetra.Vector.mk (Tpetra.Vector.getMap Y) (CrsMatrix.times mode M X).
Proof.
  unfold CrsMatrix.apply. f_equal.
  change (Number_eqb zero zero) with true. cbn iota.
  rewrite <- (map_id (CrsMatrix.times mode M X)) at 2.
  apply map_ext. intros v. reflexivity.
Qed.

Lemma apply_accumulates (M : CrsMatrix.t) (X Y : Tpetra.Vector.t) (mode : ETransp) :
  CrsMatrix.apply M X Y mode one one
  = Tpetra.Vector.mk (Tpetra.Vector.getMap Y)
      (accumulate (Tpetra.Vector.values Y) (CrsMatrix.times mode M X)).
Proof.
  unfold CrsMatrix.apply, accumulate. f_equal.
Qed.

Lemma product_aborts (c1 c2 c3 c4 : bool) (e2 e3 e4 : Exc) (T : Type) (r : T) :
  c1 && c2 && (c3 && c4) = false ->
  aborts (Assert c1 ExcSourceEqualsDestination ;; Assert c2 e2 ;;
          Assert c3 e3 ;; Assert c4 e4 ;; Ok r).
Proof.
  destruct c1, c2, c3, c4; simpl; try discriminate; intros _;
    eexists; reflexivity.
Qed.

Lemma product_Ok (c1 c2 c3 c4 : bool) (e1 e2 e3 e4 : Exc) (T : Type) (r : T) :
  c1 && c2 && (c3 && c4) = true ->
  (Assert c1 e1 ;; Assert c2 e2 ;; Assert c3 e3 ;; Assert c4 e4 ;; Ok r) = Ok r.
Proof.
  destruct c1, c2, c3, c4; simpl; try discriminate; reflexivity.
Qed.

(** C3.  Each of the four products is fatal (it aborts on an assertion) when
    [src] and [dst] are the same object, when the matrix is not Finalized
    (the wrapped matrix is not fill-complete, which is the case whenever the
    flag [compressed] is unset), or when the maps do not match: [vmult] and [vmult_add]
    compare [src] with the domain map and [dst] with the range map, [Tvmult]
    and [Tvmult_add] compare [dst] with the domain map and [src] with the
    range map.  When the three conditions hold the product succeeds and
    changes [dst] only: [vmult] and [Tvmult] overwrite its values with
    [A src] resp. [A^T src], without reading the former values, and
    [vmult_add] and [Tvmult_add] add [A src] resp. [A^T src] to the former
    values. *)
Theorem products_check_and_apply :
  forall (A : SparseMatrix) (vectors : Store Vector) (dst src : address),
    let old := Tpetra.Vector.values (trilinos_vector (vectors dst)) in
    (src = dst ->
       vmult A vectors dst src = Abort ExcSourceEqualsDestination
       /\ Tvmult A vectors dst src = Abort ExcSourceEqualsDestination
       /\ vmult_add A vectors dst src = Abort ExcSourceEqualsDestination
       /\ Tvmult_add A vectors dst src = Abort ExcSourceEqualsDestination)
    /\ (fill_flag_sound A -> compressed A = false ->
          aborts (vmult A vectors dst src) /\ aborts (Tvmult A vectors dst src)
          /\ aborts (vmult_add A vectors dst src)
          /\ aborts (Tvmult_add A vectors dst src))
    /\ (product_allowed false A vectors dst src = false ->
          aborts (vmult A vectors dst src) /\ aborts (vmult_add A vectors dst src))
    /\ (product_allowed true A vectors dst src = false ->
          aborts (Tvmult A vectors dst src) /\ aborts (Tvmult_add A vectors dst src))
    /\ (product_allowed false A vectors dst src = true ->
          vmult A vectors dst src
          = Ok (store_with_values vectors dst (product NO_TRANS A (vectors src)))
          /\ vmult_add A vectors dst src
             = Ok (store_with_values vectors dst
                     (accumulate old (product NO_TRANS A (vectors src)))))
    /\ (product_allowed true A vectors dst src = true ->
          Tvmult A vectors dst src
          = Ok (store_with_values vectors dst (product TRANS A (vectors src)))
          /\ Tvmult_add A vectors dst src
             = Ok (store_with_values vectors dst
                     (accumulate old (product TRANS A (vectors src))))).
Proof.
  intros A vectors dst src old.
  split; [ | split; [ | split; [ | split; [ | split]]]].
  - intros ->. unfold vmult, Tvmult, vmult_add, Tvmult_add.
    rewrite Nat.eqb_refl. repeat split.
  - intros Hsound Hc.
    assert (Hf : CrsMatrix.isFillComplete (matrix A) = false).
    { destruct (CrsMatrix.isFillComplete (matrix A)) eqn:Hf; [ | reflexivity].
      rewrite (Hsound Hf) in Hc. discriminate. }
    repeat split; apply product_aborts; rewrite Hf;
      destruct (negb (Nat.eqb src dst)); reflexivity.
  - intros H. unfold product_allowed, maps_match, not_aliased in H.
    split; apply product_aborts; exact H.
  - intros H. unfold product_allowed, maps_match, not_aliased in H.
    split; apply product_aborts; exact H.
  - intros H. unfold product_allowed, maps_match, not_aliased in H.
    unfold vmult, vmult_add. rewrite !(product_Ok _ _ _ _ _ _ _ _ _ _ H).
    rewrite apply_overwrites, apply_accumulates. split; reflexivity.
  - intros H. unfold product_allowed, maps_match, not_aliased in H.
    unfold Tvmult, Tvmult_add. rewrite !(product_Ok _ _ _ _ _ _ _ _ _ _ H).
    rewrite apply_overwrites, apply_accumulates. split; reflexivity.
Qed.

Example example_matrix_built :
  (A <- SparseMatrix_from_sparsity_pattern (mkSparsityPattern example_graph) ;;
   A <- set A 0 2 [0; 1] [one; one] false ;;
   A <- set A 1 1 [1] [one] false ;;
   compress VectorOperation.insert A) = Ok example_matrix.
Proof. reflexivity. Qed.

Example vmult_example :
  (exists vectors',
      vmult example_matrix example_vectors 0%nat 1%nat = Ok vectors'
      /\ Tpetra.Vector.values (trilinos_vector (vectors' 0%nat))
         = [Number_add one two; two])
  /\ (exists vectors',
      vmult_add example_matrix example_vectors 0%nat 1%nat = Ok vectors'
      /\ Tpetra.Vector.values (trilinos_vector (vectors' 0%nat))
         = [Number_add two (Number_add one two); Number_add two two])
  /\ (exists vectors',
      Tvmult example_matrix example_vectors 0%nat 1%nat = Ok vectors'
      /\ Tpetra.Vector.values (trilinos_vector (vectors' 0%nat))
         = [one; Number_add one two]).
Proof.
  repeat split; eexists; (split; [reflexivity | vm_compute; reflexivity]).
Qed.

(** ** [element] *)

Lemma search_column_absent (col_indices : list Z) (trilinos_j : Z) :
  forall start : Z,
    ~ In trilinos_j col_indices ->
    search_column col_indices trilinos_j start
    = start + Z.of_nat (length col_indices).
Proof.
  induction col_indices as [ | c col_indices IH]; intros start Hnot; simpl.
  - lia.
  - destruct (c =? trilinos_j) eqn:E.
    + apply Z.eqb_eq in E. exfalso. apply Hnot. left. exact E.
    + rewrite IH by (intros H; apply Hnot; right; exact H). lia.
Qed.

Lemma search_column_first (col_indices : list Z) (trilinos_j : Z) :
  forall (start : Z) (k : nat),
    (k < length col_indices)%nat ->
    nth k col_indices invalid = trilinos_j ->
    (forall k', (k' < k)%nat -> nth k' col_indices invalid <> trilinos_j) ->
    search_column col_indices trilinos_j start = start + Z.of_nat k.
Proof.
  induction col_indices as [ | c col_indices IH]; intros start k Hk Hnth Hfirst;
    simpl in *.
  - lia.
  - destruct k as [ | k].
    + subst c. rewrite Z.eqb_refl. lia.
    + destruct (c =? trilinos_j) eqn:E.
      * apply Z.eqb_eq in E. exfalso. apply (Hfirst 0%nat); [lia | exact E].
      * rewrite (IH (start + 1) k); [lia | lia | exact Hnth | ].
        intros k' Hk'. apply (Hfirst (S k')). lia.
Qed.

(** C4, as stated, fails: on a matrix that is not Finalized the row and the
    column of the stored entry (0,0) both translate, yet the tolerant call
    does not return the stored value, it is fatal. *)
Lemma element_of_editable_matrix_is_fatal :
  set (SparseMatrix_m_n 1 1 1) 0 1 [0] [one] false = Ok editable_1x1
  /\ Map.getLocalElement (CrsMatrix.getRowMap (matrix editable_1x1)) 0 = 0
  /\ Map.getLocalElement (CrsMatrix.getColMap (matrix editable_1x1)) 0 = 0
  /\ CrsMatrix.local_row (matrix editable_1x1) 0 = [(0, one)]
  /\ element editable_1x1 0 0 true = Abort ExcMatrixNotCompressed.
Proof. repeat split. Qed.

(** C4, amended.  [element(i, j, tolerant)] translates [i] and [j] to local
    indices.  If one of the translations fails, the tolerant call returns
    zero and the intolerant call is fatal.  If both succeed and the matrix is
    not fill-complete, the call is fatal, tolerant or not.  If both succeed
    and the matrix is fill-complete, the local column indices of the row are
    searched from the front: the value stored at the first position that
    holds the column is returned, and when no position holds it the tolerant
    call returns zero and the intolerant call is fatal. *)
Theorem element_cases :
  forall (A : SparseMatrix) (i j : Z) (tolerant : bool),
    let trilinos_i := Map.getLocalElement (CrsMatrix.getRowMap (matrix A)) i in
    let trilinos_j := Map.getLocalElement (CrsMatrix.getColMap (matrix A)) j in
    let col_indices := fst (CrsMatrix.getLocalRowCopy (matrix A) trilinos_i) in
    let values := snd (CrsMatrix.getLocalRowCopy (matrix A) trilinos_i) in
    (trilinos_i = invalid \/ trilinos_j = invalid ->
       element A i j true = Ok zero /\ aborts (element A i j false))
    /\ (trilinos_i <> invalid -> trilinos_j <> invalid ->
        CrsMatrix.isFillComplete (matrix A) = false ->
          element A i j tolerant = Abort ExcMatrixNotCompressed)
    /\ (trilinos_i <> invalid -> trilinos_j <> invalid ->
        CrsMatrix.isFillComplete (matrix A) = true ->
          (forall k : nat,
             (k < length col_indices)%nat ->
             nth k col_indices invalid = trilinos_j ->
             (forall k', (k' < k)%nat -> nth k' col_indices invalid <> trilinos_j) ->
             element A i j tolerant = Ok (nth k values zero))
          /\ (~ In trilinos_j col_indices ->
                element A i j true = Ok zero
                /\ element A i j false = Abort (ExcInvalidIndex i j))).
Proof.
  intros A i j tolerant trilinos_i trilinos_j col_indices values.
  split; [ | split].
  - intros Hinv. unfold element. fold trilinos_i trilinos_j.
    assert (E : (trilinos_i =? invalid) || (trilinos_j =? invalid) = true).
    { apply orb_true_iff. destruct Hinv as [H | H]; [left | right];
        apply Z.eqb_eq; exact H. }
    rewrite E. split; [reflexivity | eexists; reflexivity].
  - intros Hi Hj Hf. unfold element. fold trilinos_i trilinos_j.
    apply Z.eqb_neq in Hi, Hj. rewrite Hi, Hj, Hf. reflexivity.
  - intros Hi Hj Hf.
    assert (Hlen : CrsMatrix.getNumEntriesInLocalRow (matrix A) trilinos_i
                   = Z.of_nat (length col_indices)).
    { unfold col_indices, CrsMatrix.getLocalRowCopy, CrsMatrix.getNumEntriesInLocalRow.
      simpl. rewrite length_map. reflexivity. }
    apply Z.eqb_neq in Hi, Hj. split.
    + intros k Hk Hnth Hfirst. unfold element. fold trilinos_i trilinos_j.
      rewrite Hi, Hj, Hf. cbn [orb Assert bind].
      rewrite Hlen. unfold col_indices, values in *.
      destruct (CrsMatrix.getLocalRowCopy (matrix A) trilinos_i) as [cs vs].
      cbn [fst snd] in *.
      rewrite (search_column_first cs trilinos_j 0 k Hk Hnth Hfirst).
      replace (0 + Z.of_nat k =? Z.of_nat (length cs)) with false
        by (symmetry; apply Z.eqb_neq; lia).
      rewrite Z.add_0_l, Nat2Z.id. reflexivity.
    + intros Hnot. unfold element. fold trilinos_i trilinos_j.
      rewrite Hi, Hj, Hf. cbn [orb Assert bind].
      rewrite Hlen. unfold col_indices in *.
      destruct (CrsMatrix.getLocalRowCopy (matrix A) trilinos_i) as [cs vs].
      cbn [fst snd] in *.
      rewrite (search_column_absent cs trilinos_j 0 Hnot).
      rewrite Z.add_0_l, Z.eqb_refl. split; reflexivity.
Qed.

(** [element] on the compressed example matrix: a stored entry, an entry
    that is not in the structure, and a row that is not owned. *)
Example element_example :
  element example_matrix 0 1 false = Ok one
  /\ element example_matrix 1 0 true = Ok zero
  /\ element example_matrix 1 0 false = Abort (ExcInvalidIndex 1 0)
  /\ element example_matrix 2 0 true = Ok zero
  /\ element example_matrix 2 0 false = Abort (ExcAccessToNonLocalElement 2 0 0 1).
Proof. repeat split. Qed.

(** ** Value copy of [reinit] *)

Lemma subsequence_after {T : Type} (skipped s l : list T) :
  subsequence s l -> subsequence s (skipped ++ l).
Proof.
  intros H. induction skipped as [ | x skipped IH]; simpl;
    [exact H | apply subsequence_skip; exact IH].
Qed.

Lemma subsequence_In {T : Type} (s l : list T) :
  subsequence s l -> forall x, In x s -> In x l.
Proof.
  induction 1 as [l | x s l _ IH | x s l _ IH]; intros y Hy; simpl in *.
  - destruct Hy.
  - destruct Hy as [Hy | Hy]; [left; exact Hy | right; apply IH; exact Hy].
  - right. apply IH. exact Hy.
Qed.

Lemma advance_select_result (select_ahead : list Z) :
  forall (select_index : Z) (it : dealii.iterator (Z * Number))
         (select_end : dealii.iterator Z) (r : Result (dealii.iterator Z)),
    advance_select select_ahead select_index it select_end = r ->
    (exists s, r = Ok s) \/ r = Abort ExcInvalidIterator.
Proof.
  induction select_ahead as [ | c select_ahead IH];
    intros select_index it select_end r Hr; simpl in Hr.
  - right. symmetry. exact Hr.
  - unfold dealii.column, dealii.deref in Hr.
    destruct (dealii.ahead it) as [ | [ic iv] rest]; simpl in Hr.
    + right. symmetry. exact Hr.
    + destruct ((c <? ic) && negb (select_index =? dealii.linear_index select_end)).
      * eapply IH. exact Hr.
      * left. eexists. symmetry. exact Hr.
Qed.

(** [advance_it] moves [it] over a prefix of the entries ahead of it. *)
Lemma advance_it_result (it_ahead : list (Z * Number)) :
  forall (it_index : Z) (select_index : dealii.iterator Z)
         (it_end : dealii.iterator (Z * Number))
         (r : Result (dealii.iterator (Z * Number))),
    advance_it it_ahead it_index select_index it_end = r ->
    (exists skipped it',
        r = Ok it' /\ it_ahead = skipped ++ dealii.ahead it'
        /\ dealii.linear_index it' = it_index + Z.of_nat (length skipped))
    \/ r = Abort ExcInvalidIterator.
Proof.
  induction it_ahead as [ | [c v] it_ahead IH];
    intros it_index select_index it_end r Hr; simpl in Hr.
  - right. symmetry. exact Hr.
  - unfold dealii.deref in Hr.
    destruct (dealii.ahead select_index) as [ | sc rest]; simpl in Hr.
    + right. symmetry. exact Hr.
    + destruct ((c <? sc) && negb (it_index =? dealii.linear_index it_end)).
      * destruct (IH _ _ _ _ Hr) as [[skipped [it' [H1 [H2 H3]]]] | H]; [ | right; exact H].
        left. exists ((c, v) :: skipped), it'. simpl. rewrite <- H2.
        repeat split; [exact H1 | lia].
      * left. exists [], (dealii.mkIterator it_index ((c, v) :: it_ahead)).
        simpl. repeat split; [symmetry; exact Hr | lia].
Qed.

Lemma copied_nil (drop_tolerance : Number) (ahead : list (Z * Number)) :
  copied drop_tolerance ahead [] [].
Proof. repeat split; [constructor | apply subsequence_nil]. Qed.

Lemma copy_loop_sound (bound : nat) :
  forall (drop_tolerance : Number) (maximum_row_length : Z)
         (select_end : dealii.iterator Z)
         (it_end : dealii.iterator (Z * Number)) (select_index : dealii.iterator Z)
         (it : dealii.iterator (Z * Number)) (row_indices : list Z)
         (values : list Number) (cols : list Z) (vals : list Number),
    copy_loop bound drop_tolerance maximum_row_length select_end it_end
      select_index it row_indices values = Ok (cols, vals) ->
    exists cols' vals',
      cols = row_indices ++ cols' /\ vals = values ++ vals'
      /\ copied drop_tolerance (dealii.ahead it) cols' vals'.
Proof.
  induction bound as [ | bound IH];
    intros tol cap select_end it_end select_index it ri vs cols vals H; simpl in H.
  - discriminate.
  - destruct (negb (dealii.iterator_eqb it it_end)
              && negb (dealii.iterator_eqb select_index select_end)).
    2:{ injection H as <- <-. exists [], []. rewrite !app_nil_r.
        repeat split; [constructor | apply subsequence_nil]. }
    destruct (advance_select (dealii.ahead select_index)
                (dealii.linear_index select_index) it select_end)
      as [select' | e]; simpl in H; [ | discriminate].
    destruct (advance_it (dealii.ahead it) (dealii.linear_index it) select' it_end)
      as [it' | e] eqn:Hit; simpl in H; [ | discriminate].
    destruct (advance_it_result _ _ _ _ _ Hit)
      as [[skipped [it'' [Hok [Hahead _]]]] | Hab]; [ | discriminate].
    injection Hok as <-.
    destruct (dealii.iterator_eqb it' it_end).
    { injection H as <- <-. exists [], []. rewrite !app_nil_r.
      split; [reflexivity | ]. split; [reflexivity | ]. apply copied_nil. }
    unfold dealii.value, dealii.column, dealii.deref in H.
    destruct (dealii.ahead it') as [ | [c v] rest] eqn:Hit'; simpl in H;
      [discriminate | ].
    destruct (fabs_gt v tol) eqn:Hv.
    + destruct (write_at cap (length ri)); simpl in H; [ | discriminate].
      apply IH in H. destruct H as [cols' [vals' [Hc [Hvs [Hlen [Hall Hsub]]]]]].
      unfold dealii.incr in Hsub. simpl in Hsub. rewrite Hit' in Hsub. simpl in Hsub.
      exists (c :: cols'), (v :: vals').
      rewrite <- !app_assoc in Hc, Hvs. simpl in Hc, Hvs.
      split; [exact Hc | ]. split; [exact Hvs | ].
      repeat split.
      * simpl. rewrite Hlen. reflexivity.
      * constructor; assumption.
      * rewrite Hahead. apply subsequence_after. simpl.
        apply subsequence_keep. exact Hsub.
    + apply IH in H. destruct H as [cols' [vals' [Hc [Hvs [Hlen [Hall Hsub]]]]]].
      unfold dealii.incr in Hsub. simpl in Hsub. rewrite Hit' in Hsub. simpl in Hsub.
      exists cols', vals'.
      split; [exact Hc | ]. split; [exact Hvs | ].
      repeat split; try assumption.
      rewrite Hahead. apply subsequence_after. apply subsequence_skip. exact Hsub.
Qed.

Lemma copy_loop_bound (bound : nat) :
  forall (drop_tolerance : Number) (maximum_row_length : Z)
         (select_end : dealii.iterator Z)
         (it_end : dealii.iterator (Z * Number)) (select_index : dealii.iterator Z)
         (it : dealii.iterator (Z * Number)) (row_indices : list Z)
         (values : list Number),
    (length (dealii.ahead it) < bound)%nat ->
    copy_loop bound drop_tolerance maximum_row_length select_end it_end
      select_index it row_indices values <> Abort iteration_bound_exceeded.
Proof.
  induction bound as [ | bound IH];
    intros tol cap select_end it_end select_index it ri vs Hlen; simpl.
  - lia.
  - destruct (negb (dealii.iterator_eqb it it_end)
              && negb (dealii.iterator_eqb select_index select_end));
      [ | discriminate].
    destruct (advance_select (dealii.ahead select_index)
                (dealii.linear_index select_index) it select_end)
      as [select' | e] eqn:Hsel; simpl.
    2:{ destruct (advance_select_result _ _ _ _ _ Hsel) as [[s Hs] | Hs];
          [discriminate | ]. injection Hs as ->. discriminate. }
    destruct (advance_it (dealii.ahead it) (dealii.linear_index it) select' it_end)
      as [it' | e] eqn:Hit; simpl.
    2:{ destruct (advance_it_result _ _ _ _ _ Hit) as [[? [? [Hs _]]] | Hs];
          [discriminate | ]. injection Hs as ->. discriminate. }
    destruct (advance_it_result _ _ _ _ _ Hit)
      as [[skipped [it'' [Hok [Hahead _]]]] | Hab]; [ | discriminate].
    injection Hok as <-.
    destruct (dealii.iterator_eqb it' it_end); [discriminate | ].
    unfold dealii.value, dealii.column, dealii.deref.
    destruct (dealii.ahead it') as [ | [c v] rest] eqn:Hit'; simpl;
      [discriminate | ].
    rewrite Hahead, length_app in Hlen. simpl in Hlen.
    destruct (fabs_gt v tol);
      [unfold write_at; destruct (Z.of_nat (length ri) <? cap); simpl;
       [ | discriminate] | ];
      apply IH; unfold dealii.incr; simpl; rewrite Hit'; simpl; lia.
Qed.

Lemma copy_row_bound (sparsity_pattern : dealii.SparsityPattern)
  (dealii_sparse_matrix : dealii.SparseMatrix) (drop_tolerance : Number)
  (maximum_row_length : Z) (row : Z) :
  copy_row sparsity_pattern dealii_sparse_matrix drop_tolerance
    maximum_row_length row
  <> Abort iteration_bound_exceeded.
Proof.
  unfold copy_row.
  set (it := dealii.matrix_begin dealii_sparse_matrix row). clearbody it.
  assert (Hincr : (length (dealii.ahead (dealii.incr it))
                   < S (length (dealii.ahead it)))%nat).
  { destruct it as [idx [ | x ah]]; simpl; lia. }
  destruct (dealii.n_rows sparsity_pattern =? dealii.n_cols sparsity_pattern).
  - unfold dealii.column, dealii.value, dealii.deref.
    destruct (dealii.ahead it) as [ | [c v] rest] eqn:Hit; cbn [bind fst snd];
      [discriminate | ].
    unfold AssertDimension, Assert. destruct (c =? row); cbn [bind];
      [ | discriminate].
    destruct (fabs_gt v drop_tolerance);
      [unfold write_at; destruct (Z.of_nat 0 <? maximum_row_length);
       cbn [bind]; [ | discriminate] | ];
      apply copy_loop_bound; exact Hincr.
  - apply copy_loop_bound. lia.
Qed.

Lemma copy_row_sound (sparsity_pattern : dealii.SparsityPattern)
  (dealii_sparse_matrix : dealii.SparseMatrix) (drop_tolerance : Number)
  (maximum_row_length : Z) (row : Z) (cols : list Z) (vals : list Number) :
  copy_row sparsity_pattern dealii_sparse_matrix drop_tolerance
    maximum_row_length row = Ok (cols, vals) ->
  copied drop_tolerance
    (dealii.ahead (dealii.matrix_begin dealii_sparse_matrix row)) cols vals.
Proof.
  unfold copy_row.
  set (it := dealii.matrix_begin dealii_sparse_matrix row).
  set (bound := S (length (dealii.ahead it))). clearbody bound. clearbody it.
  destruct (dealii.n_rows sparsity_pattern =? dealii.n_cols sparsity_pattern).
  - unfold dealii.column, dealii.value, dealii.deref.
    destruct (dealii.ahead it) as [ | [c v] rest] eqn:Hit; cbn [bind fst snd];
      [discriminate | ].
    unfold AssertDimension, Assert. destruct (c =? row); cbn [bind];
      [ | discriminate].
    destruct (fabs_gt v drop_tolerance) eqn:Hv; intros H;
      [destruct (write_at maximum_row_length 0); cbn [bind] in H;
       [ | discriminate] | ];
      apply copy_loop_sound in H;
      destruct H as [cols' [vals' [-> [-> [Hlen [Hall Hsub]]]]]];
      unfold dealii.incr in Hsub; simpl in Hsub; rewrite Hit in Hsub;
      simpl in Hsub; simpl.
    + repeat split.
      * simpl. rewrite Hlen. reflexivity.
      * constructor; assumption.
      * apply subsequence_keep. exact Hsub.
    + repeat split; try assumption. apply subsequence_skip. exact Hsub.
  - intros H. apply copy_loop_sound in H.
    destruct H as [cols' [vals' [-> [-> Hcopied]]]]. exact Hcopied.
Qed.

(** The diagonal entry of a square pattern is handled before the merge
    loop: the first entry of the row must lie in column [row], and it is
    stored first when it is above the tolerance. *)
Lemma copy_row_diagonal_first (sparsity_pattern : dealii.SparsityPattern)
  (dealii_sparse_matrix : dealii.SparseMatrix) (drop_tolerance : Number)
  (maximum_row_length : Z) (row : Z)
  (c : Z) (v : Number) (rest : list (Z * Number)) :
  dealii.n_rows sparsity_pattern = dealii.n_cols sparsity_pattern ->
  dealii.ahead (dealii.matrix_begin dealii_sparse_matrix row) = (c, v) :: rest ->
  (c <> row ->
     copy_row sparsity_pattern dealii_sparse_matrix drop_tolerance
       maximum_row_length row
     = Abort (ExcDimensionMismatch c row))
  /\ (forall cols vals,
        copy_row sparsity_pattern dealii_sparse_matrix drop_tolerance
          maximum_row_length row
        = Ok (cols, vals) ->
        c = row
        /\ if fabs_gt v drop_tolerance then
             exists cols' vals',
               cols = row :: cols' /\ vals = v :: vals'
               /\ copied drop_tolerance rest cols' vals'
           else copied drop_tolerance rest cols vals).
Proof.
  intros Hsq Hit. unfold copy_row. rewrite Hsq, Z.eqb_refl.
  set (bound := S (length (dealii.ahead (dealii.matrix_begin dealii_sparse_matrix row)))).
  clearbody bound.
  unfold dealii.column, dealii.value, dealii.deref. rewrite Hit. cbn [bind fst snd].
  unfold AssertDimension, Assert. split.
  - intros Hc. apply Z.eqb_neq in Hc. rewrite Hc. reflexivity.
  - intros cols vals. destruct (c =? row) eqn:Hc; cbn [bind]; [ | discriminate].
    apply Z.eqb_eq in Hc. subst c.
    destruct (fabs_gt v drop_tolerance); intros H; (split; [reflexivity | ]);
      [destruct (write_at maximum_row_length 0); cbn [bind] in H;
       [ | discriminate] | ];
      apply copy_loop_sound in H;
      destruct H as [cols' [vals' [-> [-> Hcopied]]]];
      unfold dealii.incr in Hcopied; cbn [dealii.ahead] in Hcopied;
      rewrite Hit in Hcopied; cbn [tl] in Hcopied.
    + exists cols', vals'. repeat split; apply Hcopied.
    + exact Hcopied.
Qed.

(** In step: when both iterators are at the same position of the same
    pattern, each iteration of the merge loop looks at one entry, stores it
    or skips it, and moves both iterators by one. *)
Lemma copy_loop_lockstep (drop_tolerance : Number) (maximum_row_length : Z)
  (e : Z) (select_end_ahead : list Z) (it_end_ahead : list (Z * Number))
  (tail : list (Z * Number)) (row_rest : list (Z * Number)) :
  forall (bound : nat) (k : Z) (row_indices : list Z) (values : list Number),
    (length row_rest < bound)%nat ->
    k + Z.of_nat (length row_rest) = e ->
    Z.of_nat (length row_indices
              + length (filter (above drop_tolerance) row_rest))
    <= maximum_row_length ->
    copy_loop bound drop_tolerance maximum_row_length
      (dealii.mkIterator e select_end_ahead) (dealii.mkIterator e it_end_ahead)
      (dealii.mkIterator k (map fst (row_rest ++ tail)))
      (dealii.mkIterator k (row_rest ++ tail))
      row_indices values
    = Ok (row_indices ++ map fst (filter (above drop_tolerance) row_rest),
          values ++ map snd (filter (above drop_tolerance) row_rest)).
Proof.
  induction row_rest as [ | [c v] row_rest IH];
    intros bound k ri vs Hb Hk Hcap;
    (destruct bound as [ | bound]; [simpl in Hb; lia | ]).
  - simpl in Hk. simpl. unfold dealii.iterator_eqb. simpl.
    replace (k =? e) with true by (symmetry; apply Z.eqb_eq; lia).
    simpl. rewrite !app_nil_r. reflexivity.
  - simpl in Hk, Hb. cbn [copy_loop]. unfold dealii.iterator_eqb.
    cbn [dealii.linear_index dealii.ahead].
    replace (k =? e) with false by (symmetry; apply Z.eqb_neq; lia).
    cbn [negb andb app map fst advance_select].
    unfold dealii.column, dealii.deref. cbn [dealii.ahead bind fst].
    rewrite Z.ltb_irrefl. cbn [andb bind advance_it dealii.linear_index dealii.ahead].
    unfold dealii.deref. cbn [dealii.ahead bind]. rewrite Z.ltb_irrefl.
    cbn [andb bind dealii.linear_index].
    replace (k =? e) with false by (symmetry; apply Z.eqb_neq; lia).
    unfold dealii.value, dealii.deref. cbn [dealii.ahead bind snd fst].
    unfold dealii.incr. cbn [dealii.linear_index dealii.ahead tl filter].
    cbn [filter] in Hcap.
    change (above drop_tolerance (c, v)) with (fabs_gt v drop_tolerance) in Hcap |- *.
    destruct (fabs_gt v drop_tolerance); cbn [bind].
    + cbn [length] in Hcap. unfold write_at.
      replace (Z.of_nat (length ri) <? maximum_row_length) with true
        by (symmetry; apply Z.ltb_lt; lia).
      cbn [bind].
      rewrite (IH bound (k + 1)) by (try rewrite length_app; simpl; lia).
      cbn [map fst snd]. rewrite <- !app_assoc. reflexivity.
    + rewrite (IH bound (k + 1)) by lia. reflexivity.
Qed.

Lemma map_fst_combine {U V : Type} (a : list U) (b : list V) :
  length a = length b -> map fst (combine a b) = a.
Proof.
  revert b. induction a as [ | x a IH]; intros [ | y b] H; simpl in *;
    try discriminate; [reflexivity | ].
  rewrite IH by lia. reflexivity.
Qed.

(** The usual call, with the pattern of the reference matrix itself as the
    target pattern: the values of the row above the tolerance are copied,
    all others are skipped. *)
Lemma copy_row_same_pattern (M : dealii.SparseMatrix) (drop_tolerance : Number)
  (maximum_row_length : Z) (row : Z) :
  let sp := dealii.get_sparsity_pattern M in
  length (dealii.colnums sp) = length (dealii.val M) ->
  0 <= row_begin M row <= row_end M row ->
  row_end M row <= Z.of_nat (length (dealii.colnums sp)) ->
  (dealii.n_rows sp = dealii.n_cols sp ->
   exists v rest, row_entries M row = (row, v) :: rest) ->
  Z.of_nat (length (filter (above drop_tolerance) (row_entries M row)))
  <= maximum_row_length ->
  copy_row sp M drop_tolerance maximum_row_length row
  = Ok (map fst (filter (above drop_tolerance) (row_entries M row)),
        map snd (filter (above drop_tolerance) (row_entries M row))).
Proof.
  intros sp Hval Hbe Hend Hdiag Hcap. subst sp.
  assert (Hentries : length (dealii.matrix_entries M)
                     = length (dealii.colnums (dealii.get_sparsity_pattern M))).
  { unfold dealii.matrix_entries. rewrite length_combine. lia. }
  assert (Hcols : dealii.colnums (dealii.get_sparsity_pattern M)
                  = map fst (dealii.matrix_entries M)).
  { unfold dealii.matrix_entries. rewrite map_fst_combine by exact Hval.
    reflexivity. }
  pose proof (firstn_skipn (Z.to_nat (row_end M row - row_begin M row))
                (skipn (Z.to_nat (row_begin M row)) (dealii.matrix_entries M)))
    as Hsplit.
  fold (row_entries M row) in Hsplit.
  assert (Hlen : length (row_entries M row)
                 = Z.to_nat (row_end M row - row_begin M row)).
  { unfold row_entries. rewrite length_firstn, length_skipn. lia. }
  set (tail := skipn (Z.to_nat (row_end M row - row_begin M row))
                 (skipn (Z.to_nat (row_begin M row)) (dealii.matrix_entries M)))
    in Hsplit.
  unfold copy_row, dealii.pattern_begin, dealii.pattern_end,
    dealii.matrix_begin, dealii.matrix_end, dealii.iterator_at.
  fold (row_begin M row). fold (row_end M row).
  set (bound := S (length (dealii.ahead _))).
  assert (Hbound : (length (row_entries M row) < bound)%nat).
  { unfold bound. cbn [dealii.ahead]. rewrite <- Hsplit, length_app. lia. }
  clearbody bound.
  rewrite Hcols, !skipn_map, <- Hsplit.
  destruct (dealii.n_rows (dealii.get_sparsity_pattern M)
            =? dealii.n_cols (dealii.get_sparsity_pattern M)) eqn:Hsq.
  - apply Z.eqb_eq in Hsq. destruct (Hdiag Hsq) as [v [rest Hrow]].
    rewrite Hrow in *. simpl in Hlen, Hbound.
    unfold dealii.column, dealii.value, dealii.deref.
    cbn [dealii.ahead app bind fst snd].
    unfold AssertDimension, Assert. rewrite Z.eqb_refl. cbn [bind].
    unfold dealii.incr. cbn [dealii.linear_index dealii.ahead tl map fst filter].
    cbn [filter] in Hcap.
    change (above drop_tolerance (row, v)) with (fabs_gt v drop_tolerance)
      in Hcap |- *.
    destruct (fabs_gt v drop_tolerance).
    + cbn [length] in Hcap. unfold write_at.
      replace (Z.of_nat 0 <? maximum_row_length) with true
        by (symmetry; apply Z.ltb_lt; lia).
      cbn [bind].
      rewrite (copy_loop_lockstep drop_tolerance maximum_row_length
                 (row_end M row)) by (simpl; lia).
      reflexivity.
    + rewrite (copy_loop_lockstep drop_tolerance maximum_row_length
                 (row_end M row)) by (simpl; lia).
      reflexivity.
  - rewrite (copy_loop_lockstep drop_tolerance maximum_row_length
               (row_end M row)) by (simpl; lia).
    reflexivity.
Qed.

Lemma copy_rows_owned_row (remaining : nat) (row : Z) (A : SparseMatrix)
  (row_parallel_partitioning : IndexSet) (sparsity_pattern : dealii.SparsityPattern)
  (dealii_sparse_matrix : dealii.SparseMatrix) (drop_tolerance : Number)
  (maximum_row_length : Z) :
  is_element row_parallel_partitioning row = true ->
  copy_rows (S remaining) row A row_parallel_partitioning sparsity_pattern
    dealii_sparse_matrix drop_tolerance maximum_row_length
  = (cv <- copy_row sparsity_pattern dealii_sparse_matrix drop_tolerance
             maximum_row_length row ;;
     A' <- set A row (Z.of_nat (length (fst cv))) (fst cv) (snd cv) false ;;
     copy_rows remaining (row + 1) A' row_parallel_partitioning sparsity_pattern
       dealii_sparse_matrix drop_tolerance maximum_row_length).
Proof.
  intros Hrow. cbn [copy_rows]. rewrite Hrow.
  destruct (copy_row sparsity_pattern dealii_sparse_matrix drop_tolerance
              maximum_row_length row);
    reflexivity.
Qed.

(** X20.  The value copy of [reinit] for one row, for every pair of
    patterns.  The merge loop ends within its iteration bound.  What it collects for a row
    are entries of the reference matrix, in the order in which the row is
    walked, each with a magnitude above the drop tolerance: no value at or
    below the tolerance is stored.  For a square pattern the first entry of
    the row, which must be the diagonal entry, is handled before the loop.
    When the target pattern is the pattern of the reference matrix and the
    vectors are long enough, the two walks stay in step and exactly the
    values of the row above the tolerance are collected.  For a locally
    owned row the collected entries are handed to [set] without elision of
    zeros. *)
Theorem reinit_value_copy_filters_by_tolerance :
  forall (sparsity_pattern : dealii.SparsityPattern)
         (dealii_sparse_matrix : dealii.SparseMatrix) (drop_tolerance : Number)
         (maximum_row_length : Z) (row : Z),
    copy_row sparsity_pattern dealii_sparse_matrix drop_tolerance
      maximum_row_length row
    <> Abort iteration_bound_exceeded
    /\ (forall cols vals,
          copy_row sparsity_pattern dealii_sparse_matrix drop_tolerance
            maximum_row_length row
          = Ok (cols, vals) ->
          length cols = length vals
          /\ Forall (fun v => fabs_gt v drop_tolerance = true) vals
          /\ subsequence (combine cols vals)
               (dealii.ahead (dealii.matrix_begin dealii_sparse_matrix row)))
    /\ (dealii.n_rows sparsity_pattern = dealii.n_cols sparsity_pattern ->
        forall c v rest,
          dealii.ahead (dealii.matrix_begin dealii_sparse_matrix row) = (c, v) :: rest ->
          (c <> row ->
             copy_row sparsity_pattern dealii_sparse_matrix drop_tolerance
               maximum_row_length row
             = Abort (ExcDimensionMismatch c row))
          /\ (forall cols vals,
                copy_row sparsity_pattern dealii_sparse_matrix drop_tolerance
                  maximum_row_length row
                = Ok (cols, vals) ->
                c = row
                /\ if fabs_gt v drop_tolerance then
                     exists cols' vals',
                       cols = row :: cols' /\ vals = v :: vals'
                       /\ copied drop_tolerance rest cols' vals'
                   else copied drop_tolerance rest cols vals))
    /\ (sparsity_pattern = dealii.get_sparsity_pattern dealii_sparse_matrix ->
        length (dealii.colnums sparsity_pattern) = length (dealii.val dealii_sparse_matrix) ->
        0 <= row_begin dealii_sparse_matrix row <= row_end dealii_sparse_matrix row ->
        row_end dealii_sparse_matrix row
        <= Z.of_nat (length (dealii.colnums sparsity_pattern)) ->
        (dealii.n_rows sparsity_pattern = dealii.n_cols sparsity_pattern ->
         exists v rest, row_entries dealii_sparse_matrix row = (row, v) :: rest) ->
        Z.of_nat (length (filter (above drop_tolerance)
                            (row_entries dealii_sparse_matrix row)))
        <= maximum_row_length ->
        copy_row sparsity_pattern dealii_sparse_matrix drop_tolerance
          maximum_row_length row
        = Ok (map fst (filter (above drop_tolerance)
                         (row_entries dealii_sparse_matrix row)),
              map snd (filter (above drop_tolerance)
                         (row_entries dealii_sparse_matrix row))))
    /\ (forall remaining A row_parallel_partitioning,
          is_element row_parallel_partitioning row = true ->
          copy_rows (S remaining) row A row_parallel_partitioning sparsity_pattern
            dealii_sparse_matrix drop_tolerance maximum_row_length
          = (cv <- copy_row sparsity_pattern dealii_sparse_matrix drop_tolerance
                     maximum_row_length row ;;
             A' <- set A row (Z.of_nat (length (fst cv))) (fst cv) (snd cv) false ;;
             copy_rows remaining (row + 1) A' row_parallel_partitioning
               sparsity_pattern dealii_sparse_matrix drop_tolerance
               maximum_row_length)).
Proof.
  intros sp M tol cap row.
  split; [apply copy_row_bound | ].
  split; [intros cols vals H; exact (copy_row_sound sp M tol cap row cols vals H) | ].
  split; [intros Hsq c v rest Hit; apply copy_row_diagonal_first; assumption | ].
  split.
  - intros -> Hval Hbe Hend Hdiag Hcap. apply copy_row_same_pattern; assumption.
  - intros remaining A part Hrow. apply copy_rows_owned_row. exact Hrow.
Qed.

(** C9.  The merge loop of [reinit] does not keep the two walks in step.
    Each pass moves [select_index] forward once and [it] forward once and
    then stores the entry under [it] without comparing the two columns.  For
    the reference row with the columns 0 and 2 and the target row with the
    column 1 alone, rows without a common column, the loop collects the
    value of the column 2 and hands it to [set]; on a matrix whose row
    stores the columns 1 and 2 the value becomes the entry (0,2), a position
    that the target pattern does not have.  Where every pass ends with both
    walks on the same column the loop does merge: of the reference row with
    the columns 0, 2 and 5 it collects, for the target row with the columns
    0, 1 and 5, the columns 0 and 5 and skips the column 2, whose value is
    above the tolerance.  The drop tolerance is applied either way: with a
    tolerance of two the value two of the column 2 is not collected. *)
Theorem reinit_merge_stores_unmatched_column :
  copy_row lone_pattern gap_matrix zero 2 0 = Ok ([2], [two])
  /\ (exists A A',
        SparseMatrix_from_sparsity_pattern (mkSparsityPattern two_columns) = Ok A
        /\ CrsMatrix.rows (matrix A) = [[(1, zero); (2, zero)]]
        /\ reinit_fill_values A (mkIndexSet 1 [0]) lone_pattern gap_matrix zero
           = Ok A'
        /\ CrsMatrix.rows (matrix A') = [[(1, zero); (2, two)]]
        /\ call_operator A' 0 2 = Ok two)
  /\ copy_row zigzag_pattern zigzag_matrix zero 3 0 = Ok ([0; 5], [two; two])
  /\ copy_row lone_pattern gap_matrix two 2 0 = Ok ([], []).
Proof.
  split; [reflexivity | ]. split.
  - eexists. eexists. repeat split.
  - split; reflexivity.
Qed.

Example copy_row_example :
  copy_row square_pattern square_matrix one 2 0 = Ok ([0], [two])
  /\ copy_row square_pattern square_matrix one 2 1 = Ok ([1], [two])
  /\ copy_row square_pattern square_matrix zero 2 0 = Ok ([0; 1], [two; one])
  /\ copy_row square_pattern square_matrix zero 1 0 = Abort undefined_behaviour
  /\ copy_row target_pattern wide_matrix one 2 0 = Ok ([0; 2], [two; two])
  /\ copy_row target_pattern wide_matrix one 2 1 = Ok ([1], [two]).
Proof. repeat split. Qed.

(** The whole value copy into the 2 x 2 matrix built from [example_graph],
    whose structure is that of the reference matrix, with a tolerance of
    one: the entry (0,1), whose reference value is one, is not written and
    stays zero.  On the matrix [SparseMatrix(2, 2, 2)], which has just been
    constructed, the copy has no result: the fill is active. *)
Example reinit_fill_values_example :
  (exists A A',
      SparseMatrix_from_sparsity_pattern (mkSparsityPattern example_graph) = Ok A
      /\ reinit_fill_values A (mkIndexSet 2 [0; 1])
           square_pattern square_matrix one = Ok A'
      /\ CrsMatrix.rows (matrix A') = [[(0, two); (1, zero)]; [(1, two)]]
      /\ compressed A' = true)
  /\ reinit_fill_values (SparseMatrix_m_n 2 2 2) (mkIndexSet 2 [0; 1])
       square_pattern square_matrix one = Abort undefined_behaviour.
Proof. split; [eexists; eexists; repeat split | reflexivity]. Qed.

(** The merge of a row of [square_matrix] with its own pattern, by
    [copy_row_same_pattern]: with a tolerance of one, the value one of the
    entry (0,1) is dropped. *)
Example copy_row_same_pattern_example :
  copy_row square_pattern square_matrix one 2 0
  = Ok (map fst (filter (above one) [(0, two); (1, one)]),
        map snd (filter (above one) [(0, two); (1, one)])).
Proof.
  apply (copy_row_same_pattern square_matrix one 2 0).
  - reflexivity.
  - vm_compute. split; discriminate.
  - vm_compute. discriminate.
  - intros _. exists two, [(1, one)]. reflexivity.
  - vm_compute. discriminate.
Qed.

(** * Further properties *)

(** ** [element] as a lookup by global column *)

Lemma index_of_found (l : list Z) :
  forall (g k : Z),
    0 <= k ->
    Map.index_of g l k <> invalid ->
    k <= Map.index_of g l k
    /\ nth (Z.to_nat (Map.index_of g l k - k)) l invalid = g.
Proof.
  induction l as [ | x l IH]; intros g k Hk Hfound; simpl in *.
  - congruence.
  - destruct (x =? g) eqn:E.
    + apply Z.eqb_eq in E. rewrite Z.sub_diag. simpl. split; [lia | exact E].
    + destruct (IH g (k + 1) ltac:(lia) Hfound) as [Hle Hnth].
      split; [lia | ].
      replace (Z.to_nat (Map.index_of g l (k + 1) - k))
        with (S (Z.to_nat (Map.index_of g l (k + 1) - (k + 1)))) by lia.
      exact Hnth.
Qed.

Lemma getLocalElement_injective (m : Map.t) (c j : Z) :
  Map.getLocalElement m j <> invalid ->
  Map.getLocalElement m c = Map.getLocalElement m j ->
  c = j.
Proof.
  unfold Map.getLocalElement. intros Hj Heq.
  destruct (index_of_found (Map.getMyGlobalIndices m) j 0 ltac:(lia) Hj) as [_ H1].
  rewrite <- Heq in Hj.
  destruct (index_of_found (Map.getMyGlobalIndices m) c 0 ltac:(lia) Hj) as [_ H2].
  rewrite Heq in H2. congruence.
Qed.

(** Searching the local column indices of a row for the local index of [j]
    finds the first entry of the row in the global column [j]. *)
Lemma search_column_entry_of (colMap : Map.t) (j : Z) (row : list (Z * Number)) :
  Map.getLocalElement colMap j <> invalid ->
  forall start : Z,
    let col_indices := map (fun cv => Map.getLocalElement colMap (fst cv)) row in
    match CrsMatrix.entry_of j row with
    | None =>
        search_column col_indices (Map.getLocalElement colMap j) start
        = start + Z.of_nat (length row)
    | Some v =>
        exists k : nat,
          (k < length row)%nat
          /\ search_column col_indices (Map.getLocalElement colMap j) start
             = start + Z.of_nat k
          /\ nth k (map snd row) zero = v
    end.
Proof.
  intros Hj. induction row as [ | [c v] row IH]; intros start; simpl.
  - lia.
  - destruct (Map.getLocalElement colMap c =? Map.getLocalElement colMap j) eqn:E.
    + apply Z.eqb_eq in E. apply (getLocalElement_injective colMap c j Hj) in E.
      subst c. rewrite Z.eqb_refl. exists 0%nat. repeat split; lia.
    + assert (Hc : (c =? j) = false).
      { apply Z.eqb_neq. intros ->. rewrite Z.eqb_refl in E. discriminate. }
      rewrite Hc. specialize (IH (start + 1)). simpl in IH.
      destruct (CrsMatrix.entry_of j row) as [v' | ].
      * destruct IH as [k [Hk [Hs Hv]]]. exists (S k). repeat split; try lia.
        exact Hv.
      * lia.
Qed.

Lemma element_lookup :
  forall (A : SparseMatrix) (i j : Z) (tolerant : bool),
    let trilinos_i := Map.getLocalElement (CrsMatrix.getRowMap (matrix A)) i in
    trilinos_i <> invalid ->
    Map.getLocalElement (CrsMatrix.getColMap (matrix A)) j <> invalid ->
    CrsMatrix.isFillComplete (matrix A) = true ->
    element A i j tolerant
    = lookup_result i j tolerant
        (CrsMatrix.entry_of j (CrsMatrix.local_row (matrix A) trilinos_i)).
Proof.
  intros A i j tolerant trilinos_i Hi Hj Hf.
  unfold element. fold trilinos_i.
  apply Z.eqb_neq in Hi. rewrite Hi.
  pose proof Hj as Hj'. apply Z.eqb_neq in Hj'. rewrite Hj', Hf.
  cbn [orb Assert bind]. unfold CrsMatrix.getLocalRowCopy,
    CrsMatrix.getNumEntriesInLocalRow.
  pose proof (search_column_entry_of (CrsMatrix.getColMap (matrix A)) j
                (CrsMatrix.local_row (matrix A) trilinos_i) Hj 0) as Hs.
  cbv zeta in Hs.
  destruct (CrsMatrix.entry_of j (CrsMatrix.local_row (matrix A) trilinos_i))
    as [v | ].
  - destruct Hs as [k [Hk [Hs Hv]]]. rewrite Hs.
    replace (0 + Z.of_nat k =? _) with false by (symmetry; apply Z.eqb_neq; lia).
    rewrite Z.add_0_l, Nat2Z.id, Hv. reflexivity.
  - rewrite Hs, Z.add_0_l, Z.eqb_refl. reflexivity.
Qed.

(** X1.  On a fill-complete matrix, for a row and a column that translate to
    local indices, [element] is the lookup of the global column [j] in the
    stored row: it returns the value of the first entry of the row in column
    [j]; when the row has no such entry, the tolerant call returns zero and
    the intolerant call is fatal. *)
Theorem element_is_lookup :
  forall (A : SparseMatrix) (i j : Z) (tolerant : bool),
    let trilinos_i := Map.getLocalElement (CrsMatrix.getRowMap (matrix A)) i in
    trilinos_i <> invalid ->
    Map.getLocalElement (CrsMatrix.getColMap (matrix A)) j <> invalid ->
    CrsMatrix.isFillComplete (matrix A) = true ->
    element A i j tolerant
    = lookup_result i j tolerant
        (CrsMatrix.entry_of j (CrsMatrix.local_row (matrix A) trilinos_i)).
Proof. exact element_lookup. Qed.

Lemma element_is_lookup_witness :
  element example_matrix 0 1 false = Ok one.
Proof.
  rewrite (element_is_lookup example_matrix 0 1 false); [reflexivity | | | ].
  - vm_compute. discriminate.
  - vm_compute. discriminate.
  - reflexivity.
Defined.

(** ** Sorting and merging of rows at [fillComplete] *)

Lemma insert_entry_above (b c : Z) (v : Number) (row : list (Z * Number)) :
  b < c ->
  Forall (fun cv' => b < fst cv') row ->
  Forall (fun cv' => b < fst cv') (insert_entry c v row).
Proof.
  intros Hb. induction 1 as [ | [c0 v0] row H0 Hrow IH]; simpl.
  - repeat constructor. exact Hb.
  - destruct (c <? c0); [repeat constructor; assumption | ].
    destruct (c =? c0); constructor; assumption.
Qed.

Lemma insert_entry_ascending (c : Z) (v : Number) (row : list (Z * Number)) :
  ascending row -> ascending (insert_entry c v row).
Proof.
  induction row as [ | [c0 v0] row IH]; simpl.
  - intros _. split; constructor.
  - intros [Habove Hasc].
    destruct (c <? c0) eqn:Hlt; simpl.
    + apply Z.ltb_lt in Hlt. repeat split; try assumption.
      constructor; [exact Hlt | ].
      eapply Forall_impl; [ | exact Habove]. simpl. intros; lia.
    + destruct (c =? c0) eqn:Heq; simpl.
      * split; assumption.
      * apply Z.ltb_ge in Hlt. apply Z.eqb_neq in Heq. split.
        -- apply insert_entry_above; [lia | exact Habove].
        -- apply IH. exact Hasc.
Qed.

Lemma entry_of_above (c : Z) (row : list (Z * Number)) :
  Forall (fun cv' => c < fst cv') row -> CrsMatrix.entry_of c row = None.
Proof.
  induction 1 as [ | [c0 v0] row H0 _ IH]; simpl; [reflexivity | ].
  simpl in H0. replace (c0 =? c) with false by (symmetry; apply Z.eqb_neq; lia).
  exact IH.
Qed.

Lemma entry_of_insert_entry (c : Z) (v : Number) (row : list (Z * Number)) (j : Z) :
  ascending row ->
  CrsMatrix.entry_of j (insert_entry c v row)
  = if c =? j then
      Some (match CrsMatrix.entry_of j row with
            | Some a => Number_add a v
            | None => v
            end)
    else CrsMatrix.entry_of j row.
Proof.
  induction row as [ | [c0 v0] row IH]; simpl.
  - intros _. reflexivity.
  - intros [Habove Hasc].
    destruct (c <? c0) eqn:Hlt; simpl.
    + apply Z.ltb_lt in Hlt. destruct (c =? j) eqn:Hcj; [ | reflexivity].
      apply Z.eqb_eq in Hcj. subst j.
      replace (c0 =? c) with false by (symmetry; apply Z.eqb_neq; lia).
      rewrite entry_of_above; [reflexivity | ].
      eapply Forall_impl; [ | exact Habove]. simpl. intros; lia.
    + destruct (c =? c0) eqn:Heq; simpl.
      * apply Z.eqb_eq in Heq. subst c0. destruct (c =? j); reflexivity.
      * rewrite (IH Hasc). destruct (c0 =? j) eqn:H0j; [ | reflexivity].
        apply Z.eqb_eq in H0j. subst j. rewrite Heq. reflexivity.
Qed.

Lemma fold_insert_entry_ascending (row : list (Z * Number)) :
  forall acc : list (Z * Number),
    ascending acc ->
    ascending (fold_left (fun acc cv => insert_entry (fst cv) (snd cv) acc) row acc).
Proof.
  induction row as [ | cv row IH]; intros acc Hacc; simpl; [exact Hacc | ].
  apply IH. apply insert_entry_ascending. exact Hacc.
Qed.

Lemma sort_and_merge_ascending (row : list (Z * Number)) :
  ascending (sort_and_merge row).
Proof. apply fold_insert_entry_ascending. exact I. Qed.

Lemma entry_of_fold_insert_entry (row : list (Z * Number)) (j : Z) :
  forall acc : list (Z * Number),
    ascending acc ->
    CrsMatrix.entry_of j
      (fold_left (fun acc cv => insert_entry (fst cv) (snd cv) acc) row acc)
    = fold_left
        (fun acc cv =>
           if fst cv =? j then
             Some (match acc with
                   | Some a => Number_add a (snd cv)
                   | None => snd cv
                   end)
           else acc)
        row (CrsMatrix.entry_of j acc).
Proof.
  induction row as [ | [c v] row IH]; intros acc Hacc; simpl; [reflexivity | ].
  rewrite IH by (apply insert_entry_ascending; exact Hacc).
  rewrite entry_of_insert_entry by exact Hacc. reflexivity.
Qed.

(** After sorting and merging, the entry of a column is the sum of the
    values that the row held for it. *)
Lemma entry_of_sort_and_merge (row : list (Z * Number)) (j : Z) :
  CrsMatrix.entry_of j (sort_and_merge row) = total j row.
Proof.
  unfold sort_and_merge, total.
  rewrite entry_of_fold_insert_entry by exact I. reflexivity.
Qed.

Lemma insert_entry_last (c : Z) (v : Number) (acc : list (Z * Number)) :
  Forall (fun cv => fst cv < c) acc -> insert_entry c v acc = acc ++ [(c, v)].
Proof.
  induction 1 as [ | [c0 v0] acc H0 _ IH]; simpl; [reflexivity | ].
  simpl in H0.
  replace (c <? c0) with false by (symmetry; apply Z.ltb_ge; lia).
  replace (c =? c0) with false by (symmetry; apply Z.eqb_neq; lia).
  rewrite IH. reflexivity.
Qed.

Lemma fold_insert_entry_sorted (row : list (Z * Number)) :
  forall acc : list (Z * Number),
    ascending row ->
    Forall (fun a => Forall (fun cv => fst a < fst cv) row) acc ->
    fold_left (fun acc cv => insert_entry (fst cv) (snd cv) acc) row acc
    = acc ++ row.
Proof.
  induction row as [ | [c v] row IH]; intros acc Hrow Hacc; simpl.
  - rewrite app_nil_r. reflexivity.
  - destruct Hrow as [Habove Hasc].
    rewrite insert_entry_last.
    + rewrite IH; [rewrite <- app_assoc; reflexivity | exact Hasc | ].
      apply Forall_app. split.
      * eapply Forall_impl; [ | exact Hacc]. intros a Ha.
        inversion Ha; assumption.
      * constructor; [exact Habove | constructor].
    + eapply Forall_impl; [ | exact Hacc]. intros a Ha.
      inversion Ha; assumption.
Qed.

(** A row that is already sorted, with one entry per column, is left as it
    is. *)
Lemma sort_and_merge_fixed (row : list (Z * Number)) :
  ascending row -> sort_and_merge row = row.
Proof.
  intros H. unfold sort_and_merge.
  rewrite fold_insert_entry_sorted; [reflexivity | exact H | constructor].
Qed.

Lemma map_sort_and_merge_fixed (rs : list (list (Z * Number))) :
  Forall ascending rs -> map sort_and_merge rs = rs.
Proof.
  induction 1 as [ | r rs Hr _ IH]; simpl; [reflexivity | ].
  rewrite sort_and_merge_fixed by exact Hr. rewrite IH. reflexivity.
Qed.

Lemma map_sort_and_merge_ascending (rs : list (list (Z * Number))) :
  Forall ascending (map sort_and_merge rs).
Proof.
  induction rs as [ | r rs IH]; simpl; constructor;
    [apply sort_and_merge_ascending | exact IH].
Qed.

(** ** [resume_fill] and [compress] as a round trip *)

(** X2.  [resume_fill] followed by [compress] gives back the matrix that a
    [compress] produced: flag, maps, structure and values. *)
Theorem resume_fill_then_compress_restores :
  forall (A0 A : SparseMatrix) (op0 op : VectorOperation.values),
    compressed A0 = false ->
    compress op0 A0 = Ok A ->
    compress op (resume_fill A) = Ok A.
Proof.
  intros A0 A op0 op Hc H. unfold compress in H. rewrite Hc in H. simpl in H.
  unfold CrsMatrix.fillComplete in H.
  destruct (CrsMatrix.isFillComplete (matrix A0)); simpl in H; [discriminate | ].
  injection H as <-. unfold resume_fill, compress. simpl.
  rewrite map_sort_and_merge_fixed by apply map_sort_and_merge_ascending.
  reflexivity.
Qed.

Lemma resume_fill_then_compress_restores_witness :
  compress VectorOperation.add (resume_fill example_matrix) = Ok example_matrix.
Proof.
  apply (resume_fill_then_compress_restores
           (mkSparseMatrix map2
              (CrsMatrix.mk map2 map2 map2 map2 true false
                 [[(1, one); (0, one)]; [(1, one)]] []) false)
           example_matrix VectorOperation.insert VectorOperation.add);
    reflexivity.
Defined.

(** ** Writing with [set], reading with [element] *)

Lemma set_unfolded (A : SparseMatrix) (row n_cols : Z) (col_indices : list Z)
  (values : list Number) (elide_zero_values : bool) :
  0 <= row < m A ->
  0 <= n_cols ->
  (elide_zero_values = true ->
   Forall (fun cv => is_finite (snd cv) = true)
          (supplied_entries n_cols col_indices values)) ->
  let kept := surviving_entries elide_zero_values n_cols col_indices values in
  set A row n_cols col_indices values elide_zero_values
  = if negb (CrsMatrix.isStaticGraph (matrix A)) then
      M <- CrsMatrix.insertGlobalValues row (map fst kept) (map snd kept)
             (matrix (resume_if_filled A)) ;;
      Ok (mkSparseMatrix (column_space_map A) M false)
    else
      Ok (mkSparseMatrix (column_space_map A)
            (CrsMatrix.replaceGlobalValues row (map fst kept) (map snd kept)
               (matrix (resume_if_filled A)))
            false).
Proof.
  intros Hrow Hn Hfin kept.
  destruct (resume_if_filled_editable A) as [Hc1 _].
  destruct (resume_if_filled_frame A) as [Hcol [_ [_ [Hst _]]]].
  unfold set. rewrite (AssertIndexRange_Ok _ _ Hrow). cbn [bind].
  rewrite (set_arguments elide_zero_values n_cols col_indices values Hn Hfin).
  fold kept. cbn [bind fst snd]. rewrite Hst, Hcol, Hc1. reflexivity.
Qed.

Lemma insertGlobalValues_owned (M : CrsMatrix.t) (row : Z) (l : nat)
  (entries : list (Z * Number)) :
  CrsMatrix.isStaticGraph M = false ->
  CrsMatrix.isFillComplete M = false ->
  Map.getLocalElement (CrsMatrix.getRowMap M) row = Z.of_nat l ->
  Forall (fun cv => Map.isNodeGlobalElement (CrsMatrix.getColMap M) (fst cv) = true)
         entries ->
  CrsMatrix.insertGlobalValues row (map fst entries) (map snd entries) M
  = Ok (CrsMatrix.with_rows
          (update_row (Z.of_nat l) (fun r => r ++ entries) (CrsMatrix.rows M)) M).
Proof.
  intros Hst Hf Hl Hcols. unfold CrsMatrix.insertGlobalValues.
  rewrite Hst, Hf, Hl, combine_fst_snd, (forallb_columns _ _ Hcols). cbn [orb].
  replace (Z.of_nat l =? invalid) with false
    by (symmetry; apply Z.eqb_neq; unfold invalid; lia).
  reflexivity.
Qed.

Lemma replaceGlobalValues_owned (M : CrsMatrix.t) (row : Z) (l : nat)
  (entries : list (Z * Number)) :
  CrsMatrix.isFillComplete M = false ->
  Map.getLocalElement (CrsMatrix.getRowMap M) row = Z.of_nat l ->
  CrsMatrix.replaceGlobalValues row (map fst entries) (map snd entries) M
  = CrsMatrix.with_rows
      (update_row (Z.of_nat l)
         (fun r => fold_left (fun acc cv => CrsMatrix.replace_at (fst cv) (snd cv) acc)
                             entries r)
         (CrsMatrix.rows M)) M.
Proof.
  intros Hf Hl. unfold CrsMatrix.replaceGlobalValues.
  rewrite Hf, Hl, combine_fst_snd. cbn [orb].
  replace (Z.of_nat l =? invalid) with false
    by (symmetry; apply Z.eqb_neq; unfold invalid; lia).
  reflexivity.
Qed.

(** After [compress], [element] reads from a row the sum of the values that
    the row held for the column. *)
Lemma compress_then_element (A1 : SparseMatrix) (op : VectorOperation.values)
  (i j : Z) (l : nat) (tolerant : bool) :
  compressed A1 = false ->
  CrsMatrix.isFillComplete (matrix A1) = false ->
  Map.getLocalElement (CrsMatrix.getRowMap (matrix A1)) i = Z.of_nat l ->
  Map.getLocalElement (CrsMatrix.getColMap (matrix A1)) j <> invalid ->
  exists A2,
    compress op A1 = Ok A2
    /\ element A2 i j tolerant
       = lookup_result i j tolerant
           (total j (nth l (CrsMatrix.rows (matrix A1)) [])).
Proof.
  intros Hc Hf Hl Hj. unfold compress, CrsMatrix.fillComplete.
  rewrite Hc, Hf. cbn [negb bind]. eexists. split; [reflexivity | ].
  rewrite element_lookup; cbn [matrix CrsMatrix.getRowMap CrsMatrix.getColMap
                                 CrsMatrix.isFillComplete];
    [ | rewrite Hl; unfold invalid; lia | exact Hj | reflexivity].
  rewrite Hl. unfold CrsMatrix.local_row. cbn [CrsMatrix.rows].
  rewrite Nat2Z.id.
  change (@nil (Z * Number)) with (sort_and_merge []) at 1.
  rewrite map_nth, entry_of_sort_and_merge. reflexivity.
Qed.

(** [set], then [compress], then [element], on a matrix that owns its graph. *)
Lemma set_then_compress_lookup :
  forall (A : SparseMatrix) (row n_cols : Z) (col_indices : list Z)
         (values : list Number) (elide_zero_values : bool)
         (op : VectorOperation.values) (j : Z) (tolerant : bool) (l : nat),
    let kept := surviving_entries elide_zero_values n_cols col_indices values in
    CrsMatrix.isStaticGraph (matrix A) = false ->
    0 <= row < m A ->
    0 <= n_cols ->
    (elide_zero_values = true ->
     Forall (fun cv => is_finite (snd cv) = true)
            (supplied_entries n_cols col_indices values)) ->
    Forall (fun cv => Map.isNodeGlobalElement (CrsMatrix.getColMap (matrix A))
                        (fst cv) = true) kept ->
    Map.getLocalElement (CrsMatrix.getRowMap (matrix A)) row = Z.of_nat l ->
    (l < length (CrsMatrix.rows (matrix A)))%nat ->
    Map.getLocalElement (CrsMatrix.getColMap (matrix A)) j <> invalid ->
    exists A1 A2,
      set A row n_cols col_indices values elide_zero_values = Ok A1
      /\ compress op A1 = Ok A2
      /\ element A2 row j tolerant
         = lookup_result row j tolerant
             (total j (nth l (CrsMatrix.rows (matrix A)) [] ++ kept)).
Proof.
  intros A row n_cols col_indices values elide op j tolerant l kept
    Hst Hrow Hn Hfin Hcols Hl Hlt Hj.
  destruct (resume_if_filled_editable A) as [_ Hf1].
  destruct (resume_if_filled_frame A) as [_ [Hrows [_ [Hst1 [Hrm Hcm]]]]].
  rewrite (set_unfolded A row n_cols col_indices values elide Hrow Hn Hfin).
  fold kept. rewrite Hst. cbn [negb].
  rewrite (insertGlobalValues_owned _ row l kept);
    [ | rewrite Hst1; exact Hst | exact Hf1 | rewrite Hrm; exact Hl
      | rewrite Hcm; exact Hcols ].
  cbn [bind]. eexists. 
  destruct (compress_then_element
              (mkSparseMatrix (column_space_map A)
                 (CrsMatrix.with_rows
                    (update_row (Z.of_nat l) (fun r => r ++ kept)
                       (CrsMatrix.rows (matrix (resume_if_filled A))))
                    (matrix (resume_if_filled A))) false)
              op row j l tolerant)
    as [A2 [Hcompress Helement]]; cbn [compressed matrix CrsMatrix.with_rows
      CrsMatrix.isFillComplete CrsMatrix.getRowMap CrsMatrix.getColMap];
    [reflexivity | exact Hf1 | rewrite Hrm; exact Hl | rewrite Hcm; exact Hj | ].
  exists A2. split; [reflexivity | ]. split; [exact Hcompress | ].
  rewrite Helement. cbn [matrix CrsMatrix.with_rows CrsMatrix.rows].
  rewrite Hrows, nth_update_row by exact Hlt.
  rewrite Nat2Z.id, Nat.eqb_refl. reflexivity.
Qed.

(** X3.  Insert, compress, look up.  On a matrix without a static graph, for
    an owned row, [set] followed by [compress] makes [element] return, for a
    column of the column map, the sum of the values that the row held for
    that column before the call and of the surviving values supplied for it
    (entries of one column are summed, not replaced); for a column without
    any entry the tolerant lookup returns zero and the intolerant one is
    fatal. *)
Theorem set_compress_element :
  forall (A : SparseMatrix) (row n_cols : Z) (col_indices : list Z)
         (values : list Number) (elide_zero_values : bool)
         (op : VectorOperation.values) (j : Z) (tolerant : bool) (l : nat),
    let kept := surviving_entries elide_zero_values n_cols col_indices values in
    CrsMatrix.isStaticGraph (matrix A) = false ->
    0 <= row < m A ->
    0 <= n_cols ->
    (elide_zero_values = true ->
     Forall (fun cv => is_finite (snd cv) = true)
            (supplied_entries n_cols col_indices values)) ->
    Forall (fun cv => Map.isNodeGlobalElement (CrsMatrix.getColMap (matrix A))
                        (fst cv) = true) kept ->
    Map.getLocalElement (CrsMatrix.getRowMap (matrix A)) row = Z.of_nat l ->
    (l < length (CrsMatrix.rows (matrix A)))%nat ->
    Map.getLocalElement (CrsMatrix.getColMap (matrix A)) j <> invalid ->
    exists A1 A2,
      set A row n_cols col_indices values elide_zero_values = Ok A1
      /\ compress op A1 = Ok A2
      /\ element A2 row j tolerant
         = lookup_result row j tolerant
             (total j (nth l (CrsMatrix.rows (matrix A)) [] ++ kept)).
Proof. exact set_then_compress_lookup. Qed.

Lemma set_compress_element_witness :
  exists A1 A2,
    set editable_1x1 0 1 [0] [two] false = Ok A1
    /\ compress VectorOperation.insert A1 = Ok A2
    /\ element A2 0 0 false = Ok (Number_add one two).
Proof.
  destruct (set_compress_element editable_1x1 0 1 [0] [two] false
              VectorOperation.insert 0 false 0)
    as [A1 [A2 [H1 [H2 H3]]]].
  - reflexivity.
  - vm_compute. split; [discriminate | reflexivity].
  - lia.
  - discriminate.
  - repeat constructor.
  - reflexivity.
  - simpl. lia.
  - vm_compute. discriminate.
  - exists A1, A2. repeat split; assumption.
Defined.

Lemma ascending_columns (r1 : list (Z * Number)) :
  forall r2 : list (Z * Number),
    map fst r1 = map fst r2 -> ascending r1 -> ascending r2.
Proof.
  induction r1 as [ | cv r1 IH]; intros [ | cv' r2] Hmap Hasc;
    try discriminate; [exact I | ].
  cbn [map] in Hmap. injection Hmap as Hc Hrest.
  cbn [ascending] in *. destruct Hasc as [Hall Hasc]. split.
  - rewrite <- Hc.
    assert (Hcols : Forall (fun c => fst cv < c) (map fst r2)).
    { rewrite <- Hrest. rewrite Forall_forall in *. intros c Hin.
      apply in_map_iff in Hin. destruct Hin as [x [<- Hin]]. exact (Hall x Hin). }
    rewrite Forall_forall in *. intros x Hin. apply Hcols, in_map, Hin.
  - exact (IH r2 Hrest Hasc).
Qed.

Lemma total_ascending (row : list (Z * Number)) (j : Z) :
  ascending row -> total j row = CrsMatrix.entry_of j row.
Proof.
  intros Hasc. rewrite <- entry_of_sort_and_merge.
  rewrite (sort_and_merge_fixed row Hasc). reflexivity.
Qed.

(** X4.  Replace, compress, look up.  On a matrix with a static graph, for
    an owned row whose stored columns ascend, [set] followed by [compress]
    makes [element] return, for a column of the column map that the row
    stores, the value of the last surviving entry supplied for the column,
    or the former value if none was supplied; a column that the row does not
    store stays absent, whatever was supplied for it: the supplied value is
    dropped without an error. *)
Theorem set_static_compress_element :
  forall (A : SparseMatrix) (row n_cols : Z) (col_indices : list Z)
         (values : list Number) (elide_zero_values : bool)
         (op : VectorOperation.values) (j : Z) (tolerant : bool) (l : nat),
    let kept := surviving_entries elide_zero_values n_cols col_indices values in
    CrsMatrix.isStaticGraph (matrix A) = true ->
    0 <= row < m A ->
    0 <= n_cols ->
    (elide_zero_values = true ->
     Forall (fun cv => is_finite (snd cv) = true)
            (supplied_entries n_cols col_indices values)) ->
    Map.getLocalElement (CrsMatrix.getRowMap (matrix A)) row = Z.of_nat l ->
    (l < length (CrsMatrix.rows (matrix A)))%nat ->
    ascending (nth l (CrsMatrix.rows (matrix A)) []) ->
    Map.getLocalElement (CrsMatrix.getColMap (matrix A)) j <> invalid ->
    exists A1 A2,
      set A row n_cols col_indices values elide_zero_values = Ok A1
      /\ compress op A1 = Ok A2
      /\ element A2 row j tolerant
         = lookup_result row j tolerant
             (option_map (last_value j kept)
                (CrsMatrix.entry_of j (nth l (CrsMatrix.rows (matrix A)) []))).
Proof.
  intros A row n_cols col_indices values elide op j tolerant l kept
    Hst Hrow Hn Hfin Hl Hlt Hasc Hj.
  destruct (resume_if_filled_editable A) as [_ Hf1].
  destruct (resume_if_filled_frame A) as [_ [Hrows [_ [_ [Hrm Hcm]]]]].
  rewrite (set_unfolded A row n_cols col_indices values elide Hrow Hn Hfin).
  fold kept. rewrite Hst. cbn [negb].
  rewrite (replaceGlobalValues_owned _ row l kept);
    [ | exact Hf1 | rewrite Hrm; exact Hl ].
  eexists.
  destruct (compress_then_element
              (mkSparseMatrix (column_space_map A)
                 (CrsMatrix.with_rows
                    (update_row (Z.of_nat l)
                       (fun r => fold_left
                                   (fun acc cv =>
                                      CrsMatrix.replace_at (fst cv) (snd cv) acc)
                                   kept r)
                       (CrsMatrix.rows (matrix (resume_if_filled A))))
                    (matrix (resume_if_filled A))) false)
              op row j l tolerant)
    as [A2 [Hcompress Helement]]; cbn [compressed matrix CrsMatrix.with_rows
      CrsMatrix.isFillComplete CrsMatrix.getRowMap CrsMatrix.getColMap];
    [reflexivity | exact Hf1 | rewrite Hrm; exact Hl | rewrite Hcm; exact Hj | ].
  exists A2. split; [reflexivity | ]. split; [exact Hcompress | ].
  rewrite Helement. cbn [matrix CrsMatrix.with_rows CrsMatrix.rows].
  rewrite Hrows, nth_update_row by exact Hlt.
  rewrite Nat2Z.id, Nat.eqb_refl.
  rewrite total_ascending
    by (apply (ascending_columns (nth l (CrsMatrix.rows (matrix A)) []));
        [symmetry; apply fold_replace_at_columns | exact Hasc]).
  rewrite fold_replace_at_entry_of. reflexivity.
Qed.

Lemma set_static_compress_element_witness :
  exists A1 A2,
    set example_matrix 0 2 [1; 0] [two; zero] true = Ok A1
    /\ compress VectorOperation.insert A1 = Ok A2
    /\ element A2 0 1 false = Ok two
    /\ element A2 0 0 false = Ok one.
Proof.
  destruct (set_static_compress_element example_matrix 0 2 [1; 0] [two; zero] true
              VectorOperation.insert 1 false 0)
    as [A1 [A2 [H1 [H2 H3]]]].
  - reflexivity.
  - vm_compute. split; [discriminate | reflexivity].
  - lia.
  - intros _. repeat constructor.
  - reflexivity.
  - simpl. lia.
  - simpl. repeat constructor.
  - vm_compute. discriminate.
  - exists A1, A2. split; [exact H1 | ]. split; [exact H2 | ].
    split; [exact H3 | ].
    vm_compute in H1. injection H1 as <-.
    vm_compute in H2. injection H2 as <-. reflexivity.
Defined.

(** ** Adding with [add] *)

Lemma filter_map_length {T U : Type} (f : T -> U) (p : U -> bool) (l : list T) :
  length (filter p (map f l)) = length (filter (fun x => p (f x)) l).
Proof.
  induction l as [ | x l IH]; simpl; [reflexivity | ].
  destruct (p (f x)); simpl; rewrite IH; reflexivity.
Qed.

Lemma filter_partition_length {T : Type} (p : T -> bool) (l : list T) :
  (length (filter p l) + length (filter (fun x => negb (p x)) l) = length l)%nat.
Proof.
  induction l as [ | x l IH]; simpl; [reflexivity | ].
  destruct (p x); simpl; lia.
Qed.

(** The copy loop of [add] that skips zeros stops at the assertion on its
    write position as soon as it has to write more values than
    [n_zero_entries]. *)
Lemma add_copy_nonzero_overflow (remaining : nat) :
  forall (i : nat) (n n_zero_entries : Z) (col_indices : list Z)
         (values : list Number) (ia : list Z) (va : list Number),
    Z.of_nat (length ia) <= n_zero_entries ->
    n_zero_entries
    < Z.of_nat (length ia)
      + Z.of_nat (length (filter (fun k => Number_neb (nth k values zero) zero)
                                 (seq i remaining))) ->
    aborts (add_copy_nonzero remaining i n n_zero_entries col_indices values ia va).
Proof.
  induction remaining as [ | remaining IH]; intros i n nz cols vals ia va Hle Hlt.
  - simpl in Hlt. lia.
  - cbn [add_copy_nonzero]. cbn [seq filter] in Hlt.
    destruct (Number_neb (nth i vals zero) zero) eqn:Hnz.
    + apply bind_aborts_each. intros _ _.
      apply bind_aborts_each. intros _ _.
      unfold AssertIndexRange at 1. unfold Assert.
      destruct ((0 <=? Z.of_nat (length ia)) && (Z.of_nat (length ia) <? nz)) eqn:Hr.
      * cbn [bind]. apply andb_true_iff in Hr. destruct Hr as [_ Hr].
        apply Z.ltb_lt in Hr. apply IH.
        -- rewrite length_app. simpl. lia.
        -- rewrite length_app. simpl in *. lia.
      * cbn [bind]. eexists. reflexivity.
    + apply IH; assumption.
Qed.

(** X5.  With [elide_zero_values], [add] is fatal whenever fewer than half
    of the [n_cols] values are zero: the copy loop checks its write position
    against the number of zeros, not against the number of values it keeps.
    In particular a call that supplies nonzero values only is fatal. *)
Theorem add_with_elision_needs_zeros :
  forall (A : SparseMatrix) (row n_cols : Z) (col_indices : list Z)
         (values : list Number) (col_indices_are_sorted : bool),
    2 * count_zeros n_cols values < n_cols ->
    aborts (add A row n_cols col_indices values true col_indices_are_sorted).
Proof.
  intros A row n_cols cols vals sorted Hfew.
  assert (Hpart := filter_partition_length (fun v => Number_eqb v zero)
                     (read_array zero vals (Z.to_nat n_cols))).
  rewrite read_array_length in Hpart.
  assert (Hz : 0 <= count_zeros n_cols vals) by (unfold count_zeros; lia).
  unfold add. apply bind_aborts_each. intros _ _.
  replace (count_zeros n_cols vals =? n_cols) with false
    by (symmetry; apply Z.eqb_neq; lia).
  apply aborts_bind. apply add_copy_nonzero_overflow; [exact Hz | ].
  unfold count_zeros in *. unfold read_array in Hpart.
  rewrite !filter_map_length in Hpart. unfold read_array in Hfew |- *.
  rewrite filter_map_length in Hfew |- *.
  unfold Number_neb, Number_eqb in *. simpl length at 1. lia.
Qed.

Lemma add_with_elision_needs_zeros_witness :
  aborts (add editable_1x1 0 1 [0] [one] true false).
Proof.
  apply add_with_elision_needs_zeros. vm_compute. reflexivity.
Defined.

Lemma sum_at_columns (c : Z) (v : Number) (row : list (Z * Number)) :
  map fst (CrsMatrix.sum_at c v row) = map fst row.
Proof.
  induction row as [ | [c' v'] row IH]; simpl; [reflexivity | ].
  destruct (c' =? c); simpl; [ | rewrite IH]; reflexivity.
Qed.

Lemma fold_sum_at_columns (cvs row : list (Z * Number)) :
  map fst (fold_left (fun acc cv => CrsMatrix.sum_at (fst cv) (snd cv) acc) cvs row)
  = map fst row.
Proof.
  revert row. induction cvs as [ | cv cvs IH]; intros row; simpl; [reflexivity | ].
  rewrite IH. apply sum_at_columns.
Qed.

Lemma sum_at_entry_of (c : Z) (v : Number) (row : list (Z * Number)) (c' : Z) :
  CrsMatrix.entry_of c' (CrsMatrix.sum_at c v row)
  = if c =? c' then option_map (fun v0 => Number_add v0 v) (CrsMatrix.entry_of c row)
    else CrsMatrix.entry_of c' row.
Proof.
  induction row as [ | [c0 v0] row IH]; simpl.
  - destruct (c =? c'); reflexivity.
  - destruct (c0 =? c) eqn:E0; simpl.
    + apply Z.eqb_eq in E0. subst c0. destruct (c =? c'); reflexivity.
    + rewrite IH. destruct (c0 =? c') eqn:E1; [ | reflexivity].
      apply Z.eqb_eq in E1. subst c0. rewrite Z.eqb_sym, E0. reflexivity.
Qed.

Lemma fold_sum_at_entry_of (entries : list (Z * Number)) :
  forall (row : list (Z * Number)) (c : Z),
    CrsMatrix.entry_of c
      (fold_left (fun acc cv => CrsMatrix.sum_at (fst cv) (snd cv) acc) entries row)
    = option_map (summed_value c entries) (CrsMatrix.entry_of c row).
Proof.
  induction entries as [ | [cc vv] entries IH]; intros row c; simpl.
  - destruct (CrsMatrix.entry_of c row); reflexivity.
  - rewrite IH, sum_at_entry_of. unfold summed_value. simpl.
    destruct (cc =? c) eqn:E.
    + apply Z.eqb_eq in E. subst cc.
      destruct (CrsMatrix.entry_of c row); reflexivity.
    + reflexivity.
Qed.

Lemma sumIntoGlobalValues_structure (globalRow : Z) (inds : list Z)
  (vals : list Number) (M : CrsMatrix.t) :
  map (map fst) (CrsMatrix.rows (CrsMatrix.sumIntoGlobalValues globalRow inds vals M))
  = map (map fst) (CrsMatrix.rows M).
Proof.
  unfold CrsMatrix.sumIntoGlobalValues.
  destruct (CrsMatrix.isFillComplete M); [reflexivity | ].
  destruct (Map.getLocalElement (CrsMatrix.getRowMap M) globalRow =? invalid);
    [reflexivity | ].
  cbn [CrsMatrix.with_rows CrsMatrix.rows].
  apply update_row_columns. intros r. apply fold_sum_at_columns.
Qed.

(** [add] keeps the columns of every row. *)
Lemma add_columns :
  forall (A : SparseMatrix) (row n_cols : Z) (col_indices : list Z)
         (values : list Number) (elide_zero_values col_indices_are_sorted : bool)
         (A' : SparseMatrix),
    add A row n_cols col_indices values elide_zero_values col_indices_are_sorted
    = Ok A' ->
    map (map fst) (CrsMatrix.rows (matrix A'))
    = map (map fst) (CrsMatrix.rows (matrix A)).
Proof.
  intros A row n_cols cols vals elide sorted A' Hadd.
  destruct (resume_if_filled_frame A) as [_ [Hrows _]].
  unfold add in Hadd. apply bind_Ok in Hadd. destruct Hadd as [_ [_ Hadd]].
  cbv zeta in Hadd.
  destruct ((if elide then count_zeros n_cols vals else 0) =? n_cols).
  - injection Hadd as <-. rewrite Hrows. reflexivity.
  - apply bind_Ok in Hadd. destruct Hadd as [cv [_ Hadd]].
    injection Hadd as <-. cbn [matrix].
    rewrite sumIntoGlobalValues_structure, Hrows. reflexivity.
Qed.

(** X6.  [add] never changes the structure of the locally owned rows: every
    row stores the same columns, in the same order, after a successful call
    as before it, whether zeros are elided or not and whether the graph is
    static or not.  A value supplied for a position that the row does not
    store is dropped without an error. *)
Theorem add_keeps_structure :
  forall (A : SparseMatrix) (row n_cols : Z) (col_indices : list Z)
         (values : list Number) (elide_zero_values col_indices_are_sorted : bool)
         (A' : SparseMatrix),
    add A row n_cols col_indices values elide_zero_values col_indices_are_sorted
    = Ok A' ->
    map (map fst) (CrsMatrix.rows (matrix A'))
    = map (map fst) (CrsMatrix.rows (matrix A)).
Proof. exact add_columns. Qed.

Lemma add_keeps_structure_witness :
  exists A',
    add example_matrix 0 2 [0; 1] [one; two] false false = Ok A'
    /\ map (map fst) (CrsMatrix.rows (matrix A')) = [[0; 1]; [1]].
Proof.
  eexists. split; [vm_compute; reflexivity | ].
  apply (add_keeps_structure example_matrix 0 2 [0; 1] [one; two] false false).
  vm_compute. reflexivity.
Defined.

Lemma add_copy_all_Ok (remaining : nat) :
  forall (i : nat) (n : Z) (col_indices : list Z) (values : list Number)
         (ia : list Z) (va : list Number),
    Forall (fun cv => is_finite (snd cv) = true /\ 0 <= fst cv < n)
           (entries_from i remaining col_indices values) ->
    add_copy_all remaining i n col_indices values ia va
    = Ok (ia ++ map fst (entries_from i remaining col_indices values),
          va ++ map snd (entries_from i remaining col_indices values)).
Proof.
  induction remaining as [ | remaining IH]; intros i n cols vals ia va Hall.
  - simpl. rewrite !app_nil_r. reflexivity.
  - unfold entries_from in *. cbn [seq map] in *.
    inversion Hall as [ | x l [Hfin Hrange] Hl]; subst.
    cbn [fst snd] in Hfin, Hrange. cbn [add_copy_all].
    unfold AssertIsFinite, Assert. rewrite Hfin. cbn [bind].
    rewrite (AssertIndexRange_Ok _ _ Hrange). cbn [bind].
    rewrite IH by exact Hl. cbn [fst snd]. rewrite <- !app_assoc. reflexivity.
Qed.

Lemma add_all_owned (A : SparseMatrix) (row n_cols : Z) (col_indices : list Z)
  (values : list Number) (col_indices_are_sorted : bool) (l : nat) :
  0 <= row < m A ->
  0 <= n_cols ->
  Forall (fun cv => is_finite (snd cv) = true /\ 0 <= fst cv < n A)
         (supplied_entries n_cols col_indices values) ->
  Map.getLocalElement (CrsMatrix.getRowMap (matrix A)) row = Z.of_nat l ->
  (l < length (CrsMatrix.rows (matrix A)))%nat ->
  exists A1,
    add A row n_cols col_indices values false col_indices_are_sorted = Ok A1
    /\ compressed A1 = false
    /\ CrsMatrix.isFillComplete (matrix A1) = false
    /\ CrsMatrix.getRowMap (matrix A1) = CrsMatrix.getRowMap (matrix A)
    /\ CrsMatrix.getColMap (matrix A1) = CrsMatrix.getColMap (matrix A)
    /\ nth l (CrsMatrix.rows (matrix A1)) []
       = fold_left (fun acc cv => CrsMatrix.sum_at (fst cv) (snd cv) acc)
                   (supplied_entries n_cols col_indices values)
                   (nth l (CrsMatrix.rows (matrix A)) []).
Proof.
  intros Hrow Hn Hall Hl Hlt.
  destruct (resume_if_filled_editable A) as [Hc1 Hf1].
  destruct (resume_if_filled_frame A) as [Hcol [Hrows [_ [_ [Hrm Hcm]]]]].
  unfold add. rewrite (AssertIndexRange_Ok _ _ Hrow). cbn [bind]. cbv zeta.
  destruct (0 =? n_cols) eqn:Hzero.
  - apply Z.eqb_eq in Hzero. subst n_cols.
    exists (resume_if_filled A). repeat split; try assumption.
    rewrite Hrows. reflexivity.
  - rewrite supplied_entries_from in Hall |- *.
    rewrite (add_copy_all_Ok (Z.to_nat n_cols) 0 (n (resume_if_filled A))
               col_indices values [] [])
      by (unfold n; rewrite Hcol; exact Hall).
    cbn [bind fst snd app]. eexists. split; [reflexivity | ].
    cbn [compressed matrix]. unfold CrsMatrix.sumIntoGlobalValues.
    rewrite Hf1, Hrm, Hl, combine_fst_snd.
    replace (Z.of_nat l =? invalid) with false
      by (symmetry; apply Z.eqb_neq; unfold invalid; lia).
    cbn [CrsMatrix.with_rows CrsMatrix.isFillComplete CrsMatrix.getRowMap
           CrsMatrix.getColMap CrsMatrix.rows].
    repeat split; try assumption.
    rewrite Hrows, nth_update_row by exact Hlt.
    rewrite Nat2Z.id, Nat.eqb_refl. reflexivity.
Qed.

(** X7.  Add, compress, look up.  For an owned row whose stored columns
    ascend, [add] without elision followed by [compress] makes [element]
    return, for a column of the column map that the row stores, the former
    value with the values supplied for the column added in the order of the
    call; a column that the row does not store stays absent. *)
Theorem add_compress_element :
  forall (A : SparseMatrix) (row n_cols : Z) (col_indices : list Z)
         (values : list Number) (col_indices_are_sorted : bool)
         (op : VectorOperation.values) (j : Z) (tolerant : bool) (l : nat),
    0 <= row < m A ->
    0 <= n_cols ->
    Forall (fun cv => is_finite (snd cv) = true /\ 0 <= fst cv < n A)
           (supplied_entries n_cols col_indices values) ->
    Map.getLocalElement (CrsMatrix.getRowMap (matrix A)) row = Z.of_nat l ->
    (l < length (CrsMatrix.rows (matrix A)))%nat ->
    ascending (nth l (CrsMatrix.rows (matrix A)) []) ->
    Map.getLocalElement (CrsMatrix.getColMap (matrix A)) j <> invalid ->
    exists A1 A2,
      add A row n_cols col_indices values false col_indices_are_sorted = Ok A1
      /\ compress op A1 = Ok A2
      /\ element A2 row j tolerant
         = lookup_result row j tolerant
             (option_map
                (summed_value j (supplied_entries n_cols col_indices values))
                (CrsMatrix.entry_of j (nth l (CrsMatrix.rows (matrix A)) []))).
Proof.
  intros A row n_cols cols vals sorted op j tolerant l
    Hrow Hn Hall Hl Hlt Hasc Hj.
  destruct (add_all_owned A row n_cols cols vals sorted l Hrow Hn Hall Hl Hlt)
    as [A1 [Hadd [Hc1 [Hf1 [Hrm [Hcm Hnth]]]]]].
  destruct (compress_then_element A1 op row j l tolerant)
    as [A2 [Hcompress Helement]];
    [exact Hc1 | exact Hf1 | rewrite Hrm; exact Hl | rewrite Hcm; exact Hj | ].
  exists A1, A2. split; [exact Hadd | ]. split; [exact Hcompress | ].
  rewrite Helement, Hnth.
  rewrite total_ascending
    by (apply (ascending_columns (nth l (CrsMatrix.rows (matrix A)) []));
        [symmetry; apply fold_sum_at_columns | exact Hasc]).
  rewrite fold_sum_at_entry_of. reflexivity.
Qed.

Lemma add_compress_element_witness :
  exists A1 A2,
    add example_matrix 0 2 [1; 1] [one; two] false false = Ok A1
    /\ compress VectorOperation.add A1 = Ok A2
    /\ element A2 0 1 false = Ok (Number_add (Number_add one one) two).
Proof.
  destruct (add_compress_element example_matrix 0 2 [1; 1] [one; two] false
              VectorOperation.add 1 false 0)
    as [A1 [A2 [H1 [H2 H3]]]].
  - vm_compute. split; [discriminate | reflexivity].
  - lia.
  - repeat constructor; vm_compute; discriminate.
  - reflexivity.
  - simpl. lia.
  - simpl. repeat constructor.
  - vm_compute. discriminate.
  - exists A1, A2. repeat split; assumption.
Defined.

(** ** Reading between a write and [compress] *)

Lemma reads_need_fill_complete (A : SparseMatrix) :
  CrsMatrix.isFillComplete (matrix A) = false ->
  (forall (vectors : Store Vector) (dst src : address),
      aborts (vmult A vectors dst src) /\ aborts (Tvmult A vectors dst src)
      /\ aborts (vmult_add A vectors dst src)
      /\ aborts (Tvmult_add A vectors dst src))
  /\ frobenius_norm A = Abort ExcMatrixNotCompressed
  /\ (forall (i j : Z) (tolerant : bool),
         Map.getLocalElement (CrsMatrix.getRowMap (matrix A)) i <> invalid ->
         Map.getLocalElement (CrsMatrix.getColMap (matrix A)) j <> invalid ->
         element A i j tolerant = Abort ExcMatrixNotCompressed).
Proof.
  intros Hf. split; [ | split].
  - intros vectors dst src.
    repeat split; apply product_aborts; rewrite Hf;
      destruct (negb (Nat.eqb src dst)); reflexivity.
  - unfold frobenius_norm. rewrite Hf. reflexivity.
  - intros i j tolerant Hi Hj. unfold element.
    apply Z.eqb_neq in Hi, Hj. rewrite Hi, Hj, Hf. reflexivity.
Qed.

(** X8.  After a successful [set] or [add] the matrix cannot be read until
    [compress] is called: each of the four products and [frobenius_norm] is
    fatal, and so is [element], tolerant or not, for a row and a column the
    process owns. *)
Theorem writes_block_reads :
  forall (A A' : SparseMatrix) (row n_cols : Z) (col_indices : list Z)
         (values : list Number) (elide_zero_values col_indices_are_sorted : bool),
    set A row n_cols col_indices values elide_zero_values = Ok A'
    \/ add A row n_cols col_indices values elide_zero_values col_indices_are_sorted
       = Ok A' ->
    (forall (vectors : Store Vector) (dst src : address),
        aborts (vmult A' vectors dst src) /\ aborts (Tvmult A' vectors dst src)
        /\ aborts (vmult_add A' vectors dst src)
        /\ aborts (Tvmult_add A' vectors dst src))
    /\ frobenius_norm A' = Abort ExcMatrixNotCompressed
    /\ (forall (i j : Z) (tolerant : bool),
           Map.getLocalElement (CrsMatrix.getRowMap (matrix A')) i <> invalid ->
           Map.getLocalElement (CrsMatrix.getColMap (matrix A')) j <> invalid ->
           element A' i j tolerant = Abort ExcMatrixNotCompressed).
Proof.
  intros A A' row n_cols cols vals elide sorted Hwrite.
  apply reads_need_fill_complete.
  destruct Hwrite as [Hset | Hadd].
  - exact (proj2 (set_leaves_editable _ _ _ _ _ _ _ Hset)).
  - exact (proj2 (add_leaves_editable _ _ _ _ _ _ _ _ Hadd)).
Qed.

Lemma writes_block_reads_witness :
  exists A',
    set finalized_1x1 0 1 [0] [two] false = Ok A'
    /\ frobenius_norm finalized_1x1 = Ok one
    /\ frobenius_norm A' = Abort ExcMatrixNotCompressed
    /\ el A' 0 0 = Abort ExcMatrixNotCompressed.
Proof.
  eexists. split; [vm_compute; reflexivity | ].
  split; [vm_compute; reflexivity | ].
  destruct (writes_block_reads finalized_1x1 _ 0 1 [0] [two] false false
              (or_introl eq_refl)) as [_ [Hnorm Helement]].
  split; [exact Hnorm | ].
  apply Helement; vm_compute; discriminate.
Defined.

(** ** Scalar assignment and scaling *)

Lemma fill_flag_sound_editable (A : SparseMatrix) :
  fill_flag_sound A -> compressed A = false ->
  CrsMatrix.isFillComplete (matrix A) = false.
Proof.
  intros Hsound Hc.
  destruct (CrsMatrix.isFillComplete (matrix A)) eqn:Hf; [ | reflexivity].
  rewrite (Hsound Hf) in Hc. discriminate.
Qed.

(** The matrix that [operator=], [operator*=] and [operator/=] pass to
    Tpetra after their first step. *)
Lemma resumed_fill_active (A : SparseMatrix) :
  fill_flag_sound A ->
  let A1 :=
    if compressed A then
      mkSparseMatrix (column_space_map A) (CrsMatrix.resumeFill (matrix A)) false
    else A in
  CrsMatrix.isFillComplete (matrix A1) = false
  /\ compressed A1 = false
  /\ CrsMatrix.rows (matrix A1) = CrsMatrix.rows (matrix A)
  /\ column_space_map A1 = column_space_map A.
Proof.
  intros Hsound. cbv zeta. destruct (compressed A) eqn:Hc.
  - repeat split.
  - repeat split; try assumption.
    apply fill_flag_sound_editable; assumption.
Qed.

Lemma map_map_columns {T : Type} (f : Z * T -> T) (rs : list (list (Z * T))) :
  map (map fst) (map (map (fun cv => (fst cv, f cv))) rs) = map (map fst) rs.
Proof.
  rewrite map_map. apply map_ext. intros r. rewrite map_map. reflexivity.
Qed.

(** X9.  [operator=(d)]: when [d] compares equal to zero, every stored value
    becomes zero, the structure stays, and the matrix is left Editable, also
    when it was Finalized before the call: it has to be compressed again
    before it is read.  Any other [d], NaN included, is refused. *)
Theorem operator_assign_zeroes_and_leaves_editable :
  forall (A : SparseMatrix) (d : Number),
    fill_flag_sound A ->
    (Number_eqb d zero = true ->
       exists A',
         operator_assign A d = Done A'
         /\ editable A'
         /\ all_zero (matrix A')
         /\ map (map fst) (CrsMatrix.rows (matrix A'))
            = map (map fst) (CrsMatrix.rows (matrix A)))
    /\ (Number_eqb d zero = false ->
          operator_assign A d = Failed ExcScalarAssignmentOnlyForZeroValue).
Proof.
  intros A d Hsound. unfold operator_assign. split; intros Hd; rewrite Hd;
    [ | reflexivity].
  destruct (resumed_fill_active A Hsound) as [Hf1 [Hc1 [Hrows _]]].
  cbv zeta in Hf1, Hc1, Hrows |- *. unfold CrsMatrix.setAllToScalar.
  rewrite Hf1. cbn [bind outcome]. eexists. split; [reflexivity | ].
  unfold editable, all_zero.
  cbn [compressed matrix CrsMatrix.with_rows CrsMatrix.isFillComplete CrsMatrix.rows].
  rewrite Hrows. repeat split; try assumption.
  - apply Forall_forall. intros r Hr. apply in_map_iff in Hr.
    destruct Hr as [r0 [<- _]]. apply Forall_forall. intros cv Hcv.
    apply in_map_iff in Hcv. destruct Hcv as [cv0 [<- _]]. reflexivity.
  - apply (map_map_columns (fun _ => zero)).
Qed.

Lemma operator_assign_zeroes_and_leaves_editable_witness :
  exists A',
    operator_assign example_matrix zero = Done A'
    /\ editable A'
    /\ CrsMatrix.rows (matrix A') = [[(0, zero); (1, zero)]; [(1, zero)]].
Proof.
  destruct (operator_assign_zeroes_and_leaves_editable example_matrix zero)
    as [Hzero _]; [intros _; reflexivity | ].
  destruct (Hzero eq_refl) as [A' [Hop [Hed _]]].
  exists A'. split; [exact Hop | ]. split; [exact Hed | ].
  vm_compute in Hop. injection Hop as <-. reflexivity.
Defined.

Lemma scaled_row_columns (a : Number) (row : list (Z * Number)) :
  map fst (scaled_row a row) = map fst row.
Proof. unfold scaled_row. rewrite map_map. reflexivity. Qed.

Lemma fillComplete0_Ok (M : CrsMatrix.t) :
  CrsMatrix.isFillComplete M = false ->
  exists M',
    CrsMatrix.fillComplete0 M = Ok M'
    /\ CrsMatrix.isFillComplete M' = true
    /\ CrsMatrix.rows M' = map sort_and_merge (CrsMatrix.rows M).
Proof.
  intros Hf. unfold CrsMatrix.fillComplete0, CrsMatrix.fillComplete.
  rewrite Hf. destruct (CrsMatrix.isStaticGraph M); eexists; repeat split.
Qed.

(** Scaling, then completing the fill: what [operator*=] and [operator/=]
    share. *)
Lemma scale_and_complete (A : SparseMatrix) (a : Number) :
  fill_flag_sound A ->
  Forall ascending (CrsMatrix.rows (matrix A)) ->
  exists A',
    operator_times_assign A a = Ok A'
    /\ finalized A'
    /\ CrsMatrix.rows (matrix A') = map (scaled_row a) (CrsMatrix.rows (matrix A)).
Proof.
  intros Hsound Hasc. unfold operator_times_assign.
  destruct (resumed_fill_active A Hsound) as [Hf1 [_ [Hrows _]]].
  cbv zeta in Hf1, Hrows |- *. unfold CrsMatrix.scale. rewrite Hf1. cbn [bind].
  match goal with
  | |- context [CrsMatrix.fillComplete0 ?M] =>
      destruct (fillComplete0_Ok M Hf1) as [M' [Hfc [Hf' Hrows']]]
  end.
  rewrite Hfc. cbn [bind]. eexists. split; [reflexivity | ].
  unfold finalized. cbn [compressed matrix]. repeat split; [exact Hf' | ].
  rewrite Hrows'. cbn [CrsMatrix.with_rows CrsMatrix.rows]. rewrite Hrows.
  apply map_sort_and_merge_fixed. apply Forall_forall. intros r Hr.
  apply in_map_iff in Hr. destruct Hr as [r0 [<- Hin]].
  apply (ascending_columns r0); [symmetry; apply scaled_row_columns | ].
  rewrite Forall_forall in Hasc. exact (Hasc r0 Hin).
Qed.

(** X10.  [operator*=(a)] multiplies every stored value by [a], keeps the
    structure, and leaves the matrix Finalized, also when it was Editable
    before the call (with rows whose columns ascend): unlike [operator=] it
    completes the fill itself. *)
Theorem operator_times_assign_scales_and_finalizes :
  forall (A : SparseMatrix) (a : Number),
    fill_flag_sound A ->
    Forall ascending (CrsMatrix.rows (matrix A)) ->
    exists A',
      operator_times_assign A a = Ok A'
      /\ finalized A'
      /\ CrsMatrix.rows (matrix A') = map (scaled_row a) (CrsMatrix.rows (matrix A)).
Proof. exact scale_and_complete. Qed.

Lemma operator_times_assign_scales_and_finalizes_witness :
  exists A',
    operator_times_assign editable_1x1 two = Ok A'
    /\ finalized A'
    /\ CrsMatrix.rows (matrix A') = [[(0, two)]].
Proof.
  destruct (operator_times_assign_scales_and_finalizes editable_1x1 two)
    as [A' [Hop [Hfin Hrows]]].
  - intros Hf. discriminate Hf.
  - repeat constructor.
  - exists A'. split; [exact Hop | ]. split; [exact Hfin | ].
    rewrite Hrows. vm_compute. reflexivity.
Defined.

(** X11.  [operator/=(a)] refuses a divisor that compares equal to zero,
    [-0.0] included; for any other divisor, NaN and the infinities included,
    it multiplies every stored value by the rounded reciprocal [1.0 / a],
    keeps the structure, and leaves the matrix Finalized. *)
Theorem operator_divide_assign_multiplies_by_reciprocal :
  forall (A : SparseMatrix) (a : Number),
    fill_flag_sound A ->
    Forall ascending (CrsMatrix.rows (matrix A)) ->
    (Number_neb a zero = true ->
       exists A',
         operator_divide_assign A a = Done A'
         /\ finalized A'
         /\ CrsMatrix.rows (matrix A')
            = map (scaled_row (SFdiv prec emax one a)) (CrsMatrix.rows (matrix A)))
    /\ (Number_neb a zero = false ->
          operator_divide_assign A a = Failed ExcDivideByZero).
Proof.
  intros A a Hsound Hasc. unfold operator_divide_assign.
  split; intros Ha; rewrite Ha; [ | reflexivity].
  destruct (scale_and_complete A (SFdiv prec emax one a) Hsound Hasc)
    as [A' [Hop [Hfin Hrows]]].
  unfold operator_times_assign in Hop. cbv zeta in Hop |- *. rewrite Hop.
  exists A'. repeat split; try assumption; apply Hfin.
Qed.

Lemma operator_divide_assign_multiplies_by_reciprocal_witness :
  (exists A',
      operator_divide_assign example_matrix NaN = Done A'
      /\ CrsMatrix.rows (matrix A') = [[(0, NaN); (1, NaN)]; [(1, NaN)]])
  /\ operator_divide_assign example_matrix (S754_zero true)
     = Failed ExcDivideByZero.
Proof.
  destruct (operator_divide_assign_multiplies_by_reciprocal example_matrix NaN)
    as [Hnan _]; [intros _; reflexivity | repeat constructor | ].
  destruct (Hnan eq_refl) as [A' [Hop [_ Hrows]]].
  split; [ | reflexivity].
  exists A'. split; [exact Hop | ]. rewrite Hrows. vm_compute. reflexivity.
Defined.

(** ** Matrices without values *)

Lemma insert_entry_zero (c : Z) (row : list (Z * Number)) :
  Forall (fun cv => snd cv = zero) row ->
  Forall (fun cv => snd cv = zero) (insert_entry c zero row).
Proof.
  induction row as [ | [c' v'] row IH]; intros Hall; cbn [insert_entry].
  - repeat constructor.
  - inversion Hall as [ | x l Hx Hl]; subst. cbn [snd] in Hx. subst v'.
    destruct (c <? c'); [constructor; [reflexivity | exact Hall] | ].
    destruct (c =? c'); constructor; try reflexivity; auto.
Qed.

Lemma sort_and_merge_zero (row : list (Z * Number)) :
  Forall (fun cv => snd cv = zero) row ->
  Forall (fun cv => snd cv = zero) (sort_and_merge row).
Proof.
  unfold sort_and_merge.
  assert (H : forall acc : list (Z * Number),
             Forall (fun cv => snd cv = zero) acc ->
             Forall (fun cv => snd cv = zero) row ->
             Forall (fun cv => snd cv = zero)
               (fold_left (fun acc cv => insert_entry (fst cv) (snd cv) acc) row acc)).
  { induction row as [ | [c v] row IH]; intros acc Hacc Hrow; cbn [fold_left];
      [exact Hacc | ].
    inversion Hrow as [ | x l Hx Hl]; subst. cbn [fst snd] in *. subst v.
    apply IH; [apply insert_entry_zero; exact Hacc | exact Hl]. }
  apply H. constructor.
Qed.

Lemma entry_of_In (c : Z) (row : list (Z * Number)) (v : Number) :
  CrsMatrix.entry_of c row = Some v -> In (c, v) row.
Proof.
  induction row as [ | [c' v'] row IH]; cbn [CrsMatrix.entry_of]; [discriminate | ].
  destruct (c' =? c) eqn:E.
  - apply Z.eqb_eq in E. subst c'. intros [= ->]. left. reflexivity.
  - intros H. right. exact (IH H).
Qed.

Lemma all_zero_el (A : SparseMatrix) :
  CrsMatrix.isFillComplete (matrix A) = true ->
  all_zero (matrix A) ->
  forall i j : Z, el A i j = Ok zero.
Proof.
  intros Hf Hzero i j. unfold el.
  destruct ((Map.getLocalElement (CrsMatrix.getRowMap (matrix A)) i =? invalid)
            || (Map.getLocalElement (CrsMatrix.getColMap (matrix A)) j =? invalid))
    eqn:Hlocal.
  - unfold element. rewrite Hlocal. reflexivity.
  - apply orb_false_iff in Hlocal. destruct Hlocal as [Hi Hj].
    apply Z.eqb_neq in Hi, Hj. rewrite (element_lookup A i j true Hi Hj Hf).
    destruct (CrsMatrix.entry_of j _) as [v | ] eqn:Hentry; [ | reflexivity].
    cbn [lookup_result]. apply entry_of_In in Hentry.
    unfold CrsMatrix.local_row in Hentry.
    destruct (nth_in_or_default
                (Z.to_nat (Map.getLocalElement (CrsMatrix.getRowMap (matrix A)) i))
                (CrsMatrix.rows (matrix A)) []) as [Hin | Hnil].
    + unfold all_zero in Hzero. rewrite Forall_forall in Hzero.
      specialize (Hzero _ Hin). rewrite Forall_forall in Hzero.
      specialize (Hzero _ Hentry). cbn [snd] in Hzero. rewrite Hzero. reflexivity.
    + rewrite Hnil in Hentry. destruct Hentry.
Qed.

Lemma all_zero_getFrobeniusNorm (M : CrsMatrix.t) :
  all_zero M -> CrsMatrix.getFrobeniusNorm M = zero.
Proof.
  unfold all_zero, CrsMatrix.getFrobeniusNorm. intros Hzero.
  assert (Hvalues : Forall (fun v => v = zero) (map snd (concat (CrsMatrix.rows M)))).
  { apply Forall_forall. intros v Hv. apply in_map_iff in Hv.
    destruct Hv as [cv [<- Hcv]]. apply in_concat in Hcv.
    destruct Hcv as [r [Hr Hcv]]. rewrite Forall_forall in Hzero.
    specialize (Hzero r Hr). rewrite Forall_forall in Hzero. exact (Hzero cv Hcv). }
  assert (Hsum : fold_left (fun acc v => Number_add acc (Number_mul v v))
                   (map snd (concat (CrsMatrix.rows M))) zero = zero).
  { induction Hvalues as [ | v vs Hv _ IH]; cbn [fold_left]; [reflexivity | ].
    subst v. exact IH. }
  rewrite Hsum. reflexivity.
Qed.

Lemma all_zero_frobenius_norm (A : SparseMatrix) :
  CrsMatrix.isFillComplete (matrix A) = true ->
  all_zero (matrix A) ->
  frobenius_norm A = Ok zero.
Proof.
  intros Hf Hzero. unfold frobenius_norm. rewrite Hf. cbn [Assert bind].
  rewrite (all_zero_getFrobeniusNorm _ Hzero). reflexivity.
Qed.

(** X12.  A matrix that [reinit] takes from a sparsity pattern is Finalized
    and reads as the zero matrix: [el] returns zero for every pair of
    indices, stored or not, owned or not, and the Frobenius norm is zero. *)
Theorem reinit_from_pattern_reads_zero :
  forall (A0 A : SparseMatrix) (sparsity_pattern : SparsityPattern),
    reinit A0 sparsity_pattern = Ok A ->
    finalized A
    /\ (forall i j : Z, el A i j = Ok zero)
    /\ frobenius_norm A = Ok zero.
Proof.
  intros A0 A sp Hreinit. unfold reinit in Hreinit. cbv zeta in Hreinit.
  apply bind_Ok in Hreinit. destruct Hreinit as [M [Hgraph Hcompress]].
  unfold CrsMatrix.from_graph in Hgraph.
  destruct (CrsGraph.isFillComplete (trilinos_sparsity_pattern sp));
    [ | discriminate].
  injection Hgraph as <-.
  unfold compress, CrsMatrix.fillComplete in Hcompress.
  cbn [compressed matrix negb CrsMatrix.isFillComplete bind] in Hcompress.
  injection Hcompress as <-.
  assert (Hzero : all_zero
                    (matrix
                       (mkSparseMatrix (domain_partitioner sp)
                          (CrsMatrix.mk
                             (CrsGraph.getRowMap (trilinos_sparsity_pattern sp))
                             (CrsGraph.getColMap (trilinos_sparsity_pattern sp))
                             (domain_partitioner sp)
                             (CrsGraph.getRowMap (trilinos_sparsity_pattern sp))
                             true true
                             (map sort_and_merge
                                (map (map (fun c => (c, zero)))
                                   (CrsGraph.indices (trilinos_sparsity_pattern sp))))
                             [])
                          true))).
  { unfold all_zero. cbn [matrix CrsMatrix.rows]. apply Forall_forall.
    intros r Hr. apply in_map_iff in Hr. destruct Hr as [r0 [<- Hr0]].
    apply sort_and_merge_zero. apply in_map_iff in Hr0.
    destruct Hr0 as [cs [<- _]]. apply Forall_forall. intros cv Hcv.
    apply in_map_iff in Hcv. destruct Hcv as [c [<- _]]. reflexivity. }
  cbn [CrsMatrix.getRowMap CrsMatrix.getColMap CrsMatrix.getDomainMap
         CrsMatrix.getRangeMap CrsMatrix.isStaticGraph CrsMatrix.rows
         CrsMatrix.nonlocals column_space_map].
  split; [split; reflexivity | ]. split.
  - apply all_zero_el; [reflexivity | exact Hzero].
  - apply all_zero_frobenius_norm; [reflexivity | exact Hzero].
Qed.

Lemma reinit_from_pattern_reads_zero_witness :
  exists A,
    reinit editable_1x1 (mkSparsityPattern example_graph) = Ok A
    /\ el A 0 1 = Ok zero
    /\ el A 1 0 = Ok zero
    /\ frobenius_norm A = Ok zero.
Proof.
  eexists. split; [vm_compute; reflexivity | ].
  destruct (reinit_from_pattern_reads_zero editable_1x1 _
              (mkSparsityPattern example_graph) eq_refl) as [_ [Hel Hnorm]].
  split; [apply Hel | ]. split; [apply Hel | exact Hnorm].
Defined.

(** X13.  After [clear], [compress] does nothing: the flag is already set,
    the fill of the wrapped matrix is never completed, and the products and
    [frobenius_norm] stay fatal however often [compress] is called.  The
    default constructor builds the same matrix with the flag unset, and there
    a call of [compress] completes the fill. *)
Theorem clear_then_compress_stays_unreadable :
  forall (A : SparseMatrix) (op : VectorOperation.values),
    exists A',
      clear A = Ok A'
      /\ compress op A' = Ok A'
      /\ frobenius_norm A' = Abort ExcMatrixNotCompressed
      /\ (forall (vectors : Store Vector) (dst src : address),
             aborts (vmult A' vectors dst src) /\ aborts (Tvmult A' vectors dst src)
             /\ aborts (vmult_add A' vectors dst src)
             /\ aborts (Tvmult_add A' vectors dst src))
      /\ exists A0 A1,
           SparseMatrix_default = Ok A0
           /\ compress op A0 = Ok A1
           /\ matrix A0 = matrix A'
           /\ frobenius_norm A1 = Ok zero.
Proof.
  intros A op. eexists. split; [reflexivity | ].
  split; [reflexivity | ].
  match goal with
  | |- frobenius_norm ?A' = _ /\ _ =>
      destruct (reads_need_fill_complete A' eq_refl) as [Hproducts [Hnorm _]]
  end.
  split; [exact Hnorm | ]. split; [exact Hproducts | ].
  eexists. eexists. repeat split.
Qed.

(** ** NaN in the value copy of [reinit] *)

Lemma fabs_gt_NaN (tol : Number) : fabs_gt NaN tol = false.
Proof. destruct tol as [s | s | | s mx e]; reflexivity. Qed.

Lemma fabs_gt_NaN_tolerance (v : Number) : fabs_gt v NaN = false.
Proof. destruct v as [s | s | | s mx e]; reflexivity. Qed.

(** X14.  The merge loop of [reinit] never copies a NaN of the reference
    matrix, whatever the drop tolerance is: such an entry is dropped without
    an error, although [set] is then called without the check for finite
    values.  With a drop tolerance that is NaN the loop copies nothing at
    all. *)
Theorem reinit_drops_NaN :
  forall (sparsity_pattern : dealii.SparsityPattern)
         (dealii_sparse_matrix : dealii.SparseMatrix) (drop_tolerance : Number)
         (maximum_row_length : Z) (row : Z) (cols : list Z) (vals : list Number),
    copy_row sparsity_pattern dealii_sparse_matrix drop_tolerance
      maximum_row_length row = Ok (cols, vals) ->
    ~ In NaN vals
    /\ (drop_tolerance = NaN -> cols = [] /\ vals = []).
Proof.
  intros sp M tol cap row cols vals Hcopy.
  apply copy_row_sound in Hcopy. destruct Hcopy as [Hlen [Hall _]].
  rewrite Forall_forall in Hall. split.
  - intros Hin. specialize (Hall NaN Hin). rewrite fabs_gt_NaN in Hall.
    discriminate.
  - intros ->. destruct vals as [ | v vals].
    + destruct cols; [split; reflexivity | discriminate].
    + specialize (Hall v (or_introl eq_refl)).
      rewrite fabs_gt_NaN_tolerance in Hall. discriminate.
Qed.

Lemma reinit_drops_NaN_witness :
  copy_row square_pattern nan_matrix zero 2 0 = Ok ([0], [two])
  /\ ~ In NaN [two].
Proof.
  assert (H : copy_row square_pattern nan_matrix zero 2 0 = Ok ([0], [two]))
    by (vm_compute; reflexivity).
  split; [exact H | ].
  exact (proj1 (reinit_drops_NaN square_pattern nan_matrix zero 2 0 [0] [two] H)).
Defined.

(** ** The diagonal *)

(** X15.  [diag_element(i)], with assertions active, is refused for a
    matrix that is not square.  For a square Finalized matrix and an index
    the process owns as a row and as a column it returns the value stored at
    (i, i); when the row stores no entry on the diagonal the call is fatal:
    it does not return zero. *)
Theorem diag_element_cases :
  forall (A : SparseMatrix) (i : Z),
    (m A <> n A -> diag_element A i = Failed ExcNotQuadratic)
    /\ (m A = n A ->
        Map.getLocalElement (CrsMatrix.getRowMap (matrix A)) i <> invalid ->
        Map.getLocalElement (CrsMatrix.getColMap (matrix A)) i <> invalid ->
        CrsMatrix.isFillComplete (matrix A) = true ->
        diag_element A i
        = match CrsMatrix.entry_of i
                  (CrsMatrix.local_row (matrix A)
                     (Map.getLocalElement (CrsMatrix.getRowMap (matrix A)) i)) with
          | Some v => Done v
          | None => Failed (Raised (ExcInvalidIndex i i))
          end).
Proof.
  intros A i. unfold diag_element. split.
  - intros Hne. apply Z.eqb_neq in Hne. rewrite Hne. reflexivity.
  - intros Heq Hrow Hcol Hf. apply Z.eqb_eq in Heq. rewrite Heq.
    unfold call_operator. rewrite (element_lookup A i i false Hrow Hcol Hf).
    destruct (CrsMatrix.entry_of i _); reflexivity.
Qed.

Lemma diag_element_cases_witness :
  diag_element example_matrix 1 = Done one
  /\ diag_element (SparseMatrix_m_n 1 2 1) 0 = Failed ExcNotQuadratic.
Proof.
  split.
  - rewrite (proj2 (diag_element_cases example_matrix 1));
      [reflexivity | reflexivity | vm_compute; discriminate
       | vm_compute; discriminate | reflexivity].
  - apply (proj1 (diag_element_cases (SparseMatrix_m_n 1 2 1) 0)).
    vm_compute. discriminate.
Defined.

(** ** A matrix built by [SparseMatrix(m, n, n_max_entries_per_row)] *)

Lemma index_of_progression (first : Z) (len : nat) :
  forall (s j : nat) (k : Z),
    (s <= j < s + len)%nat ->
    Map.index_of (first + Z.of_nat j)
      (map (fun i => first + Z.of_nat i) (seq s len)) k
    = k + Z.of_nat (j - s).
Proof.
  induction len as [ | len IH]; intros s j k Hj; [lia | ].
  cbn [seq map Map.index_of].
  destruct (first + Z.of_nat s =? first + Z.of_nat j) eqn:E.
  - apply Z.eqb_eq in E. replace (j - s)%nat with 0%nat by lia. lia.
  - apply Z.eqb_neq in E. rewrite (IH (S s) j (k + 1)) by lia. lia.
Qed.

(** On the communicator of one process alone the contiguous map of size [n]
    owns every index below [n], at the local index of the same value. *)
Lemma contiguous_self (n : Z) :
  Map.getMyGlobalIndices (Map.contiguous n tpetra_comm_self)
  = map (fun i => 0 + Z.of_nat i) (seq 0 (Z.to_nat n)).
Proof.
  unfold Map.contiguous, tpetra_comm_self.
  cbn [comm_size comm_rank Map.getMyGlobalIndices].
  rewrite Z.div_1_r, Z.mod_1_r. cbn [Z.ltb Z.compare Z.min Z.mul Z.add].
  rewrite Z.add_0_r. reflexivity.
Qed.

Lemma contiguous_self_local (n g : Z) :
  0 <= g < n ->
  Map.getLocalElement (Map.contiguous n tpetra_comm_self) g = g.
Proof.
  intros Hg. unfold Map.getLocalElement. rewrite contiguous_self.
  replace g with (0 + Z.of_nat (Z.to_nat g)) at 1 by lia.
  rewrite index_of_progression by lia. lia.
Qed.

Lemma nth_repeat_nil {T : Type} (k len : nat) :
  nth k (repeat (@nil T) len) [] = [].
Proof.
  revert k. induction len as [ | len IH]; intros [ | k]; simpl; auto.
Qed.

(** X16.  Construct, insert, compress, look up.  On the matrix that
    [SparseMatrix(m, n, n_max_entries_per_row)] builds, [set] for a row below
    [m] with no more than [n_max_entries_per_row] surviving entries, in
    columns below [n], followed by [compress], makes [element] return for
    every column below [n] the sum of the surviving values supplied for that
    column; for a column for which none was supplied the tolerant lookup
    returns zero and the intolerant one is fatal. *)
Theorem fresh_matrix_set_compress_element :
  forall (rows cols n_max_entries_per_row row n_cols : Z) (col_indices : list Z)
         (values : list Number) (elide_zero_values : bool)
         (op : VectorOperation.values) (j : Z) (tolerant : bool),
    let A := SparseMatrix_m_n rows cols n_max_entries_per_row in
    let kept := surviving_entries elide_zero_values n_cols col_indices values in
    0 <= row < rows ->
    0 <= n_cols ->
    0 <= j < cols ->
    (elide_zero_values = true ->
     Forall (fun cv => is_finite (snd cv) = true)
            (supplied_entries n_cols col_indices values)) ->
    Forall (fun cv => 0 <= fst cv < cols) kept ->
    Z.of_nat (length kept) <= n_max_entries_per_row ->
    exists A1 A2,
      set A row n_cols col_indices values elide_zero_values = Ok A1
      /\ compress op A1 = Ok A2
      /\ element A2 row j tolerant = lookup_result row j tolerant (total j kept).
Proof.
  intros rows cols k row n_cols col_indices values elide op j tolerant A kept
    Hrow Hn Hj Hfin Hcols Hbound.
  destruct (set_then_compress_lookup A row n_cols col_indices values elide op j
              tolerant (Z.to_nat row)) as [A1 [A2 [Hset [Hcompress Helement]]]].
  - reflexivity.
  - unfold A, m, SparseMatrix_m_n, CrsMatrix.make.
    cbn [matrix CrsMatrix.getRowMap]. unfold Map.contiguous.
    cbn [Map.getGlobalNumElements]. exact Hrow.
  - exact Hn.
  - exact Hfin.
  - fold kept. eapply Forall_impl; [ | exact Hcols]. intros cv Hcv.
    unfold A, SparseMatrix_m_n, CrsMatrix.make, Map.isNodeGlobalElement.
    cbn [matrix CrsMatrix.getColMap]. cbv beta in Hcv.
    rewrite (contiguous_self_local cols (fst cv) Hcv).
    apply negb_true_iff, Z.eqb_neq. unfold invalid. lia.
  - unfold A, SparseMatrix_m_n, CrsMatrix.make. cbn [matrix CrsMatrix.getRowMap].
    rewrite (contiguous_self_local rows row Hrow). lia.
  - unfold A, SparseMatrix_m_n, CrsMatrix.make. cbn [matrix CrsMatrix.rows].
    rewrite repeat_length, contiguous_self, length_map, length_seq. lia.
  - unfold A, SparseMatrix_m_n, CrsMatrix.make. cbn [matrix CrsMatrix.getColMap].
    rewrite (contiguous_self_local cols j Hj). unfold invalid. lia.
  - exists A1, A2. split; [exact Hset | ]. split; [exact Hcompress | ].
    rewrite Helement. unfold A, SparseMatrix_m_n, CrsMatrix.make.
    cbn [matrix CrsMatrix.rows]. rewrite nth_repeat_nil. reflexivity.
Qed.

Lemma fresh_matrix_set_compress_element_witness :
  exists A1 A2,
    set (SparseMatrix_m_n 2 3 2) 1 3 [2; 0; 2] [one; zero; two] true = Ok A1
    /\ compress VectorOperation.insert A1 = Ok A2
    /\ element A2 1 2 false = Ok (Number_add one two)
    /\ element A2 1 0 true = Ok zero
    /\ element A2 1 0 false = Abort (ExcInvalidIndex 1 0).
Proof.
  destruct (fresh_matrix_set_compress_element 2 3 2 1 3 [2; 0; 2] [one; zero; two]
              true VectorOperation.insert 2 false)
    as [A1 [A2 [H1 [H2 H3]]]]; try lia.
  - intros _. repeat constructor.
  - vm_compute. repeat constructor; discriminate.
  - vm_compute. discriminate.
  - exists A1, A2. split; [exact H1 | ]. split; [exact H2 | ].
    split; [exact H3 | ].
    vm_compute in H1. injection H1 as <-.
    vm_compute in H2. injection H2 as <-. split; reflexivity.
Defined.

(** ** Setting a block *)

Lemma update_row_length {T : Type} (l : Z) (f : list T -> list T)
  (rs : list (list T)) :
  length (update_row l f rs) = length rs.
Proof.
  unfold update_row.
  transitivity (length (firstn (Z.to_nat l) rs ++ skipn (Z.to_nat l) rs));
    [ | rewrite firstn_skipn; reflexivity].
  rewrite !length_app. destruct (skipn (Z.to_nat l) rs); reflexivity.
Qed.

Lemma resume_if_filled_of_editable (A : SparseMatrix) :
  editable A -> resume_if_filled A = A.
Proof.
  intros [Hc Hf]. unfold resume_if_filled. rewrite Hc, Hf. reflexivity.
Qed.

Lemma read_array_all {T : Type} (d : T) (p : list T) :
  read_array d p (length p) = p.
Proof.
  unfold read_array. apply nth_ext with (d := d) (d' := d).
  - rewrite length_map, length_seq. reflexivity.
  - intros k Hk. rewrite length_map, length_seq in Hk.
    rewrite (nth_indep _ d (nth (length p) p d))
      by (rewrite length_map, length_seq; exact Hk).
    rewrite (map_nth (fun k => nth k p d) (seq 0 (length p)) (length p) k).
    rewrite seq_nth by exact Hk. reflexivity.
Qed.

Lemma nth_read_array {T : Type} (d : T) (p : list T) (len k : nat) :
  (k < len)%nat -> nth k (read_array d p len) d = nth k p d.
Proof.
  intros Hk. unfold read_array.
  rewrite (nth_indep _ d (nth len p d)) by (rewrite length_map, length_seq; exact Hk).
  rewrite (map_nth (fun k => nth k p d) (seq 0 len) len k).
  rewrite seq_nth by exact Hk. reflexivity.
Qed.

Lemma nth_after_skipn {T : Type} (d : T) (k : nat) :
  forall (l : list T) (b : nat), nth b (skipn k l) d = nth (k + b) l d.
Proof.
  induction k as [ | k IH]; intros l b; [reflexivity | ].
  destruct l as [ | x l]; [destruct b; reflexivity | ].
  cbn [skipn Nat.add nth]. apply IH.
Qed.

Lemma block_row_columns (indices : list Z) (values : FullMatrix) (i : nat) :
  map fst (block_row indices values i) = indices.
Proof.
  unfold block_row, supplied_entries. rewrite Nat2Z.id, read_array_all.
  apply map_fst_combine. rewrite read_array_length. reflexivity.
Qed.

Lemma set_inserts_row (A : SparseMatrix) (row n_cols : Z) (col_indices : list Z)
  (values : list Number) :
  editable A ->
  CrsMatrix.isStaticGraph (matrix A) = false ->
  0 <= row < m A ->
  0 <= n_cols ->
  Map.getLocalElement (CrsMatrix.getRowMap (matrix A)) row = row ->
  Forall (fun cv => Map.isNodeGlobalElement (CrsMatrix.getColMap (matrix A))
                      (fst cv) = true)
         (supplied_entries n_cols col_indices values) ->
  set A row n_cols col_indices values false
  = Ok (mkSparseMatrix (column_space_map A)
          (CrsMatrix.with_rows
             (update_row row
                (fun r => r ++ supplied_entries n_cols col_indices values)
                (CrsMatrix.rows (matrix A)))
             (matrix A))
          false).
Proof.
  intros Hed Hst Hrow Hn Hl Hcols.
  rewrite (set_unfolded A row n_cols col_indices values false Hrow Hn)
    by discriminate.
  rewrite (resume_if_filled_of_editable A Hed), Hst. cbn [negb surviving_entries].
  rewrite (insertGlobalValues_owned (matrix A) row (Z.to_nat row)
             (supplied_entries n_cols col_indices values) Hst (proj2 Hed));
    [ | rewrite Hl; lia | exact Hcols].
  cbn [bind]. rewrite Z2Nat.id by lia. reflexivity.
Qed.

Lemma set_rows_inserts (indices : list Z) (values : FullMatrix) (remaining : nat) :
  forall (i : nat) (A : SparseMatrix),
    editable A ->
    CrsMatrix.isStaticGraph (matrix A) = false ->
    Forall (fun g => 0 <= g < m A
                     /\ Map.getLocalElement (CrsMatrix.getRowMap (matrix A)) g = g)
           indices ->
    Forall (fun g => Map.isNodeGlobalElement (CrsMatrix.getColMap (matrix A)) g = true)
           indices ->
    (i + remaining <= length indices)%nat ->
    exists A',
      set_rows remaining i A indices values false = Ok A'
      /\ editable A'
      /\ CrsMatrix.getRowMap (matrix A') = CrsMatrix.getRowMap (matrix A)
      /\ CrsMatrix.getColMap (matrix A') = CrsMatrix.getColMap (matrix A)
      /\ length (CrsMatrix.rows (matrix A')) = length (CrsMatrix.rows (matrix A))
      /\ forall l : nat,
           (l < length (CrsMatrix.rows (matrix A)))%nat ->
           nth l (CrsMatrix.rows (matrix A')) []
           = nth l (CrsMatrix.rows (matrix A)) []
             ++ block_entries_of_row indices values l i remaining.
Proof.
  induction remaining as [ | remaining IH];
    intros i A Hed Hst Hrows Hcols Hlen.
  - exists A. cbn [set_rows]. repeat split; try apply Hed.
    intros l _. unfold block_entries_of_row. cbn [seq map concat].
    rewrite app_nil_r. reflexivity.
  - cbn [set_rows].
    assert (Hi : In (nth i indices 0) indices) by (apply nth_In; lia).
    pose proof Hrows as Hrows'. rewrite Forall_forall in Hrows'.
    destruct (Hrows' _ Hi) as [Hrange Hlocal].
    rewrite (set_inserts_row A (nth i indices 0) (Z.of_nat (length indices))
               indices (row_pointer values i) Hed Hst Hrange ltac:(lia) Hlocal).
    2:{ apply Forall_forall. intros cv Hcv.
        rewrite Forall_forall in Hcols. apply Hcols.
        assert (Hin : In (fst cv) (map fst (block_row indices values i)))
          by (apply in_map; exact Hcv).
        rewrite block_row_columns in Hin. exact Hin. }
    cbn [bind].
    match goal with
    | |- context [set_rows remaining (S i) ?A1] =>
        destruct (IH (S i) A1) as [A' [Hset [Hed' [Hrm [Hcm [Hlength Hnth]]]]]]
    end.
    + split; [reflexivity | apply Hed].
    + exact Hst.
    + exact Hrows.
    + exact Hcols.
    + lia.
    + exists A'. split; [exact Hset | ]. split; [exact Hed' | ].
      cbn [matrix CrsMatrix.with_rows CrsMatrix.getRowMap CrsMatrix.getColMap
             CrsMatrix.rows] in Hrm, Hcm, Hlength, Hnth.
      rewrite update_row_length in Hlength, Hnth.
      split; [exact Hrm | ]. split; [exact Hcm | ]. split; [exact Hlength | ].
      intros l Hl. rewrite (Hnth l Hl), nth_update_row by exact Hl.
      unfold block_entries_of_row. cbn [seq map concat].
      fold (block_row indices values i).
      destruct (Nat.eqb l (Z.to_nat (nth i indices 0))) eqn:E.
      * apply Nat.eqb_eq in E.
        replace (nth i indices 0 =? Z.of_nat l) with true
          by (symmetry; apply Z.eqb_eq; lia).
        rewrite <- app_assoc. reflexivity.
      * apply Nat.eqb_neq in E.
        replace (nth i indices 0 =? Z.of_nat l) with false
          by (symmetry; apply Z.eqb_neq; lia).
        reflexivity.
Qed.

Lemma block_entries_of_unique_row (indices : list Z) (values : FullMatrix) (a : nat) :
  NoDup indices ->
  (a < length indices)%nat ->
  0 <= nth a indices 0 ->
  forall count first : nat,
    (first + count <= length indices)%nat ->
    block_entries_of_row indices values (Z.to_nat (nth a indices 0)) first count
    = if (first <=? a)%nat && (a <? first + count)%nat
      then block_row indices values a else [].
Proof.
  intros Hnodup Ha Hpos. unfold block_entries_of_row.
  rewrite Z2Nat.id by exact Hpos.
  induction count as [ | count IH]; intros first Hlen.
  - cbn [seq map concat].
    destruct ((first <=? a)%nat && (a <? first + 0)%nat) eqn:E; [ | reflexivity].
    apply andb_true_iff in E. destruct E as [E1 E2].
    apply Nat.leb_le in E1. apply Nat.ltb_lt in E2. lia.
  - cbn [seq map concat]. rewrite (IH (S first)) by lia.
    destruct (nth first indices 0 =? nth a indices 0) eqn:E.
    + apply Z.eqb_eq in E.
      assert (first = a).
      { rewrite NoDup_nth in Hnodup. apply Hnodup; [lia | exact Ha | exact E]. }
      subst first.
      replace ((S a <=? a)%nat) with false by (symmetry; apply Nat.leb_gt; lia).
      replace ((a <=? a)%nat) with true by (symmetry; apply Nat.leb_le; lia).
      replace ((a <? a + S count)%nat) with true
        by (symmetry; apply Nat.ltb_lt; lia).
      cbn [andb]. rewrite app_nil_r. reflexivity.
    + apply Z.eqb_neq in E. assert (first <> a) by (intros ->; congruence).
      cbn [app].
      replace ((first <=? a)%nat && (a <? first + S count)%nat)
        with ((S first <=? a)%nat && (a <? S first + count)%nat);
        [reflexivity | ].
      destruct (Nat.leb_spec (S first) a), (Nat.leb_spec first a),
        (Nat.ltb_spec a (S first + count)), (Nat.ltb_spec a (first + S count));
        cbn [andb]; try reflexivity; lia.
Qed.

Lemma total_absent (c : Z) (entries : list (Z * Number)) :
  forall acc : option Number,
    ~ In c (map fst entries) ->
    fold_left
      (fun acc cv =>
         if fst cv =? c
         then Some (match acc with
                    | Some a => Number_add a (snd cv)
                    | None => snd cv
                    end)
         else acc)
      entries acc
    = acc.
Proof.
  induction entries as [ | [c0 v0] entries IH]; intros acc Hnot; [reflexivity | ].
  cbn [fold_left fst snd]. cbn [map fst In] in Hnot.
  replace (c0 =? c) with false by (symmetry; apply Z.eqb_neq; tauto).
  apply IH. tauto.
Qed.

Lemma total_NoDup (c : Z) (entries : list (Z * Number)) :
  NoDup (map fst entries) -> total c entries = CrsMatrix.entry_of c entries.
Proof.
  unfold total.
  induction entries as [ | [c0 v0] entries IH]; intros Hnodup; [reflexivity | ].
  cbn [map fst] in Hnodup. inversion Hnodup as [ | x l Hnot Hrest]; subst.
  cbn [fold_left fst snd CrsMatrix.entry_of].
  destruct (c0 =? c) eqn:E.
  - apply Z.eqb_eq in E. subst c0. apply total_absent. exact Hnot.
  - apply IH. exact Hrest.
Qed.

Lemma entry_of_combine_nth (indices : list Z) :
  forall (vals : list Number) (b : nat),
    NoDup indices ->
    (b < length indices)%nat ->
    length vals = length indices ->
    CrsMatrix.entry_of (nth b indices 0) (combine indices vals)
    = Some (nth b vals zero).
Proof.
  induction indices as [ | g indices IH]; intros vals b Hnodup Hb Hlen;
    [simpl in Hb; lia | ].
  destruct vals as [ | v vals]; [discriminate | ].
  inversion Hnodup as [ | x l Hnot Hrest]; subst.
  cbn [combine CrsMatrix.entry_of]. destruct b as [ | b].
  - cbn [nth]. rewrite Z.eqb_refl. reflexivity.
  - cbn [nth]. cbn [length] in Hb, Hlen.
    replace (g =? nth b indices 0) with false.
    + apply IH; [exact Hrest | lia | lia].
    + symmetry. apply Z.eqb_neq. intros ->. apply Hnot. apply nth_In. lia.
Qed.

(** X17.  Setting a block.  On the matrix that [SparseMatrix(m, n,
    n_max_entries_per_row)] builds, [set(indices, values, false)] with no
    more than [n_max_entries_per_row] indices, distinct and below [m] and
    [n], and a square block of as many rows as there are indices, followed by
    [compress], stores the block: for the positions [a] and [b] of two
    indices, [element] returns the value [values(a, b)] at the row
    [indices[a]] and the column [indices[b]]. *)
Theorem set_full_matrix_round_trip :
  forall (rows cols n_max_entries_per_row : Z) (indices : list Z)
         (values : FullMatrix) (op : VectorOperation.values) (tolerant : bool),
    FullMatrix_m values = Z.of_nat (length indices) ->
    FullMatrix_n values = Z.of_nat (length indices) ->
    NoDup indices ->
    Forall (fun g => 0 <= g < rows /\ 0 <= g < cols) indices ->
    Z.of_nat (length indices) <= n_max_entries_per_row ->
    exists A1 A2,
      set_full_matrix (SparseMatrix_m_n rows cols n_max_entries_per_row)
        indices values false = Done A1
      /\ compress op A1 = Ok A2
      /\ forall a b : nat,
           (a < length indices)%nat ->
           (b < length indices)%nat ->
           element A2 (nth a indices 0) (nth b indices 0) tolerant
           = Ok (nth (a * length indices + b) (FullMatrix_values values) zero).
Proof.
  intros rows cols k indices values op tolerant Hm Hn Hnodup Hrange Hbound.
  set (A := SparseMatrix_m_n rows cols k).
  assert (Hrowmap : CrsMatrix.getRowMap (matrix A)
                    = Map.contiguous rows tpetra_comm_self) by reflexivity.
  assert (Hcolmap : CrsMatrix.getColMap (matrix A)
                    = Map.contiguous cols tpetra_comm_self) by reflexivity.
  assert (Hlength : length (CrsMatrix.rows (matrix A)) = Z.to_nat rows).
  { unfold A, SparseMatrix_m_n, CrsMatrix.make. cbn [matrix CrsMatrix.rows].
    rewrite repeat_length, contiguous_self, length_map, length_seq. reflexivity. }
  destruct (set_rows_inserts indices values (length indices) 0 A)
    as [A1 [Hset [Hed [Hrm [Hcm [_ Hnth]]]]]].
  - split; reflexivity.
  - reflexivity.
  - eapply Forall_impl; [ | exact Hrange]. intros g [Hg _]. cbv beta.
    rewrite Hrowmap. split; [exact Hg | apply contiguous_self_local; exact Hg].
  - eapply Forall_impl; [ | exact Hrange]. intros g [_ Hg]. cbv beta.
    rewrite Hcolmap. unfold Map.isNodeGlobalElement.
    rewrite (contiguous_self_local cols g Hg).
    apply negb_true_iff, Z.eqb_neq. unfold invalid. lia.
  - lia.
  - assert (Hcompress : exists A2, compress op A1 = Ok A2
                                   /\ CrsMatrix.isFillComplete (matrix A2) = true
                                   /\ CrsMatrix.getRowMap (matrix A2)
                                      = CrsMatrix.getRowMap (matrix A1)
                                   /\ CrsMatrix.getColMap (matrix A2)
                                      = CrsMatrix.getColMap (matrix A1)
                                   /\ CrsMatrix.rows (matrix A2)
                                      = map sort_and_merge (CrsMatrix.rows (matrix A1))).
    { unfold compress, CrsMatrix.fillComplete.
      destruct Hed as [Hc1 Hf1]. rewrite Hc1, Hf1. cbn [negb bind].
      eexists. repeat split. }
    destruct Hcompress as [A2 [Hcompress [Hf2 [Hrm2 [Hcm2 Hrows2]]]]].
    exists A1, A2. split; [ | split; [exact Hcompress | ]].
    + unfold set_full_matrix. fold A. rewrite Hm, Hn, !Z.eqb_refl. cbn [negb].
      rewrite Hset. reflexivity.
    + intros a b Ha Hb.
      assert (Hia : In (nth a indices 0) indices) by (apply nth_In; exact Ha).
      assert (Hib : In (nth b indices 0) indices) by (apply nth_In; exact Hb).
      rewrite Forall_forall in Hrange.
      destruct (Hrange _ Hia) as [Hrow _]. destruct (Hrange _ Hib) as [_ Hcol].
      rewrite element_lookup;
        [ | rewrite Hrm2, Hrm, Hrowmap, contiguous_self_local by exact Hrow;
            unfold invalid; lia
          | rewrite Hcm2, Hcm, Hcolmap, contiguous_self_local by exact Hcol;
            unfold invalid; lia
          | exact Hf2].
      rewrite Hrm2, Hrm, Hrowmap, contiguous_self_local by exact Hrow.
      unfold CrsMatrix.local_row. rewrite Hrows2.
      change (@nil (Z * Number)) with (sort_and_merge []) at 1.
      rewrite map_nth, entry_of_sort_and_merge.
      rewrite Hnth by (rewrite Hlength; lia).
      unfold A at 1, SparseMatrix_m_n, CrsMatrix.make.
      cbn [matrix CrsMatrix.rows]. rewrite nth_repeat_nil. cbn [app].
      rewrite (block_entries_of_unique_row indices values a Hnodup Ha)
        by lia.
      replace ((0 <=? a)%nat && (a <? 0 + length indices)%nat) with true
        by (symmetry; apply andb_true_iff; split;
            [apply Nat.leb_le | apply Nat.ltb_lt]; lia).
      rewrite total_NoDup by (rewrite block_row_columns; exact Hnodup).
      unfold block_row, supplied_entries.
      rewrite Nat2Z.id, read_array_all.
      rewrite entry_of_combine_nth
        by (try rewrite read_array_length; auto).
      cbn [lookup_result]. rewrite nth_read_array by exact Hb.
      unfold row_pointer. rewrite nth_after_skipn, Hn, Nat2Z.id. reflexivity.
Qed.

Lemma set_full_matrix_round_trip_witness :
  exists A1 A2,
    set_full_matrix (SparseMatrix_m_n 3 3 2) [2; 0]
      (mkFullMatrix 2 2 [one; two; zero; one]) false = Done A1
    /\ compress VectorOperation.insert A1 = Ok A2
    /\ element A2 2 0 false = Ok two
    /\ element A2 0 2 false = Ok zero.
Proof.
  destruct (set_full_matrix_round_trip 3 3 2 [2; 0]
              (mkFullMatrix 2 2 [one; two; zero; one]) VectorOperation.insert false)
    as [A1 [A2 [H1 [H2 H3]]]].
  - reflexivity.
  - reflexivity.
  - repeat constructor; simpl; intuition discriminate.
  - repeat (apply Forall_cons; [lia | ]). apply Forall_nil.
  - simpl. lia.
  - exists A1, A2. split; [exact H1 | ]. split; [exact H2 | ]. split.
    + apply (H3 0%nat 1%nat); simpl; lia.
    + apply (H3 1%nat 0%nat); simpl; lia.
Defined.

(** ** The state after the value copy of [reinit] *)

Lemma copy_rows_state (row_parallel_partitioning : IndexSet)
  (sparsity_pattern : dealii.SparsityPattern)
  (dealii_sparse_matrix : dealii.SparseMatrix) (drop_tolerance : Number)
  (maximum_row_length : Z) (remaining : nat) :
  forall (row : Z) (A A1 : SparseMatrix),
    copy_rows remaining row A row_parallel_partitioning sparsity_pattern
      dealii_sparse_matrix drop_tolerance maximum_row_length = Ok A1 ->
    (editable A1 \/ A1 = A)
    /\ (forall r, row <= r < row + Z.of_nat remaining ->
                  is_element row_parallel_partitioning r = true -> editable A1)
    /\ ((forall r, row <= r < row + Z.of_nat remaining ->
                   is_element row_parallel_partitioning r = false) -> A1 = A).
Proof.
  induction remaining as [ | remaining IH]; intros row A A1 Hcopy.
  - cbn [copy_rows] in Hcopy. injection Hcopy as <-.
    split; [right; reflexivity | ]. split; [intros r Hr; lia | reflexivity].
  - cbn [copy_rows] in Hcopy. apply bind_Ok in Hcopy.
    destruct Hcopy as [A0 [Hrow Hrest]].
    destruct (IH (row + 1) A0 A1 Hrest) as [Hstate [Howned Hnone]].
    destruct (is_element row_parallel_partitioning row) eqn:Hel.
    + apply bind_Ok in Hrow. destruct Hrow as [cv [_ Hset]].
      apply set_leaves_editable in Hset.
      assert (Hed : editable A1).
      { destruct Hstate as [Hed | ->]; [exact Hed | exact Hset]. }
      split; [left; exact Hed | ]. split; [intros r _ _; exact Hed | ].
      intros Hall. rewrite (Hall row) in Hel by lia. discriminate.
    + injection Hrow as <-. split; [exact Hstate | ]. split.
      * intros r Hr Hr_owned. assert (r <> row) by (intros ->; congruence).
        apply (Howned r); [lia | exact Hr_owned].
      * intros Hall. apply Hnone. intros r Hr. apply Hall. lia.
Qed.

Lemma compress_editable (op : VectorOperation.values) (A A' : SparseMatrix) :
  editable A -> compress op A = Ok A' -> finalized A'.
Proof.
  intros [Hc Hf]. unfold compress, CrsMatrix.fillComplete. rewrite Hc, Hf.
  cbn [negb bind]. intros [= <-]. split; reflexivity.
Qed.

(** X18.  When the value copy of [reinit] succeeds the flag [compressed] is
    set.  If the process owns one of the rows of the reference matrix, the
    matrix is Finalized and can be read; if it owns none, no value is written
    and the result is that of [compress] alone. *)
Theorem reinit_value_copy_finalizes :
  forall (A A' : SparseMatrix) (row_parallel_partitioning : IndexSet)
         (sparsity_pattern : dealii.SparsityPattern)
         (dealii_sparse_matrix : dealii.SparseMatrix) (drop_tolerance : Number),
    reinit_fill_values A row_parallel_partitioning sparsity_pattern
      dealii_sparse_matrix drop_tolerance = Ok A' ->
    compressed A' = true
    /\ ((exists r, 0 <= r < dealii.m dealii_sparse_matrix
                   /\ is_element row_parallel_partitioning r = true) ->
        finalized A')
    /\ ((forall r, 0 <= r < dealii.m dealii_sparse_matrix ->
                   is_element row_parallel_partitioning r = false) ->
        compress VectorOperation.insert A = Ok A').
Proof.
  intros A A' rpp sp M tol Hreinit. unfold reinit_fill_values in Hreinit.
  cbv zeta in Hreinit. apply bind_Ok in Hreinit.
  destruct Hreinit as [maximum_row_length [_ Hreinit]].
  apply bind_Ok in Hreinit. destruct Hreinit as [A1 [Hcopy Hcompress]].
  destruct (copy_rows_state rpp sp M tol _ _ _ _ _ Hcopy) as [_ [Howned Hnone]].
  split; [exact (compress_Ok_compressed _ _ _ Hcompress) | ]. split.
  - intros [r [Hr Hr_owned]].
    apply (compress_editable VectorOperation.insert A1 A'); [ | exact Hcompress].
    apply (Howned r); [lia | exact Hr_owned].
  - intros Hall. rewrite <- (Hnone ltac:(intros r Hr; apply Hall; lia)).
    exact Hcompress.
Qed.

Lemma reinit_value_copy_finalizes_witness :
  exists A A',
    SparseMatrix_from_sparsity_pattern (mkSparsityPattern example_graph) = Ok A
    /\ reinit_fill_values A (mkIndexSet 2 [0; 1])
         square_pattern square_matrix one = Ok A'
    /\ CrsMatrix.rows (matrix A') = [[(0, two); (1, zero)]; [(1, two)]]
    /\ finalized A'.
Proof.
  eexists. eexists. split; [vm_compute; reflexivity | ].
  match goal with
  | |- ?copy = ?result /\ _ =>
      assert (H : copy = result) by (vm_compute; reflexivity)
  end.
  split; [exact H | ]. split; [reflexivity | ].
  apply (proj1 (proj2 (reinit_value_copy_finalizes _ _ _ _ _ _ H))).
  exists 0. split; [vm_compute; split; [discriminate | reflexivity] | reflexivity].
Defined.

(** ** Rows in ascending order *)

Lemma ascending_rows_columns (rs1 : list (list (Z * Number))) :
  forall rs2 : list (list (Z * Number)),
    map (map fst) rs1 = map (map fst) rs2 ->
    Forall ascending rs1 -> Forall ascending rs2.
Proof.
  induction rs1 as [ | r1 rs1 IH]; intros [ | r2 rs2] Hmap Hasc;
    try discriminate; [constructor | ].
  cbn [map] in Hmap. injection Hmap as Hr Hrest.
  inversion Hasc as [ | x l Hr1 Hrs1]; subst. constructor.
  - exact (ascending_columns r1 r2 Hr Hr1).
  - exact (IH rs2 Hrest Hrs1).
Qed.

Lemma set_static_columns (A A' : SparseMatrix) (row n_cols : Z)
  (col_indices : list Z) (values : list Number) (elide_zero_values : bool) :
  CrsMatrix.isStaticGraph (matrix A) = true ->
  set A row n_cols col_indices values elide_zero_values = Ok A' ->
  map (map fst) (CrsMatrix.rows (matrix A'))
  = map (map fst) (CrsMatrix.rows (matrix A)).
Proof.
  intros Hst Hset.
  destruct (resume_if_filled_frame A) as [_ [Hrows [_ [Hst1 _]]]].
  unfold set in Hset. apply bind_Ok in Hset. destruct Hset as [_ [_ Hset]].
  apply bind_Ok in Hset. destruct Hset as [cv [_ Hset]]. cbv zeta in Hset.
  rewrite Hst1, Hst in Hset. cbn [negb] in Hset. injection Hset as <-.
  cbn [matrix].
  rewrite (proj1 (replaceGlobalValues_structure row (fst cv) (snd cv) _)), Hrows.
  reflexivity.
Qed.

(** X19.  Ascending rows are an invariant of a matrix that has been
    compressed: [compress] on a matrix whose flag is unset leaves every row
    with its columns in strictly ascending order, each column once, and
    [resume_fill], [add], and [set] on a static graph keep the rows so. *)
Theorem ascending_rows_invariant :
  (forall (A A' : SparseMatrix) (op : VectorOperation.values),
      compressed A = false -> compress op A = Ok A' ->
      Forall ascending (CrsMatrix.rows (matrix A')))
  /\ (forall A : SparseMatrix,
         Forall ascending (CrsMatrix.rows (matrix A)) ->
         Forall ascending (CrsMatrix.rows (matrix (resume_fill A))))
  /\ (forall (A A' : SparseMatrix) (row n_cols : Z) (col_indices : list Z)
             (values : list Number)
             (elide_zero_values col_indices_are_sorted : bool),
         Forall ascending (CrsMatrix.rows (matrix A)) ->
         add A row n_cols col_indices values elide_zero_values
           col_indices_are_sorted = Ok A' ->
         Forall ascending (CrsMatrix.rows (matrix A')))
  /\ (forall (A A' : SparseMatrix) (row n_cols : Z) (col_indices : list Z)
             (values : list Number) (elide_zero_values : bool),
         CrsMatrix.isStaticGraph (matrix A) = true ->
         Forall ascending (CrsMatrix.rows (matrix A)) ->
         set A row n_cols col_indices values elide_zero_values = Ok A' ->
         Forall ascending (CrsMatrix.rows (matrix A'))).
Proof.
  split; [ | split; [ | split]].
  - intros A A' op Hc Hcompress. unfold compress in Hcompress.
    rewrite Hc in Hcompress. cbn [negb] in Hcompress.
    apply bind_Ok in Hcompress. destruct Hcompress as [M [HM Hok]].
    injection Hok as <-. cbn [matrix]. unfold CrsMatrix.fillComplete in HM.
    destruct (CrsMatrix.isFillComplete (matrix A)); [discriminate | ].
    injection HM as <-. cbn [CrsMatrix.rows]. apply map_sort_and_merge_ascending.
  - intros A Hasc. unfold resume_fill. destruct (compressed A); exact Hasc.
  - intros A A' row n_cols cols vals elide sorted Hasc Hadd.
    apply (ascending_rows_columns (CrsMatrix.rows (matrix A))); [ | exact Hasc].
    symmetry. exact (add_columns _ _ _ _ _ _ _ _ Hadd).
  - intros A A' row n_cols cols vals elide Hst Hasc Hset.
    apply (ascending_rows_columns (CrsMatrix.rows (matrix A))); [ | exact Hasc].
    symmetry. exact (set_static_columns _ _ _ _ _ _ _ Hst Hset).
Qed.

(** ** What the merge loop of [reinit] never misses *)

Lemma increasing_app (a b : list Z) :
  increasing (a ++ b) ->
  increasing a /\ increasing b /\ forall x y, In x a -> In y b -> x < y.
Proof.
  induction a as [ | c a IH]; cbn [app increasing].
  - intros H. repeat split; [exact H | intros x y []].
  - intros [Hall Hinc]. destruct (IH Hinc) as [Ha [Hb Hab]].
    rewrite Forall_forall in Hall. repeat split; try assumption.
    + apply Forall_forall. intros x Hx. apply Hall, in_or_app. left. exact Hx.
    + intros x y [<- | Hx] Hy; [apply Hall, in_or_app; right; exact Hy | ].
      exact (Hab x y Hx Hy).
Qed.

Lemma increasing_head (c : Z) (l : list Z) :
  increasing (c :: l) -> forall y, In y (c :: l) -> c <= y.
Proof.
  intros [Hall _] y [<- | Hy]; [lia | ].
  rewrite Forall_forall in Hall. specialize (Hall y Hy). lia.
Qed.

(** The first inner loop leaves [select_index] at the first entry of the
    target row, from where it stood, whose column is not below the column of
    [it], or at the end of the row. *)
Lemma advance_select_stops (srow : list Z) :
  forall (stail : list Z) (si : Z) (it : dealii.iterator (Z * Number))
         (end_ahead : list Z) (ic : Z) (select' : dealii.iterator Z),
    dealii.column it = Ok ic ->
    advance_select (srow ++ stail) si it
      (dealii.mkIterator (si + Z.of_nat (length srow)) end_ahead) = Ok select' ->
    exists skipped srest,
      srow = skipped ++ srest
      /\ select' = dealii.mkIterator (si + Z.of_nat (length skipped)) (srest ++ stail)
      /\ Forall (fun s => s < ic) skipped
      /\ match srest with [] => True | s :: _ => ic <= s end.
Proof.
  induction srow as [ | s srow IH]; intros stail si it ea ic sel' Hcol Hsel.
  - cbn [app length] in Hsel. destruct stail as [ | g stail];
      cbn [advance_select] in Hsel; [discriminate | ].
    rewrite Hcol in Hsel. cbn [bind dealii.linear_index] in Hsel.
    replace (si =? si + Z.of_nat 0) with true in Hsel
      by (symmetry; apply Z.eqb_eq; lia).
    rewrite andb_false_r in Hsel. injection Hsel as <-.
    exists [], []. cbn [app length]. rewrite Z.add_0_r.
    repeat split. constructor.
  - cbn [app advance_select] in Hsel. rewrite Hcol in Hsel.
    cbn [bind dealii.linear_index] in Hsel.
    replace (si =? si + Z.of_nat (length (s :: srow))) with false in Hsel
      by (symmetry; apply Z.eqb_neq; cbn [length]; lia).
    cbn [negb] in Hsel. rewrite andb_true_r in Hsel.
    destruct (s <? ic) eqn:Hlt.
    + replace (si + Z.of_nat (length (s :: srow)))
        with (si + 1 + Z.of_nat (length srow)) in Hsel by (cbn [length]; lia).
      destruct (IH stail (si + 1) it ea ic sel' Hcol Hsel)
        as [skipped [srest [Hrow [Hsel' [Hall Hstop]]]]].
      exists (s :: skipped), srest. cbn [app length]. rewrite Hrow.
      split; [reflexivity | ].
      split; [rewrite Hsel'; f_equal; lia | ].
      split; [constructor; [apply Z.ltb_lt; exact Hlt | exact Hall] | exact Hstop].
    + injection Hsel as <-. exists [], (s :: srow). cbn [app length].
      rewrite Z.add_0_r. repeat split; [constructor | ].
      apply Z.ltb_ge. exact Hlt.
Qed.

(** The second inner loop leaves [it] at the first entry of the reference
    row, from where it stood, whose column is not below the column of
    [select_index], or at the end of the row. *)
Lemma advance_it_stops (irow : list (Z * Number)) :
  forall (itail : list (Z * Number)) (ii : Z) (select_index : dealii.iterator Z)
         (end_ahead : list (Z * Number)) (sc : Z)
         (it' : dealii.iterator (Z * Number)),
    dealii.deref select_index = Ok sc ->
    advance_it (irow ++ itail) ii select_index
      (dealii.mkIterator (ii + Z.of_nat (length irow)) end_ahead) = Ok it' ->
    exists skipped irest,
      irow = skipped ++ irest
      /\ it' = dealii.mkIterator (ii + Z.of_nat (length skipped)) (irest ++ itail)
      /\ Forall (fun cv => fst cv < sc) skipped
      /\ match irest with [] => True | cv :: _ => sc <= fst cv end.
Proof.
  induction irow as [ | [c v] irow IH]; intros itail ii sel ea sc it' Hsc Hit.
  - cbn [app length] in Hit. destruct itail as [ | [g gv] itail];
      cbn [advance_it] in Hit; [discriminate | ].
    rewrite Hsc in Hit. cbn [bind dealii.linear_index] in Hit.
    replace (ii =? ii + Z.of_nat 0) with true in Hit
      by (symmetry; apply Z.eqb_eq; lia).
    rewrite andb_false_r in Hit. injection Hit as <-.
    exists [], []. cbn [app length]. rewrite Z.add_0_r.
    repeat split. constructor.
  - cbn [app advance_it] in Hit. rewrite Hsc in Hit.
    cbn [bind dealii.linear_index] in Hit.
    replace (ii =? ii + Z.of_nat (length ((c, v) :: irow))) with false in Hit
      by (symmetry; apply Z.eqb_neq; cbn [length]; lia).
    cbn [negb] in Hit. rewrite andb_true_r in Hit.
    destruct (c <? sc) eqn:Hlt.
    + replace (ii + Z.of_nat (length ((c, v) :: irow)))
        with (ii + 1 + Z.of_nat (length irow)) in Hit by (cbn [length]; lia).
      destruct (IH itail (ii + 1) sel ea sc it' Hsc Hit)
        as [skipped [irest [Hrow [Hit' [Hall Hstop]]]]].
      exists ((c, v) :: skipped), irest. cbn [app length]. rewrite Hrow.
      split; [reflexivity | ].
      split; [rewrite Hit'; f_equal; lia | ].
      split; [constructor; [apply Z.ltb_lt; exact Hlt | exact Hall] | exact Hstop].
    + injection Hit as <-. exists [], ((c, v) :: irow). cbn [app length].
      rewrite Z.add_0_r. repeat split; [constructor | ].
      apply Z.ltb_ge. exact Hlt.
Qed.

Lemma skipped_not_in_target (sskip srest stail : list Z) (k ic sc c : Z) :
  increasing (sskip ++ srest) ->
  Forall (fun s => s < ic) sskip ->
  dealii.deref (dealii.mkIterator k (srest ++ stail)) = Ok sc ->
  ic <= c -> c < sc ->
  ~ In c (sskip ++ srest).
Proof.
  intros Hinc Hlt Hsc Hic Hc Hin. apply in_app_or in Hin. destruct Hin as [Hin | Hin].
  - rewrite Forall_forall in Hlt. specialize (Hlt c Hin). lia.
  - destruct srest as [ | s1 srest]; [destruct Hin | ].
    cbn in Hsc. injection Hsc as <-.
    apply increasing_app in Hinc. destruct Hinc as [_ [Hinc _]].
    pose proof (increasing_head _ _ Hinc c Hin). lia.
Qed.

Lemma first_column (irow itail : list (Z * Number)) (ii : Z) :
  irow <> [] ->
  increasing (map fst irow) ->
  exists ic,
    dealii.column (dealii.mkIterator ii (irow ++ itail)) = Ok ic
    /\ forall c v, In (c, v) irow -> ic <= c.
Proof.
  intros Hne Hinc. destruct irow as [ | [ic iv] irow]; [congruence | ].
  exists ic. split; [reflexivity | ]. intros c v Hin.
  apply (increasing_head ic (map fst irow) Hinc c).
  change (ic :: map fst irow) with (map fst ((ic, iv) :: irow)).
  apply (in_map fst _ (c, v)). exact Hin.
Qed.

(** Whatever the two rows are, as long as each is in ascending order: the
    merge loop collects every entry of the reference row that is above the
    tolerance and whose column the target row has. *)
Lemma copy_loop_never_misses (bound : nat) :
  forall (drop_tolerance : Number) (maximum_row_length : Z)
         (srow stail : list Z) (irow itail : list (Z * Number)) (si ii : Z)
         (select_end_ahead : list Z) (it_end_ahead : list (Z * Number))
         (row_indices : list Z) (values : list Number)
         (cols : list Z) (vals : list Number),
    increasing srow ->
    increasing (map fst irow) ->
    copy_loop bound drop_tolerance maximum_row_length
      (dealii.mkIterator (si + Z.of_nat (length srow)) select_end_ahead)
      (dealii.mkIterator (ii + Z.of_nat (length irow)) it_end_ahead)
      (dealii.mkIterator si (srow ++ stail))
      (dealii.mkIterator ii (irow ++ itail))
      row_indices values = Ok (cols, vals) ->
    exists cols' vals',
      cols = row_indices ++ cols' /\ vals = values ++ vals'
      /\ length cols' = length vals'
      /\ forall c v,
           In (c, v) irow -> fabs_gt v drop_tolerance = true -> In c srow ->
           In (c, v) (combine cols' vals').
Proof.
  induction bound as [ | bound IH];
    intros tol cap srow stail irow itail si ii sea iea ri vs cols vals Hs Hi H;
    [discriminate | ].
  cbn [copy_loop] in H. unfold dealii.iterator_eqb in H.
  cbn [dealii.linear_index dealii.ahead] in H.
  destruct (ii =? ii + Z.of_nat (length irow)) eqn:Ei.
  { cbn [negb andb] in H. injection H as <- <-.
    apply Z.eqb_eq in Ei. assert (irow = []) by (apply length_zero_iff_nil; lia).
    subst irow. exists [], []. rewrite !app_nil_r. repeat split. intros c v []. }
  destruct (si =? si + Z.of_nat (length srow)) eqn:Es.
  { cbn [negb andb] in H. injection H as <- <-.
    apply Z.eqb_eq in Es. assert (srow = []) by (apply length_zero_iff_nil; lia).
    subst srow. exists [], []. rewrite !app_nil_r. repeat split.
    intros c v _ _ []. }
  cbn [negb andb] in H. apply Z.eqb_neq in Ei, Es.
  assert (Hne : irow <> []) by (intros ->; cbn in Ei; lia).
  destruct (first_column irow itail ii Hne Hi) as [ic [Hic Hmin]].
  destruct (advance_select (srow ++ stail) si
              (dealii.mkIterator ii (irow ++ itail))
              (dealii.mkIterator (si + Z.of_nat (length srow)) sea))
    as [sel' | e] eqn:Hsel; cbn [bind] in H; [ | discriminate].
  destruct (advance_select_stops _ _ _ _ _ ic _ Hic Hsel)
    as [sskip [srest [Hsrow [-> [Hslt _]]]]].
  destruct (dealii.deref (dealii.mkIterator (si + Z.of_nat (length sskip))
                            (srest ++ stail))) as [sc | e] eqn:Hsc.
  2:{ destruct irow as [ | [c0 v0] irow]; [congruence | ].
      cbn [app advance_it] in H. rewrite Hsc in H. discriminate. }
  destruct (advance_it (irow ++ itail) ii
              (dealii.mkIterator (si + Z.of_nat (length sskip)) (srest ++ stail))
              (dealii.mkIterator (ii + Z.of_nat (length irow)) iea))
    as [it' | e] eqn:Hit; cbn [bind] in H; [ | discriminate].
  destruct (advance_it_stops _ _ _ _ _ sc _ Hsc Hit)
    as [iskip [irest [Hirow [-> [Hilt Histop]]]]].
  cbn [dealii.linear_index] in H.
  assert (Hskipped : forall c v, In (c, v) iskip -> ~ In c srow).
  { intros c v Hin. rewrite Hsrow.
    apply (skipped_not_in_target sskip srest stail
             (si + Z.of_nat (length sskip)) ic sc c);
      [rewrite <- Hsrow; exact Hs | exact Hslt | exact Hsc | | ].
    - apply (Hmin c v). rewrite Hirow. apply in_or_app. left. exact Hin.
    - rewrite Forall_forall in Hilt. exact (Hilt (c, v) Hin). }
  destruct irest as [ | [c0 v0] irest].
  { (* the reference row is exhausted *)
    rewrite app_nil_r in Hirow. subst iskip.
    rewrite Z.eqb_refl in H. injection H as <- <-.
    exists [], []. rewrite !app_nil_r. repeat split.
    intros c v Hin _ Hc. exact (Hskipped c v Hin Hc). }
  replace (ii + Z.of_nat (length iskip) =? ii + Z.of_nat (length irow))
    with false in H
    by (symmetry; apply Z.eqb_neq; rewrite Hirow, length_app; cbn [length]; lia).
  unfold dealii.value, dealii.column, dealii.deref, dealii.incr in H.
  cbn [dealii.ahead dealii.linear_index app bind fst snd tl] in H.
  assert (Hafter : forall c v, In (c, v) irest -> c0 < c).
  { intros c v Hin. rewrite Hirow, map_app in Hi. apply increasing_app in Hi.
    destruct Hi as [_ [[Hall _] _]]. cbn [map fst] in Hall.
    rewrite Forall_forall in Hall. apply Hall. apply (in_map fst _ (c, v)).
    exact Hin. }
  assert (Hrest_i : increasing (map fst irest)).
  { rewrite Hirow, map_app in Hi. apply increasing_app in Hi.
    destruct Hi as [_ [[_ Hinc] _]]. exact Hinc. }
  assert (Hc0 : ic <= c0).
  { apply (Hmin c0 v0). rewrite Hirow. apply in_or_app. right. left. reflexivity. }
  (* what the rest of the loop owes: the entries after [(c0, v0)] *)
  assert (Hrest :
            forall (ri' : list Z) (vs' : list Number),
              copy_loop bound tol cap
                (dealii.mkIterator (si + Z.of_nat (length srow)) sea)
                (dealii.mkIterator (ii + Z.of_nat (length irow)) iea)
                (dealii.mkIterator (si + Z.of_nat (length sskip) + 1)
                   (tl (srest ++ stail)))
                (dealii.mkIterator (ii + Z.of_nat (length iskip) + 1)
                   (irest ++ itail))
                ri' vs' = Ok (cols, vals) ->
              exists cols' vals',
                cols = ri' ++ cols' /\ vals = vs' ++ vals'
                /\ length cols' = length vals'
                /\ forall c v,
                     In (c, v) irest -> fabs_gt v tol = true -> In c srow ->
                     In (c, v) (combine cols' vals')).
  { intros ri' vs' Hloop. destruct srest as [ | s1 srest].
    - (* the target row is exhausted: no column of it is left *)
      apply copy_loop_sound in Hloop.
      destruct Hloop as [cols' [vals' [Hc [Hv [Hlen _]]]]].
      exists cols', vals'. repeat split; try assumption.
      intros c v Hin _ Hc'. exfalso. rewrite app_nil_r in Hsrow.
      rewrite Hsrow in Hc'. rewrite Forall_forall in Hslt.
      specialize (Hslt c Hc').
      assert (ic <= c)
        by (apply (Hmin c v); rewrite Hirow; apply in_or_app; right; right;
            exact Hin).
      lia.
    - cbn [app tl] in Hloop.
      replace (si + Z.of_nat (length srow))
        with (si + Z.of_nat (length sskip) + 1 + Z.of_nat (length srest))
        in Hloop by (rewrite Hsrow, length_app; cbn [length]; lia).
      replace (ii + Z.of_nat (length irow))
        with (ii + Z.of_nat (length iskip) + 1 + Z.of_nat (length irest))
        in Hloop by (rewrite Hirow, length_app; cbn [length]; lia).
      apply IH in Hloop; [ | | exact Hrest_i].
      2:{ rewrite Hsrow in Hs. apply increasing_app in Hs.
          destruct Hs as [_ [[_ Hinc] _]]. exact Hinc. }
      destruct Hloop as [cols' [vals' [Hc [Hv [Hlen Hall]]]]].
      exists cols', vals'. repeat split; try assumption.
      intros c v Hin Habove Hc'. apply Hall; [exact Hin | exact Habove | ].
      cbn in Hsc. injection Hsc as <-.
      rewrite Hsrow in Hc'. apply in_app_or in Hc'.
      destruct Hc' as [Hc' | [Hc' | Hc']]; [ | | exact Hc'].
      + exfalso. rewrite Forall_forall in Hslt. specialize (Hslt c Hc').
        pose proof (Hafter c v Hin). lia.
      + exfalso. subst c. pose proof (Hafter s1 v Hin).
        cbn [fst] in Histop. lia. }
  destruct (fabs_gt v0 tol) eqn:Habove0.
  - destruct (write_at cap (length ri)); cbn [bind] in H; [ | discriminate].
    destruct (Hrest _ _ H) as [cols' [vals' [Hc [Hv [Hlen Hall]]]]].
    exists (c0 :: cols'), (v0 :: vals').
    rewrite <- !app_assoc in Hc, Hv. cbn [app] in Hc, Hv.
    split; [exact Hc | ]. split; [exact Hv | ].
    split; [cbn [length]; rewrite Hlen; reflexivity | ].
    intros c v Hin Habove Hc'. rewrite Hirow in Hin. apply in_app_or in Hin.
    destruct Hin as [Hin | [Hin | Hin]].
    + exfalso. exact (Hskipped c v Hin Hc').
    + injection Hin as <- <-. left. reflexivity.
    + right. exact (Hall c v Hin Habove Hc').
  - destruct (Hrest _ _ H) as [cols' [vals' [Hc [Hv [Hlen Hall]]]]].
    exists cols', vals'. repeat split; try assumption.
    intros c v Hin Habove Hc'. rewrite Hirow in Hin. apply in_app_or in Hin.
    destruct Hin as [Hin | [Hin | Hin]].
    + exfalso. exact (Hskipped c v Hin Hc').
    + injection Hin as <- <-. congruence.
    + exact (Hall c v Hin Habove Hc').
Qed.

Lemma row_of_array {T : Type} (entries : list T) (b e : Z) :
  0 <= b <= e ->
  e <= Z.of_nat (length entries) ->
  let row := firstn (Z.to_nat (e - b)) (skipn (Z.to_nat b) entries) in
  skipn (Z.to_nat b) entries
  = row ++ skipn (Z.to_nat (e - b)) (skipn (Z.to_nat b) entries)
  /\ e = b + Z.of_nat (length row).
Proof.
  intros Hbe He row. split.
  - symmetry. apply firstn_skipn.
  - unfold row. rewrite length_firstn, length_skipn. lia.
Qed.

(** X21.  The merge loop of [reinit] never misses a common entry.  For rows
    kept in the order of deal.II, whenever the loop succeeds for a row it has
    collected every entry of the reference row whose magnitude is above the
    drop tolerance and whose column the target row has, whatever other
    columns the two rows hold. *)
Theorem reinit_merge_never_misses :
  forall (sparsity_pattern : dealii.SparsityPattern)
         (dealii_sparse_matrix : dealii.SparseMatrix) (drop_tolerance : Number)
         (maximum_row_length : Z) (row : Z) (cols : list Z) (vals : list Number),
    length (dealii.colnums (dealii.get_sparsity_pattern dealii_sparse_matrix))
    = length (dealii.val dealii_sparse_matrix) ->
    0 <= row_begin dealii_sparse_matrix row <= row_end dealii_sparse_matrix row ->
    row_end dealii_sparse_matrix row
    <= Z.of_nat (length (dealii.colnums
                           (dealii.get_sparsity_pattern dealii_sparse_matrix))) ->
    0 <= target_begin sparsity_pattern row <= target_end sparsity_pattern row ->
    target_end sparsity_pattern row
    <= Z.of_nat (length (dealii.colnums sparsity_pattern)) ->
    rows_sorted sparsity_pattern dealii_sparse_matrix row ->
    copy_row sparsity_pattern dealii_sparse_matrix drop_tolerance
      maximum_row_length row = Ok (cols, vals) ->
    forall c v,
      In (c, v) (row_entries dealii_sparse_matrix row) ->
      fabs_gt v drop_tolerance = true ->
      In c (target_row sparsity_pattern row) ->
      In (c, v) (combine cols vals).
Proof.
  intros sp M tol cap row cols vals Hval Hibe Hie Hsbe Hse Hsorted H c v
    Hin Habove Hc.
  assert (Hentries : length (dealii.matrix_entries M)
                     = length (dealii.colnums (dealii.get_sparsity_pattern M))).
  { unfold dealii.matrix_entries. rewrite length_combine. lia. }
  destruct (row_of_array (dealii.colnums sp) _ _ Hsbe Hse) as [Hssplit Hsend].
  fold (target_row sp row) in Hssplit, Hsend.
  rewrite <- Hentries in Hie.
  destruct (row_of_array (dealii.matrix_entries M) _ _ Hibe Hie)
    as [Hisplit Hiend].
  fold (row_entries M row) in Hisplit, Hiend.
  unfold copy_row, dealii.pattern_begin, dealii.pattern_end,
    dealii.matrix_begin, dealii.matrix_end, dealii.iterator_at in H.
  fold (target_begin sp row) (target_end sp row) (row_begin M row)
    (row_end M row) in H.
  set (bound := S (length (dealii.ahead _))) in H. clearbody bound.
  rewrite Hssplit, Hisplit in H.
  set (stail := skipn (Z.to_nat (target_end sp row - target_begin sp row))
                  (skipn (Z.to_nat (target_begin sp row)) (dealii.colnums sp)))
    in H.
  set (itail := skipn (Z.to_nat (row_end M row - row_begin M row))
                  (skipn (Z.to_nat (row_begin M row)) (dealii.matrix_entries M)))
    in H.
  clearbody stail itail. rewrite Hsend, Hiend in H.
  set (sea := skipn _ (dealii.colnums sp)) in H.
  set (iea := skipn _ (dealii.matrix_entries M)) in H.
  clearbody sea iea.
  unfold rows_sorted in Hsorted.
  destruct (dealii.n_rows sp =? dealii.n_cols sp).
  - destruct Hsorted
      as [v0 [srest [irest [Hrow [Htarget [Hsinc [Hiinc Hnodiag]]]]]]].
    rewrite Hrow, Htarget in *.
    unfold dealii.column, dealii.value, dealii.deref, dealii.incr in H.
    cbn [dealii.ahead dealii.linear_index app bind fst snd tl] in H.
    unfold AssertDimension, Assert in H. rewrite Z.eqb_refl in H.
    cbn [bind] in H.
    replace (target_begin sp row + Z.of_nat (length (row :: srest)))
      with (target_begin sp row + 1 + Z.of_nat (length srest)) in H
      by (cbn [length]; lia).
    replace (row_begin M row + Z.of_nat (length ((row, v0) :: irest)))
      with (row_begin M row + 1 + Z.of_nat (length irest)) in H
      by (cbn [length]; lia).
    assert (Hcommon : In (c, v) irest -> In c srest).
    { intros Hin'. destruct Hc as [Hc | Hc]; [ | exact Hc].
      exfalso. apply Hnodiag. rewrite Hc. apply (in_map fst _ (c, v)).
      exact Hin'. }
    destruct (fabs_gt v0 tol) eqn:Habove0.
    + destruct (write_at cap 0); cbn [bind] in H; [ | discriminate].
      apply copy_loop_never_misses in H; [ | exact Hsinc | exact Hiinc].
      destruct H as [cols' [vals' [-> [-> [_ Hall]]]]]. cbn [app combine].
      destruct Hin as [Hin | Hin].
      * injection Hin as <- <-. left. reflexivity.
      * right. exact (Hall c v Hin Habove (Hcommon Hin)).
    + apply copy_loop_never_misses in H; [ | exact Hsinc | exact Hiinc].
      destruct H as [cols' [vals' [-> [-> [_ Hall]]]]]. cbn [app].
      destruct Hin as [Hin | Hin].
      * injection Hin as <- <-. congruence.
      * exact (Hall c v Hin Habove (Hcommon Hin)).
  - destruct Hsorted as [Hsinc Hiinc].
    apply copy_loop_never_misses in H; [ | exact Hsinc | exact Hiinc].
    destruct H as [cols' [vals' [-> [-> [_ Hall]]]]]. cbn [app].
    exact (Hall c v Hin Habove Hc).
Qed.

Lemma reinit_merge_never_misses_witness :
  copy_row zigzag_pattern zigzag_matrix zero 3 0 = Ok ([0; 5], [two; two])
  /\ In (5, two) (combine [0; 5] [two; two]).
Proof.
  assert (H : copy_row zigzag_pattern zigzag_matrix zero 3 0
              = Ok ([0; 5], [two; two])) by (vm_compute; reflexivity).
  split; [exact H | ].
  apply (reinit_merge_never_misses zigzag_pattern zigzag_matrix zero 3 0
           [0; 5] [two; two]).
  - reflexivity.
  - vm_compute. split; discriminate.
  - vm_compute. discriminate.
  - vm_compute. split; discriminate.
  - vm_compute. discriminate.
  - unfold rows_sorted. cbn [dealii.n_rows dealii.n_cols zigzag_pattern Z.eqb].
    split; vm_compute; repeat constructor.
  - exact H.
  - vm_compute. right. right. left. reflexivity.
  - reflexivity.
  - vm_compute. right. right. left. reflexivity.
Defined.
